(** * Playback controller of the sign slideshow (SignDisplay.jsx)

    A shallow embedding of the React component [SignDisplay]: its state
    variables, its event handlers, its three effects and the browser timer
    table they talk to, followed by the properties of the playback state
    machine.

    Conventions of the embedding.
    - [currentIndex] and [speed] are JavaScript numbers that only ever hold
      integers here (array indices, the values of the speed menu); they are
      modelled in [Z].
    - [signs[i]] on an index outside the array is [undefined], and reading
      [.type] of it raises a [TypeError]; this is the [TypeError] outcome.
    - The two [while] loops take a fuel argument; the updaters supply a fuel
      that is never used up (lemmas [nextSign_updater_fuel],
      [prevSign_updater_fuel], [tick_updater_fuel], [step_fuel]).
    - One call of a handler, the re-render it causes and the effects of that
      render are one transition of the machine. *)

From Stdlib Require Import ZArith List Bool String Lia.
Import ListNotations.
Local Open Scope Z_scope.

(** ** Data *)

(** The [type] field of a sign object: ['word'], ['letter'] or ['space']. *)
Inductive SignType : Type := word | letter | space.

Record SignToken : Type := mkSign {
  type : SignType;
  label : string;
  original : string;
  image_url : option string
}.

Record TranslationResult : Type := mkResult {
  original_text : string;
  isl_tokens : list string;
  signs : list SignToken;
  total_signs : Z
}.

Definition is_space (t : SignType) : bool :=
  match t with space => true | _ => false end.

(** Outcome of a piece of JavaScript. *)
Inductive result (A : Type) : Type :=
| Ok (a : A)
| TypeError
| OutOfFuel.
Arguments Ok {A} a.
Arguments TypeError {A}.
Arguments OutOfFuel {A}.

Definition bind {A B : Type} (r : result A) (k : A -> result B) : result B :=
  match r with
  | Ok a => k a
  | TypeError => TypeError
  | OutOfFuel => OutOfFuel
  end.

Notation "x <- r ;; k" := (bind r (fun x => k))
  (at level 61, r at next level, right associativity).

(** [signs.length] *)
Definition len (sg : list SignToken) : Z := Z.of_nat (List.length sg).

(** [signs[i]]: [None] stands for [undefined]. *)
Definition sign_at (sg : list SignToken) (i : Z) : option SignToken :=
  if i <? 0 then None else nth_error sg (Z.to_nat i).

(** [signs[i].type === 'space'] *)
Definition type_is_space (sg : list SignToken) (i : Z) : result bool :=
  match sign_at sg i with
  | Some s => Ok (is_space (type s))
  | None => TypeError
  end.

(** ** The two scanning loops *)

(** [while (next < signs.length && signs[next].type === 'space') next++;] *)
Fixpoint skip_forward (fuel : nat) (sg : list SignToken) (next : Z) : result Z :=
  match fuel with
  | O => OutOfFuel
  | S fuel' =>
      if next <? len sg then
        b <- type_is_space sg next ;;
        if b then skip_forward fuel' sg (next + 1) else Ok next
      else Ok next
  end.

(** [while (next > 0 && signs[next].type === 'space') next--;] *)
Fixpoint skip_backward (fuel : nat) (sg : list SignToken) (next : Z) : result Z :=
  match fuel with
  | O => OutOfFuel
  | S fuel' =>
      if next >? 0 then
        b <- type_is_space sg next ;;
        if b then skip_backward fuel' sg (next - 1) else Ok next
      else Ok next
  end.

Definition forward_fuel (sg : list SignToken) (next : Z) : nat :=
  S (Z.to_nat (len sg - next)).

Definition backward_fuel (next : Z) : nat := S (Z.to_nat next).

(** ** State updaters

    Each updater is the function handed to [setCurrentIndex]; it returns the
    new index together with a flag telling whether it called
    [setIsPlaying(false)] on the way. *)

(** The updater of [nextSign]. *)
Definition nextSign_updater (sg : list SignToken) (prev : Z) : result (Z * bool) :=
  if prev >=? len sg - 1 then Ok (prev, true)
  else
    next <- skip_forward (forward_fuel sg (prev + 1)) sg (prev + 1) ;;
    Ok (if next >=? len sg then prev else next, false).

(** The updater of [prevSign]. *)
Definition prevSign_updater (sg : list SignToken) (prev : Z) : result Z :=
  if prev <=? 0 then Ok 0
  else skip_backward (backward_fuel (prev - 1)) sg (prev - 1).

(** The updater run by the interval callback; the flag also stands for the
    [clearInterval(intervalRef.current)] that goes with it. *)
Definition tick_updater (sg : list SignToken) (prev : Z) : result (Z * bool) :=
  next <- skip_forward (forward_fuel sg (prev + 1)) sg (prev + 1) ;;
  if next >=? len sg then Ok (prev, true) else Ok (next, false).

(** ** The component: state, refs and the browser's timer table *)

(** A live timer of the browser.  An interval carries the [signs] array that
    its callback closed over; every one-shot timeout of the component runs
    [play()]. *)
Inductive Timer : Type :=
| IntervalTimer (id : positive) (ms : Z) (captured : list SignToken)
| PlayTimeout (id : positive) (ms : Z).

Definition timer_id (t : Timer) : positive :=
  match t with
  | IntervalTimer id _ _ => id
  | PlayTimeout id _ => id
  end.

Definition is_interval (t : Timer) : bool :=
  match t with IntervalTimer _ _ _ => true | PlayTimeout _ _ => false end.

Record Machine : Type := mkMachine {
  data : option TranslationResult;   (* the [data] prop *)
  currentIndex : Z;                  (* useState(0) *)
  isPlaying : bool;                  (* useState(false) *)
  speed : Z;                         (* useState(1000) *)
  intervalRef : option positive;     (* useRef(null) *)
  autoStart : option positive;       (* [t], held by the auto-start cleanup *)
  timers : list Timer;               (* timers the browser still has to fire *)
  nextTimer : positive               (* the id the browser hands out next *)
}.

(** [const signs = data?.signs || [];] *)
Definition signs_of (m : Machine) : list SignToken :=
  match data m with
  | Some r => signs r
  | None => []
  end.

Definition set_data (d : option TranslationResult) (m : Machine) : Machine :=
  mkMachine d (currentIndex m) (isPlaying m) (speed m) (intervalRef m)
            (autoStart m) (timers m) (nextTimer m).

Definition setCurrentIndex (i : Z) (m : Machine) : Machine :=
  mkMachine (data m) i (isPlaying m) (speed m) (intervalRef m)
            (autoStart m) (timers m) (nextTimer m).

Definition setIsPlaying (b : bool) (m : Machine) : Machine :=
  mkMachine (data m) (currentIndex m) b (speed m) (intervalRef m)
            (autoStart m) (timers m) (nextTimer m).

Definition setSpeed (ms : Z) (m : Machine) : Machine :=
  mkMachine (data m) (currentIndex m) (isPlaying m) ms (intervalRef m)
            (autoStart m) (timers m) (nextTimer m).

Definition set_intervalRef (r : option positive) (m : Machine) : Machine :=
  mkMachine (data m) (currentIndex m) (isPlaying m) (speed m) r
            (autoStart m) (timers m) (nextTimer m).

Definition set_autoStart (t : option positive) (m : Machine) : Machine :=
  mkMachine (data m) (currentIndex m) (isPlaying m) (speed m) (intervalRef m)
            t (timers m) (nextTimer m).

(** [clearInterval(id)] and [clearTimeout(id)]: one pool of ids. *)
Definition clearTimer (id : positive) (m : Machine) : Machine :=
  mkMachine (data m) (currentIndex m) (isPlaying m) (speed m) (intervalRef m)
            (autoStart m)
            (filter (fun t => negb (Pos.eqb (timer_id t) id)) (timers m))
            (nextTimer m).

(** [setInterval] and [setTimeout]: the new timer gets the next id, which is
    returned with the machine. *)
Definition addTimer (mk : positive -> Timer) (m : Machine) : positive * Machine :=
  (nextTimer m,
   mkMachine (data m) (currentIndex m) (isPlaying m) (speed m) (intervalRef m)
             (autoStart m) (timers m ++ [mk (nextTimer m)])
             (Pos.succ (nextTimer m))).

Definition find_timer (id : positive) (m : Machine) : option Timer :=
  find (fun t => Pos.eqb (timer_id t) id) (timers m).

(** ** Event handlers *)

Definition play (m : Machine) : Machine := setIsPlaying true m.

Definition pause (m : Machine) : Machine :=
  let m1 := setIsPlaying false m in
  match intervalRef m1 with
  | Some id => set_intervalRef None (clearTimer id m1)
  | None => m1
  end.

Definition goToSign (index : Z) (m : Machine) : Machine :=
  setCurrentIndex index m.

Definition nextSign (m : Machine) : result Machine :=
  r <- nextSign_updater (signs_of m) (currentIndex m) ;;
  let m1 := setCurrentIndex (fst r) m in
  Ok (if snd r then setIsPlaying false m1 else m1).

Definition prevSign (m : Machine) : result Machine :=
  i <- prevSign_updater (signs_of m) (currentIndex m) ;;
  Ok (setCurrentIndex i m).

Definition replay (m : Machine) : Machine :=
  let m1 := pause m in
  let m2 := setCurrentIndex 0 m1 in
  snd (addTimer (fun id => PlayTimeout id 300) m2).

(** The callback given to [setInterval]; [captured] is the [signs] array of
    the render in which the interval was created. *)
Definition interval_callback (captured : list SignToken) (m : Machine)
  : result Machine :=
  r <- tick_updater captured (currentIndex m) ;;
  let m1 := setCurrentIndex (fst r) m in
  if snd r then
    let m2 := setIsPlaying false m1 in
    Ok (match intervalRef m2 with
        | Some id => clearTimer id m2
        | None => m2
        end)
  else Ok m1.

(** ** Effects *)

(** Cleanup of the timer effect:
    [if (intervalRef.current) clearInterval(intervalRef.current)]. *)
Definition timer_cleanup (m : Machine) : Machine :=
  match intervalRef m with
  | Some id => clearTimer id m
  | None => m
  end.

(** Body of the timer effect. *)
Definition timer_effect (m : Machine) : Machine :=
  if isPlaying m && (len (signs_of m) >? 0) then
    let (id, m1) :=
      addTimer (fun id => IntervalTimer id (speed m) (signs_of m)) m in
    set_intervalRef (Some id) m1
  else m.

(** [useEffect(() => { setCurrentIndex(0); setIsPlaying(false); }, [data])] *)
Definition reset_effect (m : Machine) : Machine :=
  setIsPlaying false (setCurrentIndex 0 m).

(** Cleanup of the auto-start effect: [clearTimeout(t)], when the last run of
    the effect returned one. *)
Definition autoStart_cleanup (m : Machine) : Machine :=
  match autoStart m with
  | Some t => set_autoStart None (clearTimer t m)
  | None => m
  end.

(** Body of the auto-start effect. *)
Definition autoStart_effect (m : Machine) : Machine :=
  match data m with
  | Some r =>
      if len (signs r) >? 0 then
        let (t, m1) := addTimer (fun id => PlayTimeout id 500) m in
        set_autoStart (Some t) m1
      else set_autoStart None m
  | None => set_autoStart None m
  end.

(** ** Rendering

    [rerender old m]: the handler turned the committed state [old] into [m].
    React renders again only if a state variable changed, and then runs the
    timer effect if one of its dependencies [isPlaying, speed, signs] did.
    [signs] is the same array as long as [data] is an object; with [data]
    null it is a new empty array literal in every render. *)
Definition timer_deps_changed (old m : Machine) : bool :=
  negb (Bool.eqb (isPlaying old) (isPlaying m))
  || negb (speed old =? speed m)
  || (match data m with None => true | Some _ => false end
      && negb (currentIndex old =? currentIndex m)).

Definition rerender (old m : Machine) : Machine :=
  if timer_deps_changed old m then timer_effect (timer_cleanup m) else m.

(** The component's first render with [data = d] and the effects after it. *)
Definition initial (d : option TranslationResult) : Machine :=
  mkMachine d 0 false 1000 None None [] 1%positive.

Definition mount (d : option TranslationResult) : Machine :=
  let m := initial d in
  rerender m (autoStart_effect (reset_effect (timer_effect m))).

(** The render in which the [data] prop has changed: every dependency list
    has changed, so all cleanups run, then all effect bodies in order; the
    state written by the reset effect causes one more render. *)
Definition load_changed (d : option TranslationResult) (m : Machine) : Machine :=
  let m1 := set_data d m in
  let m2 := autoStart_cleanup (timer_cleanup m1) in
  rerender m1 (autoStart_effect (reset_effect (timer_effect m2))).

(** Does passing [d] change the [data] prop?  A result is passed as a new
    object (a render that passes the same object again runs no effect and
    is no transition); [null] is the same as [null]. *)
Definition prop_changes (m : Machine) (d : option TranslationResult) : bool :=
  match data m, d with
  | None, None => false
  | _, _ => true
  end.

(** The parent renders the component with [data = d].  When the prop has
    changed this is [load_changed].  When it is [null] as before, the two
    effects that depend on [data] do not run; [signs] is a new empty array,
    so the timer effect runs again, its cleanup and then its body. *)
Definition load (d : option TranslationResult) (m : Machine) : Machine :=
  if prop_changes m d then load_changed d m
  else timer_effect (timer_cleanup m).

(** The component is removed: the cleanups run and the state is gone; what
    is left is the list of timers the browser still holds. *)
Definition unmount (m : Machine) : list Timer :=
  timers (autoStart_cleanup (timer_cleanup m)).

(** ** Transitions *)

Inductive Event : Type :=
| Play
| Pause
| Next
| Prev
| Replay
| Seek (index : Z)
| SetSpeed (ms : Z)
| Load (d : option TranslationResult)
| Tick (id : positive)     (* the browser fires interval [id] *)
| Fire (id : positive).    (* the browser fires one-shot timeout [id] *)

Definition step (m : Machine) (e : Event) : result Machine :=
  match e with
  | Play => Ok (rerender m (play m))
  | Pause => Ok (rerender m (pause m))
  | Next => m' <- nextSign m ;; Ok (rerender m m')
  | Prev => m' <- prevSign m ;; Ok (rerender m m')
  | Replay => Ok (rerender m (replay m))
  | Seek index => Ok (rerender m (goToSign index m))
  | SetSpeed ms => Ok (rerender m (setSpeed ms m))
  | Load d => Ok (load d m)
  | Tick id =>
      match find_timer id m with
      | Some (IntervalTimer _ _ captured) =>
          m' <- interval_callback captured m ;; Ok (rerender m m')
      | _ => Ok m
      end
  | Fire id =>
      match find_timer id m with
      | Some (PlayTimeout _ _) =>
          let m1 := clearTimer id m in
          Ok (rerender m1 (play m1))
      | _ => Ok m
      end
  end.

Fixpoint run (m : Machine) (es : list Event) : result Machine :=
  match es with
  | [] => Ok m
  | e :: es' => m' <- step m e ;; run m' es'
  end.

(** ** Vocabulary of the properties *)

(** Index [i] holds a visual sign (a word or a letter). *)
Definition visual (sg : list SignToken) (i : Z) : bool :=
  match sign_at sg i with
  | Some s => negb (is_space (type s))
  | None => false
  end.

(** The timeline renders the chip of index [i] with a click handler: the
    index comes from [signs.map], and chips of spaces get no handler. *)
Definition timeline_chip (sg : list SignToken) (i : Z) : bool := visual sg i.

(** [currentIndex] is on a visual sign, or is 0 on an empty sequence. *)
Definition index_ok (m : Machine) : Prop :=
  visual (signs_of m) (currentIndex m) = true
  \/ (signs_of m = [] /\ currentIndex m = 0).

(** The sequence is empty or begins with a visual sign. *)
Definition head_ok (sg : list SignToken) : Prop :=
  sg = [] \/ visual sg 0 = true.

Definition head_okb (sg : list SignToken) : bool :=
  match sg with
  | [] => true
  | s :: _ => negb (is_space (type s))
  end.

Definition data_signs (d : option TranslationResult) : list SignToken :=
  match d with Some r => signs r | None => [] end.

(** Events as the page can produce them: a seek is a click on a chip of the
    timeline, and every loaded sequence is empty or begins with a visual
    sign; all else is unconstrained. *)
Definition from_page (m : Machine) (e : Event) : bool :=
  match e with
  | Seek i => timeline_chip (signs_of m) i
  | Load d => head_okb (data_signs d)
  | _ => true
  end.

(** A trace all of whose events come from the page; it is followed as far
    as the machine runs. *)
Fixpoint trace_from_page (m : Machine) (es : list Event) : bool :=
  match es with
  | [] => true
  | e :: es' =>
      from_page m e &&
      match step m e with
      | Ok m' => trace_from_page m' es'
      | _ => true
      end
  end.

(** Every live interval is the one [intervalRef] points to. *)
Definition owns (m : Machine) : Prop :=
  forall id ms cap,
    In (IntervalTimer id ms cap) (timers m) -> intervalRef m = Some id.

(** Every live interval was created by the current render: it runs at the
    current speed over the current sign sequence, while playing. *)
Definition live_ok (m : Machine) : Prop :=
  forall id ms cap,
    In (IntervalTimer id ms cap) (timers m) ->
    ms = speed m /\ cap = signs_of m /\ isPlaying m = true.

Definition timers_ok (m : Machine) : Prop := owns m /\ live_ok m.

Definition no_interval (tbl : list Timer) : Prop :=
  forall t, In t tbl -> is_interval t = false.

(** Timer ids are handed out in increasing order: every id in use is below
    the next one. *)
Definition ids_fresh (m : Machine) : Prop :=
  (forall t, In t (timers m) -> (timer_id t < nextTimer m)%positive)
  /\ (forall r, intervalRef m = Some r -> (r < nextTimer m)%positive)
  /\ (forall t, autoStart m = Some t -> (t < nextTimer m)%positive).

(** Without a result no auto-start timer is on record: the auto-start
    effect last ran with [data] null and returned no cleanup. *)
Definition autoStart_ok (m : Machine) : Prop :=
  data m = None -> autoStart m = None.

(** The machines that can arise: the timer table is in order, timer ids
    are fresh, and the auto-start record goes with a result.  All three
    hold after a mount and are kept by every transition. *)
Definition consistent (m : Machine) : Prop :=
  timers_ok m /\ ids_fresh m /\ autoStart_ok m.

(** What holds of every machine the page can produce. *)
Definition page_inv (m : Machine) : Prop :=
  timers_ok m /\ index_ok m /\ head_ok (signs_of m).

(** ** Sample data *)

Definition sign_A : SignToken := mkSign word "A" "a" (Some "/img/A.png"%string).
Definition sign_B : SignToken := mkSign letter "B" "b" (Some "/img/B.png"%string).
Definition sign_gap : SignToken := mkSign space "" "" None.

Definition result_of (sg : list SignToken) : option TranslationResult :=
  Some (mkResult "" [] sg (Z.of_nat (List.length (filter (fun s => negb (is_space (type s))) sg)))).

(** A sequence of three signs with a word boundary in the middle, as the
    translation service sends it, mounted and not yet playing. *)
Definition three_signs : list SignToken := [sign_A; sign_gap; sign_B].
Definition m_three : Machine :=
  Eval vm_compute in mount (result_of three_signs).

(** The same slideshow after the play button was pressed. *)
Definition m_three_playing : Machine :=
  Eval vm_compute in rerender m_three (play m_three).

(** A sequence that ends with a word boundary, playing on its first sign. *)
Definition trailing_gap : list SignToken := [sign_A; sign_gap].
Definition m_trailing : Machine :=
  Eval vm_compute in mount (result_of trailing_gap).
Definition m_trailing_playing : Machine :=
  Eval vm_compute in rerender m_trailing (play m_trailing).

(** A result whose only sign is a word boundary. *)
Definition only_gap : list SignToken := [sign_gap].

(** ** Classes of events *)

Definition is_setSpeed (e : Event) : bool :=
  match e with SetSpeed _ => true | _ => false end.

(** The cancellation events that are transitions of the machine (teardown
    is [unmount]). *)
Definition cancels (e : Event) : bool :=
  match e with Pause | Load _ => true | _ => false end.

(** ** What the component renders

    The part of the JSX that depends on the playback state: the sign shown
    in the player, the play button, the speed menu and the timeline.  Class
    names, icons and React keys are markup and are not part of these values;
    the one class that carries state, [active], is the boolean of a chip. *)

Definition API_URL : string := "http://localhost:5000".

(** [if (!data || signs.length === 0)]: the page shows the empty state and
    none of the controls. *)
Definition shows_empty_state (m : Machine) : bool :=
  match data m with
  | None => true
  | Some _ => len (signs_of m) =? 0
  end.

(** [const currentSign = signs[currentIndex];] *)
Definition currentSign (m : Machine) : option SignToken :=
  sign_at (signs_of m) (currentIndex m).

Record Image : Type := mkImage { src : string; alt : string }.

(** The [img] of the player, or [None] for the placeholder:
    [currentSign && currentSign.image_url ? <img .../> : placeholder].  An
    empty string is falsy. *)
Definition player_image (m : Machine) : option Image :=
  match currentSign m with
  | Some s =>
      match image_url s with
      | Some url =>
          if String.eqb url "" then None
          else Some (mkImage (String.append API_URL url)
                             (String.append "ISL sign for " (label s)))
      | None => None
      end
  | None => None
  end.

Definition dquote : string := String (Ascii.ascii_of_nat 34) EmptyString.

(** The two text lines under the image, when there is a current sign: the
    label, and the word, announced as a spelling for a letter. *)
Definition player_caption (m : Machine) : option (string * string) :=
  match currentSign m with
  | Some s =>
      Some (label s,
            match type s with
            | letter =>
                String.append "Spelling: "
                  (String.append dquote (String.append (original s) dquote))
            | _ => original s
            end)
  | None => None
  end.

(** The middle button: its title and its click handler,
    [onClick={isPlaying ? pause : play}]. *)
Definition play_button (m : Machine) : string * Event :=
  if isPlaying m then ("Pause"%string, Pause) else ("Play"%string, Play).

(** The values of the [option]s of the speed menu, in order. *)
Definition speed_menu : list Z := [2000; 1000; 600; 400].

(** A chip of the timeline: the bar of a word boundary, without handler, or
    the label of a sign with [onClick={() => goToSign(idx)}]. *)
Inductive Chip : Type :=
| SpaceChip
| SignChip (text : string) (active : bool) (onClick : Event).

(** [signs.map((sign, idx) => ...)], from index [idx] on. *)
Fixpoint timeline_from (idx : Z) (sg : list SignToken) (current : Z) : list Chip :=
  match sg with
  | [] => []
  | sign :: rest =>
      (if is_space (type sign) then SpaceChip
       else SignChip (label sign) (idx =? current) (Seek idx))
      :: timeline_from (idx + 1) rest current
  end.

Definition timeline (m : Machine) : list Chip :=
  timeline_from 0 (signs_of m) (currentIndex m).

Definition chip_handler (c : Chip) : list Event :=
  match c with
  | SpaceChip => []
  | SignChip _ _ e => [e]
  end.

Definition is_active (c : Chip) : bool :=
  match c with
  | SpaceChip => false
  | SignChip _ a _ => a
  end.

(** Every event a user can cause on the rendered page. *)
Definition page_handlers (m : Machine) : list Event :=
  if shows_empty_state m then []
  else [Prev; snd (play_button m); Next; Replay]
       ++ map SetSpeed speed_menu
       ++ flat_map chip_handler (timeline m).

(** Equality of user events (loads and timer events are not user events). *)
Definition user_event_eqb (a b : Event) : bool :=
  match a, b with
  | Play, Play | Pause, Pause | Next, Next | Prev, Prev | Replay, Replay => true
  | Seek i, Seek j => i =? j
  | SetSpeed x, SetSpeed y => x =? y
  | _, _ => false
  end.

(** An event that can reach the component when it is used through the page:
    a handler of the page as it is rendered at that moment, a timer event,
    or a load of a sequence that is empty or begins with a visual sign. *)
Definition offered (m : Machine) (e : Event) : bool :=
  match e with
  | Tick _ | Fire _ => true
  | Load d => head_okb (data_signs d)
  | _ => existsb (user_event_eqb e) (page_handlers m)
  end.

Fixpoint offered_trace (m : Machine) (es : list Event) : bool :=
  match es with
  | [] => true
  | e :: es' =>
      offered m e &&
      match step m e with
      | Ok m' => offered_trace m' es'
      | _ => true
      end
  end.

(** ** More vocabulary *)

(** No two live timers share an id. *)
Definition ids_unique (m : Machine) : Prop :=
  NoDup (map timer_id (timers m)).

(** While Playing on a non-empty sequence, the interval that advances the
    index is live: it is the one of [intervalRef] and runs at the current
    speed over the current sequence. *)
Definition driven (m : Machine) : Prop :=
  isPlaying m = true -> len (signs_of m) > 0 ->
  exists id, intervalRef m = Some id
    /\ In (IntervalTimer id (speed m) (signs_of m)) (timers m).

Definition interval_count (m : Machine) : nat :=
  List.length (filter is_interval (timers m)).

(** What holds of every machine reached from a mount. *)
Definition sound (m : Machine) : Prop :=
  consistent m /\ ids_unique m /\ driven m.

(** The indices of a sequence, and those after [i] that hold a visual sign. *)
Definition indices (sg : list SignToken) : list Z :=
  map Z.of_nat (seq 0 (List.length sg)).

Definition visuals_after (sg : list SignToken) (i : Z) : list Z :=
  filter (fun j => (i <? j) && visual sg j) (indices sg).

(** [n] ticks of interval [id] in a row, with the index shown after each. *)
Fixpoint ticks (n : nat) (id : positive) (m : Machine)
  : result (list Z * Machine) :=
  match n with
  | O => Ok ([], m)
  | S n' =>
      m1 <- step m (Tick id) ;;
      r <- ticks n' id m1 ;;
      Ok (currentIndex m1 :: fst r, snd r)
  end.

(** A speed change that comes from the menu. *)
Definition from_menu (e : Event) : bool :=
  match e with
  | SetSpeed ms => existsb (Z.eqb ms) speed_menu
  | _ => true
  end.

(** A longer sequence: a word, then a word spelled by two letters, then a
    word, with the word boundaries between them. *)
Definition spelled : list SignToken :=
  [sign_A; sign_gap; sign_B; sign_B; sign_gap; sign_A].
Definition m_spelled : Machine :=
  Eval vm_compute in mount (result_of spelled).
Definition m_spelled_playing : Machine :=
  Eval vm_compute in rerender m_spelled (play m_spelled).

(** The longer slideshow, playing at 2x speed, after a click on the chip of
    its last sign. *)
Definition m_spelled_last : Machine :=
  Eval vm_compute in
    let m := rerender m_spelled_playing (setSpeed 400 m_spelled_playing) in
    rerender m (goToSign 5 m).

(** The three-sign slideshow after a click on the chip of its letter. *)
Definition m_three_letter : Machine :=
  Eval vm_compute in rerender m_three (goToSign 2 m_three).

(** * Properties *)

(** ** Arithmetic of the comparisons *)

Ltac zbool :=
  repeat match goal with
  | |- context [ (?a >=? ?b) ] => rewrite (Z.geb_leb a b)
  | |- context [ (?a >? ?b) ] => rewrite (Z.gtb_ltb a b)
  | H : context [ (?a >=? ?b) ] |- _ => rewrite (Z.geb_leb a b) in H
  | H : context [ (?a >? ?b) ] |- _ => rewrite (Z.gtb_ltb a b) in H
  end.

Ltac zcases :=
  zbool;
  repeat match goal with
  | |- context [ (?a <=? ?b) ] => destruct (Z.leb_spec a b)
  | |- context [ (?a <? ?b) ] => destruct (Z.ltb_spec a b)
  | |- context [ (?a =? ?b) ] => destruct (Z.eqb_spec a b)
  end.

Lemma len_nonneg (sg : list SignToken) : 0 <= len sg.
Proof. unfold len; lia. Qed.

Lemma sign_at_in_range (sg : list SignToken) (i : Z) :
  0 <= i < len sg -> exists s, sign_at sg i = Some s.
Proof.
  intros Hi. unfold sign_at.
  destruct (Z.ltb_spec i 0); [lia|].
  destruct (nth_error sg (Z.to_nat i)) eqn:E; [eauto|].
  apply nth_error_None in E. unfold len in Hi. lia.
Qed.

Lemma sign_at_range (sg : list SignToken) (i : Z) (s : SignToken) :
  sign_at sg i = Some s -> 0 <= i < len sg.
Proof.
  unfold sign_at. destruct (Z.ltb_spec i 0); [discriminate|].
  intros E. assert (Hn : nth_error sg (Z.to_nat i) <> None) by congruence.
  apply nth_error_Some in Hn. unfold len. lia.
Qed.

Lemma visual_range (sg : list SignToken) (i : Z) :
  visual sg i = true -> 0 <= i < len sg.
Proof.
  unfold visual. destruct (sign_at sg i) eqn:E; [|discriminate].
  intros _. eapply sign_at_range; eauto.
Qed.

Lemma type_is_space_in_range (sg : list SignToken) (i : Z) :
  0 <= i < len sg -> type_is_space sg i = Ok (negb (visual sg i)).
Proof.
  intros Hi. destruct (sign_at_in_range sg i Hi) as [s Hs].
  unfold type_is_space, visual. rewrite Hs. now rewrite negb_involutive.
Qed.

Lemma type_is_space_negative (sg : list SignToken) (i : Z) :
  i < 0 -> type_is_space sg i = TypeError.
Proof.
  intros Hi. unfold type_is_space, sign_at.
  destruct (Z.ltb_spec i 0); [reflexivity|lia].
Qed.

Lemma type_is_space_beyond (sg : list SignToken) (i : Z) :
  len sg <= i -> type_is_space sg i = TypeError.
Proof.
  intros Hi. unfold type_is_space.
  destruct (sign_at sg i) eqn:E; [|reflexivity].
  apply sign_at_range in E. lia.
Qed.

Lemma head_okb_spec (sg : list SignToken) : head_okb sg = true <-> head_ok sg.
Proof.
  unfold head_ok, head_okb, visual, sign_at. destruct sg as [|s sg]; simpl.
  - split; auto.
  - split; [auto|]. intros [H|H]; [discriminate|assumption].
Qed.

(** ** The loops terminate within their fuel and find what they look for *)

Lemma skip_forward_fuel (fuel : nat) (sg : list SignToken) (next : Z) :
  0 <= next -> (Z.to_nat (len sg - next) < fuel)%nat ->
  exists r, skip_forward fuel sg next = Ok r
    /\ next <= r
    /\ (r <= len sg \/ r = next)
    /\ (forall j, next <= j < r -> visual sg j = false)
    /\ (r < len sg -> visual sg r = true).
Proof.
  revert next. induction fuel as [|fuel IH]; intros next H0 Hf; [lia|].
  simpl. destruct (Z.ltb_spec next (len sg)) as [Hlt|Hge].
  - rewrite type_is_space_in_range by lia. simpl.
    destruct (visual sg next) eqn:Hv; simpl.
    + exists next. repeat split; try lia. auto.
    + destruct (IH (next + 1)) as (r & Hr & Hle & Hb & Hsp & Hvis); try lia.
      exists r. rewrite Hr. repeat split; try lia; auto.
      intros j Hj. destruct (Z.eq_dec j next) as [->|Hne]; [assumption|].
      apply Hsp. lia.
  - exists next. repeat split; try lia.
Qed.

Lemma skip_forward_negative (fuel : nat) (sg : list SignToken) (next : Z) :
  next < 0 -> skip_forward (S fuel) sg next = TypeError.
Proof.
  intros Hn. simpl. pose proof (len_nonneg sg).
  destruct (Z.ltb_spec next (len sg)); [|lia].
  now rewrite type_is_space_negative.
Qed.

Lemma skip_backward_fuel (fuel : nat) (sg : list SignToken) (next : Z) :
  next < len sg -> (Z.to_nat next < fuel)%nat ->
  exists r, skip_backward fuel sg next = Ok r
    /\ r <= next
    /\ (0 <= r \/ r = next)
    /\ (forall j, r < j <= next -> visual sg j = false)
    /\ (0 < r -> visual sg r = true).
Proof.
  revert next. induction fuel as [|fuel IH]; intros next Hl Hf; [lia|].
  simpl. rewrite Z.gtb_ltb. destruct (Z.ltb_spec 0 next) as [Hpos|Hle].
  - rewrite type_is_space_in_range by lia. simpl.
    destruct (visual sg next) eqn:Hv; simpl.
    + exists next. repeat split; try lia. auto.
    + destruct (IH (next - 1)) as (r & Hr & Hle & Hb & Hsp & Hvis); try lia.
      exists r. rewrite Hr. repeat split; try lia; auto.
      intros j Hj. destruct (Z.eq_dec j next) as [->|Hne]; [assumption|].
      apply Hsp. lia.
  - exists next. repeat split; try lia.
Qed.

Lemma skip_backward_beyond (fuel : nat) (sg : list SignToken) (next : Z) :
  0 < next -> len sg <= next -> skip_backward (S fuel) sg next = TypeError.
Proof.
  intros Hp Hn. simpl. rewrite Z.gtb_ltb.
  destruct (Z.ltb_spec 0 next); [|lia].
  now rewrite type_is_space_beyond.
Qed.

(** ** What the updaters compute *)

Lemma scan_from (sg : list SignToken) (prev : Z) :
  -1 <= prev ->
  exists r, skip_forward (forward_fuel sg (prev + 1)) sg (prev + 1) = Ok r
    /\ prev < r
    /\ (r <= len sg \/ r = prev + 1)
    /\ (forall j, prev < j < r -> visual sg j = false)
    /\ (r < len sg -> visual sg r = true).
Proof.
  intros Hp.
  destruct (skip_forward_fuel (forward_fuel sg (prev + 1)) sg (prev + 1))
    as (r & Hr & Hle & Hb & Hsp & Hvis); [lia|unfold forward_fuel; lia|].
  exists r. repeat split; try lia; auto.
  intros j Hj. apply Hsp. lia.
Qed.

Lemma no_visual_beyond (sg : list SignToken) (j : Z) :
  len sg <= j -> visual sg j = false.
Proof.
  intros Hj. destruct (visual sg j) eqn:E; [|reflexivity].
  apply visual_range in E. lia.
Qed.

Lemma nextSign_updater_at_end (sg : list SignToken) (prev : Z) :
  len sg - 1 <= prev -> nextSign_updater sg prev = Ok (prev, true).
Proof.
  intros H. unfold nextSign_updater. rewrite Z.geb_leb.
  destruct (Z.leb_spec (len sg - 1) prev); [reflexivity|lia].
Qed.

Lemma nextSign_updater_found (sg : list SignToken) (prev j : Z) :
  -1 <= prev -> prev < j -> visual sg j = true ->
  (forall k, prev < k < j -> visual sg k = false) ->
  nextSign_updater sg prev = Ok (j, false).
Proof.
  intros Hp Hj Hv Hmin. pose proof (visual_range _ _ Hv) as Hr.
  unfold nextSign_updater. rewrite Z.geb_leb.
  destruct (Z.leb_spec (len sg - 1) prev); [lia|].
  destruct (scan_from sg prev Hp) as (r & -> & Hlt & Hb & Hsp & Hvis). simpl.
  assert (r = j).
  { destruct (Z.lt_trichotomy r j) as [Hc|[Hc|Hc]]; [|assumption|].
    - rewrite Hmin in Hvis by lia. specialize (Hvis ltac:(lia)). discriminate.
    - rewrite Hsp in Hv by lia. discriminate. }
  subst r. rewrite Z.geb_leb. destruct (Z.leb_spec (len sg) j); [lia|reflexivity].
Qed.

Lemma nextSign_updater_trailing (sg : list SignToken) (prev : Z) :
  -1 <= prev < len sg - 1 ->
  (forall k, prev < k -> visual sg k = false) ->
  nextSign_updater sg prev = Ok (prev, false).
Proof.
  intros Hp Hnone. unfold nextSign_updater. rewrite Z.geb_leb.
  destruct (Z.leb_spec (len sg - 1) prev); [lia|].
  destruct (scan_from sg prev) as (r & -> & Hlt & Hb & Hsp & Hvis); [lia|]. simpl.
  rewrite Z.geb_leb. destruct (Z.leb_spec (len sg) r); [reflexivity|].
  rewrite Hnone in Hvis by lia. specialize (Hvis ltac:(lia)). discriminate.
Qed.

Lemma tick_updater_found (sg : list SignToken) (prev j : Z) :
  -1 <= prev -> prev < j -> visual sg j = true ->
  (forall k, prev < k < j -> visual sg k = false) ->
  tick_updater sg prev = Ok (j, false).
Proof.
  intros Hp Hj Hv Hmin. pose proof (visual_range _ _ Hv) as Hr.
  unfold tick_updater.
  destruct (scan_from sg prev Hp) as (r & -> & Hlt & Hb & Hsp & Hvis). simpl.
  assert (r = j).
  { destruct (Z.lt_trichotomy r j) as [Hc|[Hc|Hc]]; [|assumption|].
    - rewrite Hmin in Hvis by lia. specialize (Hvis ltac:(lia)). discriminate.
    - rewrite Hsp in Hv by lia. discriminate. }
  subst r. rewrite Z.geb_leb. destruct (Z.leb_spec (len sg) j); [lia|reflexivity].
Qed.

Lemma tick_updater_none (sg : list SignToken) (prev : Z) :
  -1 <= prev ->
  (forall k, prev < k -> visual sg k = false) ->
  tick_updater sg prev = Ok (prev, true).
Proof.
  intros Hp Hnone. unfold tick_updater.
  destruct (scan_from sg prev Hp) as (r & -> & Hlt & Hb & Hsp & Hvis). simpl.
  rewrite Z.geb_leb. destruct (Z.leb_spec (len sg) r); [reflexivity|].
  rewrite Hnone in Hvis by lia. specialize (Hvis ltac:(lia)). discriminate.
Qed.

(** From an index not below -1 the scan either finds the next visual sign
    or establishes that there is none. *)
Lemma next_visual_dec (sg : list SignToken) (prev : Z) :
  -1 <= prev ->
  (exists j, prev < j /\ visual sg j = true
             /\ forall k, prev < k < j -> visual sg k = false)
  \/ (forall k, prev < k -> visual sg k = false).
Proof.
  intros Hp.
  destruct (scan_from sg prev Hp) as (r & _ & Hlt & Hb & Hsp & Hvis).
  destruct (Z.lt_ge_cases r (len sg)) as [Hin|Hout].
  - left. exists r. auto.
  - right. intros k Hk. destruct (Z.lt_ge_cases k r).
    + apply Hsp. lia.
    + apply no_visual_beyond. lia.
Qed.

Lemma prevSign_updater_spec (sg : list SignToken) (prev : Z) :
  prev <= len sg ->
  exists r, prevSign_updater sg prev = Ok r
    /\ 0 <= r
    /\ (prev <= 0 -> r = 0)
    /\ (0 < prev -> r < prev)
    /\ (forall j, r < j < prev -> visual sg j = false)
    /\ (0 < r -> visual sg r = true).
Proof.
  intros Hp. unfold prevSign_updater.
  destruct (Z.leb_spec prev 0) as [Hle|Hgt].
  - exists 0. repeat split; try lia.
  - destruct (skip_backward_fuel (backward_fuel (prev - 1)) sg (prev - 1))
      as (r & Hr & Hle & Hb & Hsp & Hvis); [lia|unfold backward_fuel; lia|].
    exists r. repeat split; try lia; auto.
    intros j Hj. apply Hsp. lia.
Qed.

(** The same from index 1 of any sequence: index 0 is reached without a
    read. *)
Lemma prevSign_updater_ok (sg : list SignToken) (prev : Z) :
  prev <= 1 \/ prev <= len sg ->
  exists r, prevSign_updater sg prev = Ok r
    /\ 0 <= r
    /\ (prev <= 0 -> r = 0)
    /\ (0 < prev -> r < prev)
    /\ (forall j, r < j < prev -> visual sg j = false)
    /\ (0 < r -> visual sg r = true).
Proof.
  intros Hp.
  destruct (Z.le_gt_cases prev (len sg)) as [Hin|Hout];
    [now apply prevSign_updater_spec|].
  pose proof (len_nonneg sg).
  assert (prev = 1) as -> by lia.
  exists 0. split; [reflexivity|]. repeat split; lia.
Qed.

(** The fuel given by the updaters is never used up, on any input: an
    updater returns an index or raises. *)
Lemma nextSign_updater_fuel (sg : list SignToken) (prev : Z) :
  nextSign_updater sg prev <> OutOfFuel.
Proof.
  unfold nextSign_updater. destruct (prev >=? len sg - 1); [discriminate|].
  destruct (Z.le_gt_cases (-1) prev) as [Hp|Hp].
  - destruct (scan_from sg prev Hp) as (r & -> & _). discriminate.
  - unfold forward_fuel. rewrite skip_forward_negative by lia. discriminate.
Qed.

Lemma tick_updater_fuel (sg : list SignToken) (prev : Z) :
  tick_updater sg prev <> OutOfFuel.
Proof.
  unfold tick_updater. destruct (Z.le_gt_cases (-1) prev) as [Hp|Hp].
  - destruct (scan_from sg prev Hp) as (r & -> & _). simpl.
    destruct (r >=? len sg); discriminate.
  - unfold forward_fuel. rewrite skip_forward_negative by lia. discriminate.
Qed.

Lemma prevSign_updater_fuel (sg : list SignToken) (prev : Z) :
  prevSign_updater sg prev <> OutOfFuel.
Proof.
  unfold prevSign_updater. destruct (Z.leb_spec prev 0); [discriminate|].
  destruct (Z.lt_ge_cases (prev - 1) (len sg)) as [Hin|Hout].
  - destruct (skip_backward_fuel (backward_fuel (prev - 1)) sg (prev - 1))
      as (r & -> & _); [lia|unfold backward_fuel; lia|discriminate].
  - destruct (Z.eq_dec prev 1) as [->|Hne]; [discriminate|].
    unfold backward_fuel. rewrite skip_backward_beyond by lia. discriminate.
Qed.

(** ** Frame lemmas: what rendering and the timer table leave alone *)

Lemma clearTimer_state (id : positive) (m : Machine) :
  data (clearTimer id m) = data m
  /\ currentIndex (clearTimer id m) = currentIndex m
  /\ isPlaying (clearTimer id m) = isPlaying m
  /\ speed (clearTimer id m) = speed m.
Proof. repeat split. Qed.

Lemma timer_cleanup_state (m : Machine) :
  data (timer_cleanup m) = data m
  /\ currentIndex (timer_cleanup m) = currentIndex m
  /\ isPlaying (timer_cleanup m) = isPlaying m
  /\ speed (timer_cleanup m) = speed m
  /\ intervalRef (timer_cleanup m) = intervalRef m
  /\ autoStart (timer_cleanup m) = autoStart m.
Proof. unfold timer_cleanup. destruct (intervalRef m) eqn:E; repeat split; auto. Qed.

Lemma timer_effect_state (m : Machine) :
  data (timer_effect m) = data m
  /\ currentIndex (timer_effect m) = currentIndex m
  /\ isPlaying (timer_effect m) = isPlaying m
  /\ speed (timer_effect m) = speed m
  /\ autoStart (timer_effect m) = autoStart m.
Proof.
  unfold timer_effect.
  destruct (isPlaying m && (len (signs_of m) >? 0)); repeat split.
Qed.

Lemma rerender_state (old m : Machine) :
  data (rerender old m) = data m
  /\ currentIndex (rerender old m) = currentIndex m
  /\ isPlaying (rerender old m) = isPlaying m
  /\ speed (rerender old m) = speed m
  /\ autoStart (rerender old m) = autoStart m.
Proof.
  unfold rerender. destruct (timer_deps_changed old m); [|repeat split].
  destruct (timer_effect_state (timer_cleanup m)) as (-> & -> & -> & -> & ->).
  destruct (timer_cleanup_state m) as (-> & -> & -> & -> & _ & ->).
  repeat split.
Qed.

Lemma rerender_signs (old m : Machine) :
  signs_of (rerender old m) = signs_of m.
Proof.
  unfold signs_of. now destruct (rerender_state old m) as (-> & _).
Qed.

Lemma rerender_same (m : Machine) : rerender m m = m.
Proof.
  unfold rerender, timer_deps_changed.
  rewrite Bool.eqb_reflx, !Z.eqb_refl. simpl.
  now destruct (data m).
Qed.

Lemma autoStart_cleanup_state (m : Machine) :
  data (autoStart_cleanup m) = data m
  /\ currentIndex (autoStart_cleanup m) = currentIndex m
  /\ isPlaying (autoStart_cleanup m) = isPlaying m
  /\ speed (autoStart_cleanup m) = speed m
  /\ intervalRef (autoStart_cleanup m) = intervalRef m.
Proof. unfold autoStart_cleanup. destruct (autoStart m); repeat split. Qed.

Lemma autoStart_effect_state (m : Machine) :
  data (autoStart_effect m) = data m
  /\ currentIndex (autoStart_effect m) = currentIndex m
  /\ isPlaying (autoStart_effect m) = isPlaying m
  /\ speed (autoStart_effect m) = speed m
  /\ intervalRef (autoStart_effect m) = intervalRef m.
Proof.
  unfold autoStart_effect.
  destruct (data m) as [r|] eqn:E; [destruct (len (signs r) >? 0)|];
    simpl; rewrite ?E; repeat split.
Qed.

Lemma load_changed_state (d : option TranslationResult) (m : Machine) :
  data (load_changed d m) = d
  /\ currentIndex (load_changed d m) = 0
  /\ isPlaying (load_changed d m) = false
  /\ speed (load_changed d m) = speed m.
Proof.
  unfold load_changed.
  match goal with |- context [rerender ?a ?b] =>
    destruct (rerender_state a b) as (-> & -> & -> & -> & _) end.
  match goal with |- context [autoStart_effect ?a] =>
    destruct (autoStart_effect_state a) as (-> & -> & -> & -> & _) end.
  unfold reset_effect. simpl.
  match goal with |- context [timer_effect ?a] =>
    destruct (timer_effect_state a) as (-> & _ & _ & -> & _) end.
  match goal with |- context [autoStart_cleanup ?a] =>
    destruct (autoStart_cleanup_state a) as (-> & _ & _ & -> & _) end.
  destruct (timer_cleanup_state (set_data d m)) as (-> & _ & _ & -> & _).
  repeat split.
Qed.

Lemma prop_changes_false (m : Machine) (d : option TranslationResult) :
  prop_changes m d = false -> data m = None /\ d = None.
Proof.
  unfold prop_changes. destruct (data m), d; try discriminate. auto.
Qed.

Lemma prop_changes_result (m : Machine) (r : TranslationResult) :
  prop_changes m (Some r) = true.
Proof. unfold prop_changes. now destruct (data m). Qed.

Lemma load_eq_changed (m : Machine) (d : option TranslationResult) :
  prop_changes m d = true -> load d m = load_changed d m.
Proof. unfold load. now intros ->. Qed.

Lemma load_eq_same (m : Machine) (d : option TranslationResult) :
  prop_changes m d = false -> load d m = timer_effect (timer_cleanup m).
Proof. unfold load. now intros ->. Qed.

(** A render with [data] null: the timer effect has nothing to start. *)
Lemma timer_effect_no_result (m : Machine) :
  data m = None -> timer_effect (timer_cleanup m) = timer_cleanup m.
Proof.
  intros Hd. unfold timer_effect, signs_of.
  destruct (timer_cleanup_state m) as (-> & _). rewrite Hd.
  now rewrite andb_false_r.
Qed.

Lemma load_data_speed (d : option TranslationResult) (m : Machine) :
  data (load d m) = d /\ speed (load d m) = speed m.
Proof.
  destruct (prop_changes m d) eqn:E.
  - rewrite (load_eq_changed _ _ E).
    destruct (load_changed_state d m) as (-> & _ & _ & ->). auto.
  - rewrite (load_eq_same _ _ E). destruct (prop_changes_false _ _ E) as [Hd ->].
    rewrite (timer_effect_no_result _ Hd).
    destruct (timer_cleanup_state m) as (-> & _ & _ & -> & _). auto.
Qed.

Lemma load_state (d : option TranslationResult) (m : Machine) :
  prop_changes m d = true ->
  data (load d m) = d
  /\ currentIndex (load d m) = 0
  /\ isPlaying (load d m) = false
  /\ speed (load d m) = speed m.
Proof. intros E. rewrite (load_eq_changed _ _ E). apply load_changed_state. Qed.

(** Rendered again with [data] null, the component keeps its state. *)
Lemma load_same_state (d : option TranslationResult) (m : Machine) :
  prop_changes m d = false ->
  load d m = timer_cleanup m
  /\ data (load d m) = data m
  /\ currentIndex (load d m) = currentIndex m
  /\ isPlaying (load d m) = isPlaying m
  /\ autoStart (load d m) = autoStart m.
Proof.
  intros E. rewrite (load_eq_same _ _ E).
  destruct (prop_changes_false _ _ E) as [Hd _].
  rewrite (timer_effect_no_result _ Hd).
  destruct (timer_cleanup_state m) as (-> & -> & -> & _ & _ & ->).
  repeat split.
Qed.

(** ** The timer table *)

Lemma in_clearTimer (id : positive) (m : Machine) (t : Timer) :
  In t (timers (clearTimer id m)) <-> In t (timers m) /\ timer_id t <> id.
Proof.
  simpl. rewrite filter_In. rewrite negb_true_iff, Pos.eqb_neq. tauto.
Qed.

Lemma find_timer_in (id : positive) (m : Machine) (t : Timer) :
  find_timer id m = Some t -> In t (timers m) /\ timer_id t = id.
Proof.
  unfold find_timer. intros H. apply find_some in H.
  now rewrite Pos.eqb_eq in H.
Qed.

Lemma find_timer_cleared (id : positive) (m : Machine) :
  find_timer id (clearTimer id m) = None.
Proof.
  unfold find_timer. destruct (find _ _) eqn:E; [|reflexivity].
  apply find_some in E. destruct E as [Hin Heq].
  apply in_clearTimer in Hin. apply Pos.eqb_eq in Heq. tauto.
Qed.

Lemma timer_cleanup_no_interval (m : Machine) :
  owns m -> no_interval (timers (timer_cleanup m)).
Proof.
  intros Ho t Hin. destruct t as [id ms cap|]; [exfalso|reflexivity].
  unfold timer_cleanup in Hin. destruct (intervalRef m) as [r|] eqn:Er.
  - apply in_clearTimer in Hin. destruct Hin as [Hin Hne].
    apply Ho in Hin. simpl in Hne. congruence.
  - apply Ho in Hin. congruence.
Qed.

Lemma timer_effect_ok (m : Machine) :
  no_interval (timers m) -> timers_ok (timer_effect m).
Proof.
  intros Hn. unfold timer_effect.
  destruct (isPlaying m && (len (signs_of m) >? 0)) eqn:Ec; simpl.
  - apply andb_true_iff in Ec. destruct Ec as [Hp _].
    split; intros id ms cap Hin; simpl in *;
      apply in_app_or in Hin; destruct Hin as [Hin|[Hin|[]]];
      try (apply Hn in Hin; discriminate); inversion Hin; subst; auto.
  - split; intros id ms cap Hin; apply Hn in Hin; discriminate.
Qed.

(** After any render the table is in order as soon as the handler kept the
    ownership of the intervals, and kept them current where the effect does
    not run again. *)
Lemma rerender_ok (old m : Machine) :
  owns m -> (timer_deps_changed old m = false -> live_ok m) ->
  timers_ok (rerender old m).
Proof.
  intros Ho Hl. unfold rerender.
  destruct (timer_deps_changed old m) eqn:Ed.
  - apply timer_effect_ok, timer_cleanup_no_interval, Ho.
  - split; auto.
Qed.

Lemma deps_unchanged (old m : Machine) :
  timer_deps_changed old m = false ->
  isPlaying m = isPlaying old /\ speed m = speed old.
Proof.
  unfold timer_deps_changed. intros H.
  apply orb_false_iff in H. destruct H as [H _].
  apply orb_false_iff in H. destruct H as [Hp Hs].
  apply negb_false_iff in Hp, Hs.
  apply Bool.eqb_prop in Hp. apply Z.eqb_eq in Hs. auto.
Qed.

(** The usual case: the handler touched no interval except, possibly, to
    clear some, and did not change [data]. *)
Lemma rerender_preserves (old m : Machine) :
  timers_ok old ->
  data m = data old ->
  (forall id ms cap, In (IntervalTimer id ms cap) (timers m) ->
                     In (IntervalTimer id ms cap) (timers old)) ->
  (intervalRef m = intervalRef old
   \/ forall id ms cap, ~ In (IntervalTimer id ms cap) (timers m)) ->
  timers_ok (rerender old m).
Proof.
  intros [Ho Hl] Hd Hsub Href. apply rerender_ok.
  - intros id ms cap Hin. destruct Href as [Href|Hno].
    + rewrite Href. eapply Ho, Hsub, Hin.
    + elim (Hno _ _ _ Hin).
  - intros Hdeps id ms cap Hin. apply deps_unchanged in Hdeps.
    destruct Hdeps as [-> ->]. unfold signs_of. rewrite Hd.
    eapply Hl, Hsub, Hin.
Qed.

Lemma pause_no_interval (m : Machine) :
  owns m -> forall id ms cap, ~ In (IntervalTimer id ms cap) (timers (pause m)).
Proof.
  intros Ho id ms cap Hin. unfold pause in Hin. simpl in Hin.
  destruct (intervalRef m) as [r|] eqn:Er; simpl in Hin.
  - apply filter_In in Hin. destruct Hin as [Hin Hne].
    apply Ho in Hin. simpl in Hne.
    rewrite negb_true_iff, Pos.eqb_neq in Hne. congruence.
  - apply Ho in Hin. congruence.
Qed.

Lemma pause_timers_sub (m : Machine) (t : Timer) :
  In t (timers (pause m)) -> In t (timers m).
Proof.
  unfold pause. simpl. destruct (intervalRef m); simpl; [|auto].
  intros H. apply filter_In in H. tauto.
Qed.

Lemma load_changed_no_interval (d : option TranslationResult) (m : Machine) :
  owns m -> no_interval (timers (load_changed d m)) /\ timers_ok (load_changed d m).
Proof.
  intros Ho. unfold load_changed.
  set (m1 := set_data d m).
  set (m2 := autoStart_cleanup (timer_cleanup m1)).
  set (m4 := autoStart_effect (reset_effect (timer_effect m2))).
  assert (Hn2 : no_interval (timers m2)).
  { assert (Hc : no_interval (timers (timer_cleanup m1)))
      by (apply timer_cleanup_no_interval; exact Ho).
    unfold m2, autoStart_cleanup.
    destruct (autoStart (timer_cleanup m1)); [|exact Hc].
    intros t Hin. simpl in Hin. apply filter_In in Hin. apply Hc. tauto. }
  assert (Hplay : isPlaying m2 = isPlaying m).
  { unfold m2, autoStart_cleanup.
    destruct (timer_cleanup_state m1) as (_ & _ & Hp & _).
    destruct (autoStart (timer_cleanup m1)); simpl; rewrite Hp; reflexivity. }
  assert (Hin4 : forall t, In t (timers m4) -> is_interval t = true ->
                 In t (timers (timer_effect m2))).
  { intros t Hin Hi. unfold m4, autoStart_effect in Hin.
    destruct (data (reset_effect (timer_effect m2))); simpl in Hin; auto.
    destruct (len (signs t0) >? 0); simpl in Hin; auto.
    apply in_app_or in Hin. destruct Hin as [Hin|[<-|[]]]; auto. discriminate. }
  assert (Href4 : intervalRef m4 = intervalRef (timer_effect m2)).
  { unfold m4, autoStart_effect.
    destruct (data (reset_effect (timer_effect m2))); simpl; auto.
    destruct (len (signs t) >? 0); reflexivity. }
  assert (Hplay4 : isPlaying m4 = false).
  { unfold m4, autoStart_effect.
    destruct (data (reset_effect (timer_effect m2))); simpl; auto.
    destruct (len (signs t) >? 0); reflexivity. }
  destruct (timer_effect_ok m2 Hn2) as [Ho3 _].
  assert (Ho4 : owns m4).
  { intros id ms cap Hin. rewrite Href4. eapply Ho3, Hin4; eauto. }
  unfold rerender. destruct (timer_deps_changed m1 m4) eqn:Ed.
  - pose proof (timer_cleanup_no_interval m4 Ho4) as Hc.
    assert (He : timer_effect (timer_cleanup m4) = timer_cleanup m4).
    { unfold timer_effect.
      destruct (timer_cleanup_state m4) as (_ & _ & -> & _).
      now rewrite Hplay4. }
    rewrite He. split; [exact Hc|].
    split; intros id ms cap Hin; apply Hc in Hin; discriminate.
  - apply deps_unchanged in Ed. destruct Ed as [Hp _].
    assert (He : timer_effect m2 = m2).
    { unfold timer_effect. rewrite Hplay.
      change (isPlaying m) with (isPlaying m1). rewrite <- Hp, Hplay4.
      reflexivity. }
    assert (Hn4 : no_interval (timers m4)).
    { intros t Hin. destruct (is_interval t) eqn:Ei; [|reflexivity].
      apply Hin4 in Hin; auto. rewrite He in Hin. apply Hn2 in Hin. congruence. }
    split; [exact Hn4|].
    split; intros id ms cap Hin; apply Hn4 in Hin; discriminate.
Qed.

Lemma load_no_interval (d : option TranslationResult) (m : Machine) :
  owns m -> no_interval (timers (load d m)) /\ timers_ok (load d m).
Proof.
  intros Ho. destruct (prop_changes m d) eqn:E.
  - rewrite (load_eq_changed _ _ E). now apply load_changed_no_interval.
  - destruct (load_same_state _ _ E) as (-> & _).
    pose proof (timer_cleanup_no_interval m Ho) as Hn.
    split; [exact Hn|].
    split; intros id ms cap Hin; apply Hn in Hin; discriminate.
Qed.

(** ** One transition, seen from the state variables *)

Lemma step_Next_ok (m : Machine) (i : Z) (p : bool) :
  nextSign_updater (signs_of m) (currentIndex m) = Ok (i, p) ->
  exists m', step m Next = Ok m'
    /\ data m' = data m /\ currentIndex m' = i
    /\ isPlaying m' = (if p then false else isPlaying m)
    /\ speed m' = speed m.
Proof.
  intros Hu. unfold step, nextSign. rewrite Hu. simpl.
  eexists. split; [reflexivity|].
  match goal with |- context [rerender ?a ?b] =>
    destruct (rerender_state a b) as (-> & -> & -> & -> & _) end.
  destruct p; repeat split.
Qed.

Lemma step_Prev_ok (m : Machine) (i : Z) :
  prevSign_updater (signs_of m) (currentIndex m) = Ok i ->
  exists m', step m Prev = Ok m'
    /\ data m' = data m /\ currentIndex m' = i
    /\ isPlaying m' = isPlaying m /\ speed m' = speed m
    /\ (i = currentIndex m -> m' = m).
Proof.
  intros Hu. unfold step, prevSign. rewrite Hu. simpl.
  eexists. split; [reflexivity|].
  match goal with |- context [rerender ?a ?b] =>
    destruct (rerender_state a b) as (-> & -> & -> & -> & _) end.
  repeat split. intros ->.
  replace (setCurrentIndex (currentIndex m) m) with m by (now destruct m).
  apply rerender_same.
Qed.

Lemma step_Tick_ok (m : Machine) (id id' : positive) (ms : Z)
      (cap : list SignToken) (i : Z) (p : bool) :
  find_timer id m = Some (IntervalTimer id' ms cap) ->
  tick_updater cap (currentIndex m) = Ok (i, p) ->
  exists m', step m (Tick id) = Ok m'
    /\ data m' = data m /\ currentIndex m' = i
    /\ isPlaying m' = (if p then false else isPlaying m)
    /\ speed m' = speed m.
Proof.
  intros Hf Hu. unfold step, interval_callback. rewrite Hf, Hu. simpl.
  destruct p; simpl; (eexists; split; [reflexivity|]);
    match goal with |- context [rerender ?a ?b] =>
      destruct (rerender_state a b) as (-> & -> & -> & -> & _) end.
  - destruct (intervalRef m); repeat split.
  - repeat split.
Qed.

Lemma step_Tick_idle (m : Machine) (id : positive) :
  no_interval (timers m) -> step m (Tick id) = Ok m.
Proof.
  intros Hn. unfold step. destruct (find_timer id m) as [t|] eqn:Ef; [|reflexivity].
  apply find_timer_in in Ef. destruct Ef as [Hin _].
  apply Hn in Hin. destruct t; [discriminate|reflexivity].
Qed.

(** Out of range the scans read [.type] of an undefined element. *)
Lemma step_Next_raises (m : Machine) :
  currentIndex m < -1 -> step m Next = TypeError.
Proof.
  intros Hi. simpl. unfold nextSign, nextSign_updater.
  pose proof (len_nonneg (signs_of m)).
  rewrite Z.geb_leb. destruct (Z.leb_spec (len (signs_of m) - 1) (currentIndex m));
    [lia|].
  unfold forward_fuel. now rewrite skip_forward_negative by lia.
Qed.

Lemma step_Tick_raises (m : Machine) (id id' : positive) (ms : Z)
      (cap : list SignToken) :
  find_timer id m = Some (IntervalTimer id' ms cap) ->
  currentIndex m < -1 -> step m (Tick id) = TypeError.
Proof.
  intros Hf Hi. simpl. rewrite Hf. unfold interval_callback, tick_updater.
  unfold forward_fuel. now rewrite skip_forward_negative by lia.
Qed.

Lemma step_Prev_raises (m : Machine) :
  1 < currentIndex m -> len (signs_of m) < currentIndex m ->
  step m Prev = TypeError.
Proof.
  intros H1 Hl. simpl. unfold prevSign, prevSign_updater.
  destruct (Z.leb_spec (currentIndex m) 0); [lia|].
  unfold backward_fuel. now rewrite skip_backward_beyond by lia.
Qed.

(** No transition runs out of fuel. *)
Lemma step_fuel (m : Machine) (e : Event) : step m e <> OutOfFuel.
Proof.
  destruct e; simpl; try discriminate.
  - unfold nextSign.
    pose proof (nextSign_updater_fuel (signs_of m) (currentIndex m)).
    destruct (nextSign_updater _ _); simpl; congruence.
  - unfold prevSign.
    pose proof (prevSign_updater_fuel (signs_of m) (currentIndex m)).
    destruct (prevSign_updater _ _); simpl; congruence.
  - destruct (find_timer id m) as [[id' ms cap|]|]; try discriminate.
    unfold interval_callback.
    pose proof (tick_updater_fuel cap (currentIndex m)).
    destruct (tick_updater _ _) as [[i p]| |]; simpl; try congruence.
    destruct p; discriminate.
  - destruct (find_timer id m) as [[|]|]; discriminate.
Qed.

(** ** The timer table stays in order along every transition *)

Lemma timers_ok_sub (m m' : Machine) :
  timers_ok m ->
  data m' = data m -> isPlaying m' = isPlaying m -> speed m' = speed m ->
  intervalRef m' = intervalRef m ->
  (forall t, In t (timers m') -> In t (timers m)) ->
  timers_ok m'.
Proof.
  intros [Ho Hl] Hd Hp Hs Hr Hsub. split; intros id ms cap Hin.
  - rewrite Hr. eapply Ho, Hsub, Hin.
  - unfold signs_of. rewrite Hd, Hp, Hs. eapply Hl, Hsub, Hin.
Qed.

Lemma step_timers_ok (m : Machine) (e : Event) (m' : Machine) :
  timers_ok m -> step m e = Ok m' -> timers_ok m'.
Proof.
  intros Hok Hs. pose proof Hok as [Ho Hl].
  destruct e; simpl in Hs.
  - (* Play *) injection Hs as <-. apply rerender_preserves; auto.
  - (* Pause *) injection Hs as <-. apply rerender_preserves; auto.
    + unfold pause. simpl. destruct (intervalRef m); reflexivity.
    + intros id ms cap Hin. eapply pause_timers_sub, Hin.
    + right. apply pause_no_interval, Ho.
  - (* Next *) unfold nextSign in Hs.
    destruct (nextSign_updater _ _) as [[i p]| |]; simpl in Hs; try discriminate.
    injection Hs as <-. apply rerender_preserves; auto; destruct p; auto.
  - (* Prev *) unfold prevSign in Hs.
    destruct (prevSign_updater _ _) as [i| |]; simpl in Hs; try discriminate.
    injection Hs as <-. apply rerender_preserves; auto.
  - (* Replay *) injection Hs as <-. apply rerender_preserves; auto.
    + unfold replay, pause. simpl. destruct (intervalRef m); reflexivity.
    + intros id ms cap Hin. exfalso. unfold replay in Hin. simpl in Hin.
      apply in_app_or in Hin. destruct Hin as [Hin|[Hin|[]]]; [|discriminate].
      change (In (IntervalTimer id ms cap) (timers (pause m))) in Hin.
      eapply pause_no_interval; eauto.
    + right. intros id ms cap Hin. unfold replay in Hin. simpl in Hin.
      apply in_app_or in Hin. destruct Hin as [Hin|[Hin|[]]]; [|discriminate].
      change (In (IntervalTimer id ms cap) (timers (pause m))) in Hin.
      eapply pause_no_interval; eauto.
  - (* Seek *) injection Hs as <-. apply rerender_preserves; auto.
  - (* SetSpeed *) injection Hs as <-. apply rerender_preserves; auto.
  - (* Load *) injection Hs as <-. apply load_no_interval, Ho.
  - (* Tick *)
    destruct (find_timer id m) as [[id' ms cap|]|] eqn:Ef;
      try (injection Hs as <-; assumption).
    unfold interval_callback in Hs.
    destruct (tick_updater cap (currentIndex m)) as [[i p]| |];
      simpl in Hs; try discriminate.
    destruct p; simpl in Hs; injection Hs as <-; [|apply rerender_preserves; auto].
    destruct (intervalRef m) as [r|] eqn:Er;
      apply rerender_preserves; simpl; auto.
    intros id0 ms0 cap0 Hin. apply filter_In in Hin. tauto.
  - (* Fire *)
    destruct (find_timer id m) as [[|id' ms]|] eqn:Ef;
      try (injection Hs as <-; assumption).
    injection Hs as <-.
    assert (Hc : timers_ok (clearTimer id m)).
    { apply (timers_ok_sub m); auto. intros t Hin.
      apply in_clearTimer in Hin. tauto. }
    apply rerender_preserves; auto.
Qed.

Lemma mount_eq (d : option TranslationResult) :
  mount d = autoStart_effect (initial d).
Proof.
  unfold mount, autoStart_effect, initial. simpl.
  destruct d as [r|]; [|reflexivity]. simpl.
  destruct (len (signs r) >? 0); reflexivity.
Qed.

Lemma mount_timers_ok (d : option TranslationResult) : timers_ok (mount d).
Proof.
  rewrite mount_eq. unfold autoStart_effect, initial. simpl.
  split; intros id ms cap Hin; destruct d as [r|]; simpl in Hin; try tauto;
    destruct (len (signs r) >? 0); simpl in Hin;
    try tauto; destruct Hin as [Hin|[]]; discriminate.
Qed.

Lemma run_timers_ok (es : list Event) (m m' : Machine) :
  timers_ok m -> run m es = Ok m' -> timers_ok m'.
Proof.
  revert m. induction es as [|e es IH]; intros m Hok Hr; simpl in Hr.
  - now injection Hr as <-.
  - destruct (step m e) as [m1| |] eqn:Es; simpl in Hr; try discriminate.
    eapply IH; [eapply step_timers_ok; eauto|exact Hr].
Qed.

(** ** Timer ids stay fresh *)

Lemma ids_fresh_clear (id : positive) (m : Machine) :
  ids_fresh m -> ids_fresh (clearTimer id m).
Proof.
  intros (Ht & Hr & Ha). repeat split; simpl; auto.
  intros t Hin. apply filter_In in Hin. apply Ht. tauto.
Qed.

Lemma ids_fresh_add (mk : positive -> Timer) (m : Machine) :
  (forall id, timer_id (mk id) = id) ->
  ids_fresh m -> ids_fresh (snd (addTimer mk m)).
Proof.
  intros Hmk (Ht & Hr & Ha). repeat split; simpl.
  - intros t Hin. apply in_app_or in Hin. destruct Hin as [Hin|[<-|[]]].
    + apply Ht in Hin. lia.
    + rewrite Hmk. lia.
  - intros r E. apply Hr in E. lia.
  - intros t E. apply Ha in E. lia.
Qed.

Lemma ids_fresh_state (m m' : Machine) :
  ids_fresh m ->
  timers m' = timers m -> nextTimer m' = nextTimer m ->
  (intervalRef m' = intervalRef m \/ intervalRef m' = None) ->
  (autoStart m' = autoStart m \/ autoStart m' = None) ->
  ids_fresh m'.
Proof.
  intros (Ht & Hr & Ha) Et En Er Ea. unfold ids_fresh. rewrite Et, En.
  repeat split; auto.
  - intros r E. destruct Er as [Er|Er]; rewrite Er in E; [auto|discriminate].
  - intros t E. destruct Ea as [Ea|Ea]; rewrite Ea in E; [auto|discriminate].
Qed.

Lemma ids_fresh_timer_cleanup (m : Machine) :
  ids_fresh m -> ids_fresh (timer_cleanup m).
Proof.
  intros H. unfold timer_cleanup. destruct (intervalRef m); [|assumption].
  now apply ids_fresh_clear.
Qed.

Lemma ids_fresh_timer_effect (m : Machine) :
  ids_fresh m -> ids_fresh (timer_effect m).
Proof.
  intros H. unfold timer_effect.
  destruct (isPlaying m && (len (signs_of m) >? 0)); [|assumption].
  pose proof (ids_fresh_add
    (fun id => IntervalTimer id (speed m) (signs_of m)) m
    (fun _ => eq_refl) H) as (Ht & Hr & Ha).
  repeat split; auto. simpl. intros r E. injection E as <-. lia.
Qed.

Lemma ids_fresh_rerender (old m : Machine) :
  ids_fresh m -> ids_fresh (rerender old m).
Proof.
  intros H. unfold rerender. destruct (timer_deps_changed old m); [|assumption].
  now apply ids_fresh_timer_effect, ids_fresh_timer_cleanup.
Qed.

Lemma ids_fresh_pause (m : Machine) : ids_fresh m -> ids_fresh (pause m).
Proof.
  intros H. unfold pause. simpl. destruct (intervalRef m) as [r|] eqn:Er.
  - apply (ids_fresh_state (clearTimer r m)); simpl; auto using ids_fresh_clear.
  - apply (ids_fresh_state m); simpl; auto.
Qed.

Lemma ids_fresh_autoStart_cleanup (m : Machine) :
  ids_fresh m -> ids_fresh (autoStart_cleanup m).
Proof.
  intros H. unfold autoStart_cleanup. destruct (autoStart m) as [t|]; [|assumption].
  apply (ids_fresh_state (clearTimer t m)); simpl; auto using ids_fresh_clear.
Qed.

Lemma ids_fresh_autoStart_effect (m : Machine) :
  ids_fresh m -> ids_fresh (autoStart_effect m).
Proof.
  intros H. unfold autoStart_effect.
  assert (Hn : ids_fresh (set_autoStart None m))
    by (apply (ids_fresh_state m); simpl; auto).
  destruct (data m) as [r|]; [|assumption].
  destruct (len (signs r) >? 0); [|assumption].
  pose proof (ids_fresh_add (fun id => PlayTimeout id 500) m
    (fun _ => eq_refl) H) as (Ht & Hr & Ha).
  repeat split; auto. simpl. intros t E. injection E as <-. lia.
Qed.

Lemma ids_fresh_load_changed (d : option TranslationResult) (m : Machine) :
  ids_fresh m -> ids_fresh (load_changed d m).
Proof.
  intros H. unfold load_changed.
  apply ids_fresh_rerender, ids_fresh_autoStart_effect.
  apply (ids_fresh_state
           (timer_effect (autoStart_cleanup (timer_cleanup (set_data d m)))));
    simpl; auto.
  apply ids_fresh_timer_effect, ids_fresh_autoStart_cleanup,
    ids_fresh_timer_cleanup.
  apply (ids_fresh_state m); simpl; auto.
Qed.

Lemma ids_fresh_load (d : option TranslationResult) (m : Machine) :
  ids_fresh m -> ids_fresh (load d m).
Proof.
  intros H. unfold load. destruct (prop_changes m d).
  - now apply ids_fresh_load_changed.
  - now apply ids_fresh_timer_effect, ids_fresh_timer_cleanup.
Qed.

Lemma step_ids_fresh (m : Machine) (e : Event) (m' : Machine) :
  ids_fresh m -> step m e = Ok m' -> ids_fresh m'.
Proof.
  intros H Hs. destruct e; simpl in Hs.
  - injection Hs as <-. apply ids_fresh_rerender.
    apply (ids_fresh_state m); simpl; auto.
  - injection Hs as <-. now apply ids_fresh_rerender, ids_fresh_pause.
  - unfold nextSign in Hs.
    destruct (nextSign_updater _ _) as [[i p]| |]; simpl in Hs; try discriminate.
    injection Hs as <-. apply ids_fresh_rerender.
    apply (ids_fresh_state m); destruct p; simpl; auto.
  - unfold prevSign in Hs.
    destruct (prevSign_updater _ _) as [i| |]; simpl in Hs; try discriminate.
    injection Hs as <-. apply ids_fresh_rerender.
    apply (ids_fresh_state m); simpl; auto.
  - injection Hs as <-. apply ids_fresh_rerender. unfold replay.
    apply ids_fresh_add; [reflexivity|].
    apply (ids_fresh_state (pause m)); simpl; auto using ids_fresh_pause.
  - injection Hs as <-. apply ids_fresh_rerender.
    apply (ids_fresh_state m); simpl; auto.
  - injection Hs as <-. apply ids_fresh_rerender.
    apply (ids_fresh_state m); simpl; auto.
  - injection Hs as <-. now apply ids_fresh_load.
  - destruct (find_timer id m) as [[id' ms cap|]|] eqn:Ef;
      try (injection Hs as <-; assumption).
    unfold interval_callback in Hs.
    destruct (tick_updater cap (currentIndex m)) as [[i p]| |];
      simpl in Hs; try discriminate.
    destruct p; simpl in Hs; injection Hs as <-; apply ids_fresh_rerender.
    + destruct (intervalRef m) as [r|] eqn:Er.
      * apply (ids_fresh_state (clearTimer r m)); simpl; auto using ids_fresh_clear.
      * apply (ids_fresh_state m); simpl; auto.
    + apply (ids_fresh_state m); simpl; auto.
  - destruct (find_timer id m) as [[|id' ms]|] eqn:Ef;
      try (injection Hs as <-; assumption).
    injection Hs as <-. apply ids_fresh_rerender.
    apply (ids_fresh_state (clearTimer id m)); simpl; auto using ids_fresh_clear.
Qed.

Lemma mount_ids_fresh (d : option TranslationResult) : ids_fresh (mount d).
Proof.
  rewrite mount_eq. apply ids_fresh_autoStart_effect.
  repeat split; simpl; try tauto; discriminate.
Qed.

(** The auto-start effect leaves a timeout only when there is a result. *)
Lemma autoStart_effect_ok (m : Machine) : autoStart_ok (autoStart_effect m).
Proof.
  unfold autoStart_ok. destruct (autoStart_effect_state m) as (-> & _).
  intros Hd. unfold autoStart_effect. now rewrite Hd.
Qed.

Lemma autoStart_ok_state (m m' : Machine) :
  data m' = data m -> autoStart m' = autoStart m ->
  autoStart_ok m -> autoStart_ok m'.
Proof. unfold autoStart_ok. intros -> ->. auto. Qed.

Lemma autoStart_ok_rerender (old m : Machine) :
  autoStart_ok m -> autoStart_ok (rerender old m).
Proof.
  destruct (rerender_state old m) as (Hd & _ & _ & _ & Ha).
  exact (autoStart_ok_state _ _ Hd Ha).
Qed.

Lemma autoStart_ok_load (d : option TranslationResult) (m : Machine) :
  autoStart_ok m -> autoStart_ok (load d m).
Proof.
  intros H. destruct (prop_changes m d) eqn:E.
  - rewrite (load_eq_changed _ _ E). unfold load_changed.
    apply autoStart_ok_rerender, autoStart_effect_ok.
  - destruct (load_same_state _ _ E) as (_ & Hd & _ & _ & Ha).
    exact (autoStart_ok_state _ _ Hd Ha H).
Qed.

Lemma step_autoStart_ok (m : Machine) (e : Event) (m' : Machine) :
  autoStart_ok m -> step m e = Ok m' -> autoStart_ok m'.
Proof.
  intros H Hs. destruct e; simpl in Hs.
  - injection Hs as <-. now apply autoStart_ok_rerender.
  - injection Hs as <-. apply autoStart_ok_rerender.
    revert H. apply autoStart_ok_state; unfold pause; simpl;
      now destruct (intervalRef m).
  - unfold nextSign in Hs.
    destruct (nextSign_updater _ _) as [[i p]| |]; simpl in Hs; try discriminate.
    injection Hs as <-. apply autoStart_ok_rerender.
    revert H. apply autoStart_ok_state; now destruct p.
  - unfold prevSign in Hs.
    destruct (prevSign_updater _ _) as [i| |]; simpl in Hs; try discriminate.
    injection Hs as <-. now apply autoStart_ok_rerender.
  - injection Hs as <-. apply autoStart_ok_rerender.
    revert H. apply autoStart_ok_state; unfold replay, pause; simpl;
      now destruct (intervalRef m).
  - injection Hs as <-. now apply autoStart_ok_rerender.
  - injection Hs as <-. now apply autoStart_ok_rerender.
  - injection Hs as <-. now apply autoStart_ok_load.
  - destruct (find_timer id m) as [[id' ms cap|]|] eqn:Ef;
      try (injection Hs as <-; assumption).
    unfold interval_callback in Hs.
    destruct (tick_updater cap (currentIndex m)) as [[i p]| |];
      simpl in Hs; try discriminate.
    destruct p; simpl in Hs; injection Hs as <-; apply autoStart_ok_rerender;
      revert H; apply autoStart_ok_state; now destruct (intervalRef m).
  - destruct (find_timer id m) as [[|id' ms]|] eqn:Ef;
      try (injection Hs as <-; assumption).
    injection Hs as <-. now apply autoStart_ok_rerender.
Qed.

Lemma mount_autoStart_ok (d : option TranslationResult) :
  autoStart_ok (mount d).
Proof. unfold mount. apply autoStart_ok_rerender, autoStart_effect_ok. Qed.

Lemma step_consistent (m : Machine) (e : Event) (m' : Machine) :
  consistent m -> step m e = Ok m' -> consistent m'.
Proof.
  intros (Ht & Hf & Ha) Hs. split; [|split];
    [eapply step_timers_ok|eapply step_ids_fresh|eapply step_autoStart_ok];
    eauto.
Qed.

Lemma mount_consistent (d : option TranslationResult) : consistent (mount d).
Proof.
  split; [apply mount_timers_ok|split];
    [apply mount_ids_fresh|apply mount_autoStart_ok].
Qed.

(** Every machine reached from a mount is consistent. *)
Lemma run_consistent (es : list Event) (m m' : Machine) :
  consistent m -> run m es = Ok m' -> consistent m'.
Proof.
  revert m. induction es as [|e es IH]; intros m Hok Hr; simpl in Hr.
  - now injection Hr as <-.
  - destruct (step m e) as [m1| |] eqn:Es; simpl in Hr; try discriminate.
    eapply IH; [eapply step_consistent; eauto|exact Hr].
Qed.

(** ** The commands *)

Example m_three_play : step m_three Play = Ok m_three_playing.
Proof. reflexivity. Qed.

Example m_trailing_play : step m_trailing Play = Ok m_trailing_playing.
Proof. reflexivity. Qed.

Lemma m_three_consistent : consistent m_three.
Proof. apply (mount_consistent (result_of three_signs)). Qed.

Lemma m_three_playing_consistent : consistent m_three_playing.
Proof. eapply step_consistent; [apply m_three_consistent|apply m_three_play]. Qed.

Lemma step_Seek_ok (m : Machine) (index : Z) :
  exists m', step m (Seek index) = Ok m'
    /\ currentIndex m' = index
    /\ isPlaying m' = isPlaying m
    /\ speed m' = speed m
    /\ data m' = data m.
Proof.
  eexists. split; [reflexivity|].
  destruct (rerender_state m (goToSign index m)) as (-> & -> & -> & -> & _).
  repeat split.
Qed.

(** C5. [seek(index)] sets [currentIndex] to exactly the requested index,
    whatever that index is and whatever sign, visual or Space, is found
    there: in particular a seek onto a Space token stays on it.  Nothing
    else of the playback state changes and the command never fails. *)
Theorem seek_lands_exactly (m : Machine) (index : Z) :
  exists m', step m (Seek index) = Ok m'
    /\ currentIndex m' = index
    /\ isPlaying m' = isPlaying m
    /\ speed m' = speed m
    /\ data m' = data m.
Proof.
  destruct (step_Seek_ok m index) as (m' & Hs & Hi & Hp & Hsp & Hd).
  exists m'. repeat split; auto.
Qed.

Example seek_onto_space :
  exists m', step m_three (Seek 1) = Ok m'
    /\ currentIndex m' = 1 /\ visual (signs_of m') 1 = false.
Proof. eexists. split; [reflexivity|]. split; reflexivity. Qed.

(** The three-sign slideshow at work: [next] and [prev] step over the word
    boundary, and the auto-started playback stops on the last sign. *)
Example next_skips_the_gap :
  exists m', step m_three Next = Ok m' /\ currentIndex m' = 2.
Proof. eexists. split; reflexivity. Qed.

Example prev_skips_the_gap :
  exists m', run m_three [Seek 2; Prev] = Ok m' /\ currentIndex m' = 0.
Proof. eexists. split; reflexivity. Qed.

Example playthrough :
  exists m', run m_three [Fire 1; Tick 2; Tick 2] = Ok m'
    /\ currentIndex m' = 2 /\ isPlaying m' = false /\ timers m' = [].
Proof. eexists. split; [reflexivity|]. split; [reflexivity|]. split; reflexivity. Qed.

(** C7. On a state whose index is at most 1 or at most the length of the
    sequence, [prev] never fails, leaves [isPlaying] (and speed and data)
    alone, and moves [currentIndex] to the largest smaller index that holds
    a visual sign; when there is none it stops at 0.  The index never goes
    below 0, and at index 0 the command changes nothing at all.  On every
    other state, that is with the index above 1 and above the length, the
    scan reads [signs[next].type] of an undefined element and [prev]
    raises. *)
Theorem prev_retreats (m : Machine) :
  (currentIndex m <= 1 \/ currentIndex m <= len (signs_of m) ->
   exists m', step m Prev = Ok m'
     /\ isPlaying m' = isPlaying m /\ speed m' = speed m /\ data m' = data m
     /\ 0 <= currentIndex m'
     /\ (currentIndex m = 0 -> m' = m)
     /\ ((exists j, 0 <= j < currentIndex m /\ visual (signs_of m) j = true) ->
         visual (signs_of m) (currentIndex m') = true
         /\ currentIndex m' < currentIndex m
         /\ forall j, j < currentIndex m -> visual (signs_of m) j = true ->
                      j <= currentIndex m')
     /\ ((forall j, j < currentIndex m -> visual (signs_of m) j = false) ->
         currentIndex m' = 0))
  /\ (1 < currentIndex m -> len (signs_of m) < currentIndex m ->
      step m Prev = TypeError).
Proof.
  split; [|apply step_Prev_raises].
  intros Hr.
  destruct (prevSign_updater_ok (signs_of m) (currentIndex m) Hr)
    as (r & Hu & H0 & Hle & Hlt & Hsp & Hvis).
  destruct (step_Prev_ok m r Hu) as (m' & Hs & Hd & Hi & Hp & Hsd & Hsame).
  exists m'. rewrite Hi. repeat split; auto.
  - intros Hz. apply Hsame. rewrite Hz. apply Hle. lia.
  - destruct H as (j & Hj & Hv).
    destruct (Z.eq_dec r 0) as [->|Hne]; [|apply Hvis; lia].
    destruct (Z.eq_dec j 0) as [->|Hj0]; [assumption|].
    rewrite Hsp in Hv by lia. discriminate.
  - destruct H as (j & Hj & _). apply Hlt. lia.
  - intros j Hj Hv. destruct (Z.le_gt_cases j r); [assumption|].
    rewrite Hsp in Hv by lia. discriminate.
  - intros Hnone. destruct (Z.eq_dec r 0) as [->|Hne]; [reflexivity|].
    destruct (Z.le_gt_cases (currentIndex m) 0) as [Hc|Hc]; [auto|].
    rewrite Hnone in Hvis by lia. specialize (Hvis ltac:(lia)). discriminate.
Qed.

Lemma prev_retreats_witness :
  exists m', step m_spelled_last Prev = Ok m'
    /\ currentIndex m' = 3 /\ isPlaying m' = true.
Proof.
  destruct (proj1 (prev_retreats m_spelled_last))
    as (m' & Hs & Hp & _ & _ & _ & _ & Hfound & _).
  - right. vm_compute. discriminate.
  - exists m'. split; [exact Hs|]. split; [|exact Hp].
    destruct Hfound as (Hv & Hlt & Hmax).
    + exists 3. split; [|reflexivity]. vm_compute.
      split; [discriminate|reflexivity].
    + change (currentIndex m_spelled_last) with 5 in Hlt.
      pose proof (Hmax 3 eq_refl eq_refl) as Hge.
      assert (Hc : currentIndex m' = 3 \/ currentIndex m' = 4) by lia.
      destruct Hc as [Hc|Hc]; [exact Hc|].
      rewrite Hc in Hv. vm_compute in Hv. discriminate.
Defined.

(** C7, as stated for every state, fails: a seek beyond the end of the
    sequence is stored, and from there [prev] raises instead of
    retreating. *)
Lemma prev_raises_beyond_the_end :
  exists m, step m_three (Seek 5) = Ok m
    /\ len (signs_of m) = 3 /\ currentIndex m = 5
    /\ step m Prev = TypeError.
Proof.
  exists (setCurrentIndex 5 m_three).
  split; [reflexivity|]. split; [reflexivity|]. split; reflexivity.
Qed.

(** C10. No transition other than [setSpeed] changes the speed setting.  In
    particular loading a new result (any render in which the [data] prop has
    changed), which resets the index to 0 and [isPlaying] to false, keeps
    the selected speed, and so does replay. *)
Theorem speed_is_kept (m : Machine) (e : Event) :
  is_setSpeed e = false ->
  (forall m', step m e = Ok m' -> speed m' = speed m)
  /\ (forall d, prop_changes m d = true ->
        exists m', step m (Load d) = Ok m'
          /\ currentIndex m' = 0 /\ isPlaying m' = false
          /\ speed m' = speed m)
  /\ (exists m', step m Replay = Ok m' /\ speed m' = speed m).
Proof.
  intros He. split; [|split].
  - intros m' Hs. destruct e; simpl in Hs; try discriminate He.
    + injection Hs as <-. now destruct (rerender_state m (play m)) as (_ & _ & _ & -> & _).
    + injection Hs as <-.
      destruct (rerender_state m (pause m)) as (_ & _ & _ & -> & _).
      unfold pause. simpl. destruct (intervalRef m); reflexivity.
    + unfold nextSign in Hs.
      destruct (nextSign_updater _ _) as [[i p]| |] eqn:Hu; simpl in Hs; try discriminate.
      destruct (step_Next_ok m i p Hu) as (m1 & Hs1 & _ & _ & _ & Hsp).
      simpl in Hs1. unfold nextSign in Hs1. rewrite Hu in Hs1. simpl in Hs1.
      congruence.
    + unfold prevSign in Hs.
      destruct (prevSign_updater _ _) as [i| |] eqn:Hu; simpl in Hs; try discriminate.
      injection Hs as <-.
      now destruct (rerender_state m (setCurrentIndex i m)) as (_ & _ & _ & -> & _).
    + injection Hs as <-.
      destruct (rerender_state m (replay m)) as (_ & _ & _ & -> & _).
      unfold replay, pause. simpl. destruct (intervalRef m); reflexivity.
    + injection Hs as <-.
      now destruct (rerender_state m (goToSign index m)) as (_ & _ & _ & -> & _).
    + injection Hs as <-. apply load_data_speed.
    + destruct (find_timer id m) as [[id' ms cap|]|] eqn:Ef;
        try (injection Hs as <-; reflexivity).
      destruct (interval_callback cap m) as [m1| |] eqn:Ec; simpl in Hs; try discriminate.
      unfold interval_callback in Ec.
      destruct (tick_updater cap (currentIndex m)) as [[i p]| |] eqn:Hu;
        simpl in Ec; try discriminate.
      destruct (step_Tick_ok m id id' ms cap i p Ef Hu) as (m2 & Hs2 & _ & _ & _ & Hsp).
      simpl in Hs2. rewrite Ef in Hs2. unfold interval_callback in Hs2.
      rewrite Hu in Hs2. simpl in Hs2.
      destruct p; simpl in Ec, Hs2; injection Ec as <-; congruence.
    + destruct (find_timer id m) as [[|id' ms]|] eqn:Ef;
        try (injection Hs as <-; reflexivity).
      injection Hs as <-.
      now destruct (rerender_state (clearTimer id m) (play (clearTimer id m)))
        as (_ & _ & _ & -> & _).
  - intros d Hch. exists (load d m). split; [reflexivity|].
    destruct (load_state d m Hch) as (_ & -> & -> & ->). repeat split.
  - eexists. split; [reflexivity|].
    destruct (rerender_state m (replay m)) as (_ & _ & _ & -> & _).
    unfold replay, pause. simpl. destruct (intervalRef m); reflexivity.
Qed.

Lemma speed_is_kept_witness :
  currentIndex m_spelled_last = 5 /\ isPlaying m_spelled_last = true
  /\ exists m', step m_spelled_last (Load (result_of trailing_gap)) = Ok m'
       /\ currentIndex m' = 0 /\ isPlaying m' = false /\ speed m' = 400.
Proof.
  split; [reflexivity|]. split; [reflexivity|].
  destruct (speed_is_kept m_spelled_last Replay eq_refl) as (_ & Hload & _).
  destruct (Hload (result_of trailing_gap) eq_refl)
    as (m' & Hs & Hi & Hp & Hsp).
  exists m'. split; [exact Hs|]. split; [exact Hi|]. split; [exact Hp|].
  exact Hsp.
Defined.

(** What [next] does from any index not below -1. *)
Lemma next_spec (m : Machine) :
  -1 <= currentIndex m ->
  exists m', step m Next = Ok m'
    /\ data m' = data m /\ speed m' = speed m
    /\ (forall j, currentIndex m < j -> visual (signs_of m) j = true ->
          (forall k, currentIndex m < k < j -> visual (signs_of m) k = false) ->
          currentIndex m' = j /\ isPlaying m' = isPlaying m)
    /\ ((forall k, currentIndex m < k -> visual (signs_of m) k = false) ->
          currentIndex m' = currentIndex m
          /\ (len (signs_of m) - 1 <= currentIndex m -> isPlaying m' = false)
          /\ (currentIndex m < len (signs_of m) - 1 ->
              isPlaying m' = isPlaying m)).
Proof.
  intros Hp.
  destruct (next_visual_dec (signs_of m) (currentIndex m) Hp)
    as [(j & Hj & Hv & Hmin)|Hnone].
  - pose proof (nextSign_updater_found _ _ j Hp Hj Hv Hmin) as Hu.
    destruct (step_Next_ok m j false Hu) as (m' & Hs & Hd & Hi & Hpl & Hsp).
    exists m'. split; [exact Hs|]. split; [exact Hd|]. split; [exact Hsp|]. split.
    + intros j' Hj' Hv' Hmin'. split; [|exact Hpl]. rewrite Hi.
      destruct (Z.lt_trichotomy j j') as [Hc|[Hc|Hc]]; [|assumption|].
      * rewrite Hmin' in Hv by lia. discriminate.
      * rewrite Hmin in Hv' by lia. discriminate.
    + intros Hnone. rewrite Hnone in Hv by lia. discriminate.
  - destruct (Z.le_gt_cases (len (signs_of m) - 1) (currentIndex m)) as [Hend|Hin].
    + pose proof (nextSign_updater_at_end _ _ Hend) as Hu.
      destruct (step_Next_ok m _ true Hu) as (m' & Hs & Hd & Hi & Hpl & Hsp).
      exists m'. split; [exact Hs|]. split; [exact Hd|]. split; [exact Hsp|]. split.
      * intros j Hj Hv. rewrite Hnone in Hv by assumption. discriminate.
      * intros _. split; [exact Hi|]. split; [intros _; exact Hpl|lia].
    + pose proof (nextSign_updater_trailing _ _ (conj Hp Hin) Hnone) as Hu.
      destruct (step_Next_ok m _ false Hu) as (m' & Hs & Hd & Hi & Hpl & Hsp).
      exists m'. split; [exact Hs|]. split; [exact Hd|]. split; [exact Hsp|]. split.
      * intros j Hj Hv. rewrite Hnone in Hv by assumption. discriminate.
      * intros _. split; [exact Hi|]. split; [lia|intros _; exact Hpl].
Qed.

(** What a tick of a live interval does. *)
Lemma tick_spec (m : Machine) (id id' : positive) (ms : Z) :
  find_timer id m = Some (IntervalTimer id' ms (signs_of m)) ->
  -1 <= currentIndex m ->
  exists m', step m (Tick id) = Ok m'
    /\ data m' = data m /\ speed m' = speed m
    /\ (forall j, currentIndex m < j -> visual (signs_of m) j = true ->
          (forall k, currentIndex m < k < j -> visual (signs_of m) k = false) ->
          currentIndex m' = j /\ isPlaying m' = isPlaying m)
    /\ ((forall k, currentIndex m < k -> visual (signs_of m) k = false) ->
          currentIndex m' = currentIndex m /\ isPlaying m' = false).
Proof.
  intros Hf Hp.
  destruct (next_visual_dec (signs_of m) (currentIndex m) Hp)
    as [(j & Hj & Hv & Hmin)|Hnone].
  - pose proof (tick_updater_found _ _ j Hp Hj Hv Hmin) as Hu.
    destruct (step_Tick_ok m id id' ms _ j false Hf Hu)
      as (m' & Hs & Hd & Hi & Hpl & Hsp).
    exists m'. split; [exact Hs|]. split; [exact Hd|]. split; [exact Hsp|]. split.
    + intros j' Hj' Hv' Hmin'. split; [|exact Hpl]. rewrite Hi.
      destruct (Z.lt_trichotomy j j') as [Hc|[Hc|Hc]]; [|assumption|].
      * rewrite Hmin' in Hv by lia. discriminate.
      * rewrite Hmin in Hv' by lia. discriminate.
    + intros Hnone. rewrite Hnone in Hv by lia. discriminate.
  - pose proof (tick_updater_none _ _ Hp Hnone) as Hu.
    destruct (step_Tick_ok m id id' ms _ _ true Hf Hu)
      as (m' & Hs & Hd & Hi & Hpl & Hsp).
    exists m'. split; [exact Hs|]. split; [exact Hd|]. split; [exact Hsp|]. split.
    + intros j Hj Hv. rewrite Hnone in Hv by assumption. discriminate.
    + intros _. split; [exact Hi|exact Hpl].
Qed.

(** A tick and [next] make the same transition except in one situation:
    the index is before the last one and only Space tokens follow it. *)
Lemma tick_agrees_with_next (m : Machine) (id id' : positive) (ms : Z) :
  find_timer id m = Some (IntervalTimer id' ms (signs_of m)) ->
  -1 <= currentIndex m ->
  (len (signs_of m) - 1 <= currentIndex m
   \/ exists j, currentIndex m < j /\ visual (signs_of m) j = true) ->
  exists m1 m2, step m Next = Ok m1 /\ step m (Tick id) = Ok m2
    /\ currentIndex m1 = currentIndex m2 /\ isPlaying m1 = isPlaying m2.
Proof.
  intros Hf Hp Hcase.
  destruct (next_spec m Hp) as (m1 & Hs1 & _ & _ & Hfound1 & Hnone1).
  destruct (tick_spec m id id' ms Hf Hp) as (m2 & Hs2 & _ & _ & Hfound2 & Hnone2).
  exists m1, m2. split; [exact Hs1|]. split; [exact Hs2|].
  destruct (next_visual_dec (signs_of m) (currentIndex m) Hp)
    as [(j & Hj & Hv & Hmin)|Hnone].
  - destruct (Hfound1 j Hj Hv Hmin) as [-> ->].
    destruct (Hfound2 j Hj Hv Hmin) as [-> ->]. auto.
  - destruct Hcase as [Hend|(j & Hj & Hv)].
    + destruct (Hnone1 Hnone) as (-> & Hp1 & _).
      destruct (Hnone2 Hnone) as (-> & ->). auto.
    + rewrite Hnone in Hv by assumption. discriminate.
Qed.

Lemma trailing_gap_no_visual_after_0 (k : Z) :
  0 < k -> visual trailing_gap k = false.
Proof.
  intros Hk. destruct (Z.eq_dec k 1) as [->|Hne]; [reflexivity|].
  apply no_visual_beyond. unfold len. simpl. lia.
Qed.

(** C2. The tick and [next] are two pieces of code, and they part on a
    sequence that ends with a Space: playing on the first of the two signs
    [A, Space], [next] keeps the index and stays Playing, while the tick of
    the running interval keeps the index and turns to Paused. *)
Theorem tick_is_not_next_before_trailing_space :
  exists m1 m2,
    step m_trailing_playing Next = Ok m1
    /\ step m_trailing_playing (Tick 2%positive) = Ok m2
    /\ (currentIndex m1, isPlaying m1) = (0, true)
    /\ (currentIndex m2, isPlaying m2) = (0, false).
Proof. do 2 eexists. repeat split; reflexivity. Qed.

(** C6. On the playing slideshow [A, Space] at index 0 no visual sign
    follows the index; [next] leaves the index where it is and the machine
    keeps Playing, where the timer tick on the same state pauses it. *)
Theorem next_keeps_playing_before_trailing_space :
  (forall k, 0 < k -> visual (signs_of m_trailing_playing) k = false)
  /\ currentIndex m_trailing_playing = 0
  /\ isPlaying m_trailing_playing = true
  /\ exists m', step m_trailing_playing Next = Ok m'
       /\ currentIndex m' = 0 /\ isPlaying m' = true.
Proof.
  split; [exact trailing_gap_no_visual_after_0|].
  repeat split. eexists. repeat split; reflexivity.
Qed.

(** C4. [seek] never fails, on any state, and stores the requested index as
    it is, so the new index is within the sequence exactly when the request
    was.  [next] never fails when the index is at least -1: it does not
    move the index back, it keeps an index below the length below the
    length, so that an index within the sequence stays within it, and at or
    beyond the last index it leaves the index where it is.  With the index
    below -1 [next] raises. *)
Theorem seek_stores_next_stays_in_range (m : Machine) (index : Z) :
  (exists m1, step m (Seek index) = Ok m1
     /\ currentIndex m1 = index
     /\ (0 <= currentIndex m1 < len (signs_of m1)
         <-> 0 <= index < len (signs_of m)))
  /\ (-1 <= currentIndex m ->
      exists m2, step m Next = Ok m2
        /\ currentIndex m <= currentIndex m2
        /\ (currentIndex m < len (signs_of m) ->
            currentIndex m2 < len (signs_of m2))
        /\ (0 <= currentIndex m < len (signs_of m) ->
            0 <= currentIndex m2 < len (signs_of m2))
        /\ (len (signs_of m) - 1 <= currentIndex m ->
            currentIndex m2 = currentIndex m))
  /\ (currentIndex m < -1 -> step m Next = TypeError).
Proof.
  split; [|split; [|apply step_Next_raises]].
  - destruct (step_Seek_ok m index) as (m1 & Hs & Hi & _ & _ & Hd).
    exists m1. unfold signs_of. rewrite Hi, Hd. tauto.
  - intros Hr.
    destruct (next_spec m Hr) as (m2 & Hs & Hd & _ & Hfound & Hnone).
    exists m2. split; [exact Hs|]. unfold signs_of. rewrite Hd.
    fold (signs_of m).
    destruct (next_visual_dec (signs_of m) (currentIndex m) Hr)
      as [(j & Hj & Hv & Hmin)|Hno].
    + destruct (Hfound j Hj Hv Hmin) as [-> _].
      pose proof (visual_range _ _ Hv).
      split; [lia|]. split; [lia|]. split; lia.
    + destruct (Hnone Hno) as (-> & _).
      split; [lia|]. split; [lia|]. split; [lia|reflexivity].
Qed.

Lemma seek_stores_next_stays_in_range_witness :
  (exists m1, step m_three (Seek 7) = Ok m1 /\ currentIndex m1 = 7)
  /\ (exists m2, step m_spelled_last Next = Ok m2 /\ currentIndex m2 = 5)
  /\ (exists m3, step (mount None) Next = Ok m3 /\ currentIndex m3 = 0).
Proof.
  split; [|split].
  - destruct (seek_stores_next_stays_in_range m_three 7)
      as ((m1 & Hs & Hi & _) & _).
    exists m1. split; [exact Hs|exact Hi].
  - destruct (seek_stores_next_stays_in_range m_spelled_last 0)
      as (_ & Hnext & _).
    destruct Hnext as (m2 & Hs & _ & _ & _ & Hlast).
    + vm_compute. discriminate.
    + exists m2. split; [exact Hs|]. apply Hlast. vm_compute. discriminate.
  - destruct (seek_stores_next_stays_in_range (mount None) 0)
      as (_ & Hnext & _).
    destruct Hnext as (m3 & Hs & _ & _ & _ & Hlast).
    + vm_compute. discriminate.
    + exists m3. split; [exact Hs|]. apply Hlast. vm_compute. discriminate.
Defined.

(** C4, as stated, fails: a seek beyond the bounds is stored, not clamped,
    and from an index stored that way [next] can raise. *)
Lemma seek_is_not_clamped :
  (exists m', step m_three (Seek 7) = Ok m'
     /\ len (signs_of m') = 3
     /\ ~ (0 <= currentIndex m' <= len (signs_of m') - 1))
  /\ run m_three [Seek (-5); Next] = TypeError.
Proof.
  split; [|reflexivity].
  eexists. split; [reflexivity|]. split; [reflexivity|].
  vm_compute. intros [_ H]. apply H. reflexivity.
Qed.

(** ** Loading a result *)

Lemma find_timer_unique (m : Machine) (x : Timer) :
  In x (timers m) ->
  (forall y, In y (timers m) -> timer_id y = timer_id x -> y = x) ->
  find_timer (timer_id x) m = Some x.
Proof.
  unfold find_timer. induction (timers m) as [|a tbl IH]; intros Hin Hu.
  - destruct Hin.
  - simpl. destruct (Pos.eqb_spec (timer_id a) (timer_id x)) as [He|Hne].
    + f_equal. apply Hu; [now left|exact He].
    + apply IH.
      * destruct Hin as [->|Hin]; [congruence|exact Hin].
      * intros y Hy. apply Hu. now right.
Qed.

Lemma find_timer_absent (m : Machine) (id : positive) :
  (forall y, In y (timers m) -> timer_id y <> id) ->
  find_timer id m = None.
Proof.
  intros Hno. unfold find_timer. destruct (find _ _) eqn:E; [|reflexivity].
  apply find_some in E. destruct E as [Hin He]. apply Pos.eqb_eq in He.
  elim (Hno _ Hin He).
Qed.

(** A render of a paused machine creates no timer: it leaves the machine
    as it is, or clears the timer of [intervalRef]. *)
Lemma rerender_paused (old m : Machine) :
  isPlaying m = false ->
  rerender old m = m
  \/ exists r, intervalRef m = Some r /\ rerender old m = clearTimer r m.
Proof.
  intros Hp. unfold rerender. destruct (timer_deps_changed old m); [|now left].
  assert (He : timer_effect (timer_cleanup m) = timer_cleanup m).
  { unfold timer_effect.
    destruct (timer_cleanup_state m) as (_ & _ & -> & _). now rewrite Hp. }
  rewrite He. unfold timer_cleanup.
  destruct (intervalRef m) as [r|]; [right; eauto|now left].
Qed.

Lemma nextTimer_timer_effect (m : Machine) :
  (nextTimer m <= nextTimer (timer_effect m))%positive.
Proof.
  unfold timer_effect. destruct (isPlaying m && (len (signs_of m) >? 0)); simpl; lia.
Qed.

Lemma nextTimer_cleanups (m : Machine) :
  nextTimer (autoStart_cleanup (timer_cleanup m)) = nextTimer m.
Proof.
  unfold autoStart_cleanup, timer_cleanup.
  destruct (intervalRef m); simpl; destruct (autoStart m); reflexivity.
Qed.

Lemma timers_cleanups_sub (m : Machine) (t : Timer) :
  In t (timers (autoStart_cleanup (timer_cleanup m))) -> In t (timers m).
Proof.
  unfold autoStart_cleanup, timer_cleanup.
  destruct (intervalRef m); simpl; destruct (autoStart m); simpl;
    rewrite ?filter_In; tauto.
Qed.

Lemma step_Fire_ok (m : Machine) (t : positive) (ms : Z) :
  find_timer t m = Some (PlayTimeout t ms) ->
  exists m', step m (Fire t) = Ok m'
    /\ isPlaying m' = true /\ currentIndex m' = currentIndex m
    /\ data m' = data m /\ speed m' = speed m.
Proof.
  intros Hf. simpl. rewrite Hf. eexists. split; [reflexivity|].
  destruct (rerender_state (clearTimer t m) (play (clearTimer t m)))
    as (-> & -> & -> & -> & _).
  repeat split.
Qed.

(** Rendered again without a result, a component that has none keeps its
    index and its [isPlaying]: the two effects that depend on [data] do
    not run. *)
Example null_again_keeps_the_state :
  exists m m',
    run (mount None) [Play; Seek 3] = Ok m
    /\ data m = None /\ currentIndex m = 3 /\ isPlaying m = true
    /\ step m (Load None) = Ok m'
    /\ currentIndex m' = 3 /\ isPlaying m' = true.
Proof.
  do 2 eexists. split; [reflexivity|]. split; [reflexivity|].
  split; [reflexivity|]. split; [reflexivity|]. split; [reflexivity|].
  split; reflexivity.
Qed.

(** C3. Loading a new result, that is any render in which the [data] prop
    has changed (a result object, or null in the place of one), never
    fails; it leaves the machine at index 0, Paused, with no interval
    running.  A one-shot timer of 500 ms whose firing turns the machine to
    Playing is scheduled exactly when the result is an object with a
    non-empty [signs] array (whatever the signs are); for null or an empty
    array no timer is added. *)
Theorem load_resets_and_schedules (m : Machine) (d : option TranslationResult) :
  consistent m ->
  prop_changes m d = true ->
  exists m', step m (Load d) = Ok m'
    /\ data m' = d /\ currentIndex m' = 0 /\ isPlaying m' = false
    /\ no_interval (timers m')
    /\ (len (data_signs d) > 0 ->
        exists t, autoStart m' = Some t
          /\ (nextTimer m <= t)%positive
          /\ find_timer t m' = Some (PlayTimeout t 500)
          /\ exists m'', step m' (Fire t) = Ok m''
               /\ isPlaying m'' = true /\ currentIndex m'' = 0)
    /\ (len (data_signs d) = 0 ->
        autoStart m' = None /\ forall t, In t (timers m') -> In t (timers m)).
Proof.
  intros [[Ho Hl] (Hfresh & _)] Hch.
  exists (load d m). split; [reflexivity|].
  rewrite (load_eq_changed _ _ Hch).
  destruct (load_changed_state d m) as (Hd & Hi & Hp & _).
  split; [exact Hd|]. split; [exact Hi|]. split; [exact Hp|].
  split; [apply load_changed_no_interval, Ho|].
  set (m1 := set_data d m).
  set (m2 := autoStart_cleanup (timer_cleanup m1)).
  set (m3 := timer_effect m2).
  set (m4 := autoStart_effect (reset_effect m3)).
  assert (Hload : load_changed d m = rerender m1 m4) by reflexivity.
  assert (Hf3 : ids_fresh m3).
  { apply ids_fresh_timer_effect, ids_fresh_autoStart_cleanup,
      ids_fresh_timer_cleanup.
    apply (ids_fresh_state m); simpl; auto. }
  assert (Hn3 : (nextTimer m <= nextTimer m3)%positive).
  { pose proof (nextTimer_timer_effect m2) as H.
    unfold m2 in H at 1. rewrite nextTimer_cleanups in H. exact H. }
  assert (Hd3 : data (reset_effect m3) = d).
  { change (data m3 = d). unfold m3.
    destruct (timer_effect_state m2) as (-> & _). unfold m2.
    destruct (autoStart_cleanup_state (timer_cleanup m1)) as (-> & _).
    now destruct (timer_cleanup_state m1) as (-> & _). }
  assert (Hp4 : isPlaying m4 = false).
  { unfold m4.
    now destruct (autoStart_effect_state (reset_effect m3)) as (_ & _ & -> & _). }
  assert (Hcases : load_changed d m = m4
           \/ exists r, intervalRef m4 = Some r /\ load_changed d m = clearTimer r m4).
  { rewrite Hload. apply rerender_paused, Hp4. }
  split.
  - intros Hlen. assert (Hrr : exists rr, d = Some rr /\ 0 < len (signs rr)).
    { destruct d as [rr|]; [|cbv in Hlen; discriminate].
      change (len (signs rr) > 0) in Hlen. exists rr. split; [reflexivity|lia]. }
    destruct Hrr as (rr & Ed & Hrr).
    assert (E4 : m4 = set_autoStart (Some (nextTimer m3))
              (snd (addTimer (fun id => PlayTimeout id 500) (reset_effect m3)))).
    { unfold m4, autoStart_effect. rewrite Hd3, Ed.
      rewrite Z.gtb_ltb. destruct (Z.ltb_spec 0 (len (signs rr))); [reflexivity|lia]. }
    set (t := nextTimer m3) in *.
    assert (Hin4 : In (PlayTimeout t 500) (timers m4)).
    { rewrite E4. simpl. apply in_or_app. right. now left. }
    assert (Hu4 : forall y, In y (timers m4) -> timer_id y = t ->
                  y = PlayTimeout t 500).
    { intros y Hy Hid. rewrite E4 in Hy. simpl in Hy.
      apply in_app_or in Hy. destruct Hy as [Hy|[<-|[]]]; [|reflexivity].
      destruct Hf3 as (Ht & _). apply Ht in Hy. fold t in Hy. lia. }
    assert (Hr4 : forall r, intervalRef m4 = Some r -> r <> t).
    { intros r Er. rewrite E4 in Er. simpl in Er.
      destruct Hf3 as (_ & Hr & _). apply Hr in Er. fold t in Er. lia. }
    assert (Hfind : find_timer t (load_changed d m) = Some (PlayTimeout t 500)).
    { destruct Hcases as [->|(r & Er & ->)].
      - apply (find_timer_unique m4 (PlayTimeout t 500)); auto.
      - apply (find_timer_unique (clearTimer r m4) (PlayTimeout t 500)).
        + apply in_clearTimer. split; [exact Hin4|]. simpl.
          intros <-. now apply (Hr4 t).
        + intros y Hy. apply in_clearTimer in Hy. apply Hu4. tauto. }
    exists t. split; [|split; [exact Hn3|split; [exact Hfind|]]].
    + destruct Hcases as [->|(r & _ & ->)]; rewrite E4; reflexivity.
    + destruct (step_Fire_ok _ _ _ Hfind) as (m'' & Hs & Hpl & Hidx & _).
      exists m''. rewrite Hidx, Hi. auto.
  - intros Hlen.
    assert (E3 : m3 = m2).
    { unfold m3, timer_effect.
      assert (Hs2 : signs_of m2 = data_signs d).
      { unfold signs_of, m2.
        destruct (autoStart_cleanup_state (timer_cleanup m1)) as (-> & _).
        now destruct (timer_cleanup_state m1) as (-> & _). }
      rewrite Hs2, Hlen. now rewrite andb_false_r. }
    assert (E4 : m4 = set_autoStart None (reset_effect m3)).
    { unfold m4, autoStart_effect. rewrite Hd3.
      destruct d as [rr|]; [|reflexivity]. simpl in Hlen. now rewrite Hlen. }
    assert (Hsub : forall t, In t (timers m4) -> In t (timers m)).
    { intros t Hin. rewrite E4, E3 in Hin. simpl in Hin.
      apply timers_cleanups_sub in Hin. exact Hin. }
    destruct Hcases as [->|(r & _ & ->)]; (split; [rewrite E4; reflexivity|]).
    + exact Hsub.
    + intros t Hin. apply in_clearTimer in Hin. apply Hsub. tauto.
Qed.

Lemma load_resets_and_schedules_witness :
  exists m', step m_three_playing (Load (result_of trailing_gap)) = Ok m'
    /\ currentIndex m' = 0 /\ isPlaying m' = false
    /\ autoStart m' = Some 4%positive.
Proof.
  destruct (load_resets_and_schedules m_three_playing (result_of trailing_gap)
              m_three_playing_consistent eq_refl)
    as (m' & Hs & _ & Hi & Hp & _ & _ & _).
  exists m'. split; [exact Hs|]. split; [exact Hi|]. split; [exact Hp|].
  simpl in Hs. injection Hs as Hs. rewrite <- Hs. vm_compute. reflexivity.
Defined.

Lemma only_gap_has_no_visual_sign (i : Z) : visual only_gap i = false.
Proof.
  destruct (Z.eq_dec i 0) as [->|Hne]; [reflexivity|].
  destruct (Z.lt_ge_cases i 0) as [Hneg|Hpos].
  - unfold visual, sign_at. destruct (Z.ltb_spec i 0); [reflexivity|lia].
  - apply no_visual_beyond. unfold len. simpl. lia.
Qed.

(** C3, as stated, fails: a result whose signs are all Space tokens has no
    visual sign, and loading it still schedules the auto-start, which then
    turns the machine to Playing. *)
Lemma autostart_without_visual_sign :
  (forall i, visual only_gap i = false)
  /\ exists m' t m'',
       step m_three (Load (result_of only_gap)) = Ok m'
       /\ autoStart m' = Some t
       /\ find_timer t m' = Some (PlayTimeout t 500)
       /\ step m' (Fire t) = Ok m''
       /\ isPlaying m'' = true.
Proof.
  split; [exact only_gap_has_no_visual_sign|].
  set (m' := load (result_of only_gap) m_three).
  exists m', 2%positive,
    (rerender (clearTimer 2 m') (play (clearTimer 2 m'))).
  split; [reflexivity|]. split; [reflexivity|]. split; [reflexivity|].
  split; reflexivity.
Qed.

(** ** Speed changes and cancellation *)

Lemma timers_timer_cleanup (m : Machine) (y : Timer) :
  In y (timers (timer_cleanup m)) ->
  In y (timers m) /\ (forall r, intervalRef m = Some r -> timer_id y <> r).
Proof.
  unfold timer_cleanup. destruct (intervalRef m) as [r|].
  - intros Hin. apply in_clearTimer in Hin. destruct Hin as [Hin Hne].
    split; [exact Hin|]. intros r' E. injection E as <-. exact Hne.
  - intros Hin. split; [exact Hin|]. discriminate.
Qed.

Lemma timers_timer_effect (m : Machine) (y : Timer) :
  In y (timers (timer_effect m)) ->
  In y (timers m)
  \/ (y = IntervalTimer (nextTimer m) (speed m) (signs_of m)
      /\ isPlaying m = true).
Proof.
  unfold timer_effect.
  destruct (isPlaying m) eqn:Ep; simpl; [|now left].
  destruct (len (signs_of m) >? 0); simpl; [|now left].
  intros Hin. apply in_app_or in Hin. destruct Hin as [Hin|[<-|[]]]; auto.
Qed.

Lemma timer_effect_on (m : Machine) :
  isPlaying m = true -> len (signs_of m) > 0 ->
  intervalRef (timer_effect m) = Some (nextTimer m)
  /\ In (IntervalTimer (nextTimer m) (speed m) (signs_of m))
        (timers (timer_effect m)).
Proof.
  intros Hp Hl. unfold timer_effect. rewrite Hp, Z.gtb_ltb.
  destruct (Z.ltb_spec 0 (len (signs_of m))); [|lia]. simpl.
  split; [reflexivity|]. apply in_or_app. right. now left.
Qed.

Lemma paused_no_interval (m : Machine) :
  timers_ok m -> isPlaying m = false -> no_interval (timers m).
Proof.
  intros [_ Hl] Hp t Hin. destruct t as [id ms cap|]; [|reflexivity].
  apply Hl in Hin. destruct Hin as (_ & _ & Hin). congruence.
Qed.





(** Where the timers found after a load come from: they were there before
    and are not the old auto-start timer, or they are new. *)
Lemma load_changed_timers_origin (d : option TranslationResult) (m : Machine) (y : Timer) :
  In y (timers (load_changed d m)) ->
  (In y (timers m) /\ forall t, autoStart m = Some t -> timer_id y <> t)
  \/ (nextTimer m <= timer_id y)%positive.
Proof.
  set (m1 := set_data d m).
  set (m2 := autoStart_cleanup (timer_cleanup m1)).
  set (m3 := timer_effect m2).
  set (m4 := autoStart_effect (reset_effect m3)).
  assert (Hn2 : nextTimer m2 = nextTimer m) by apply (nextTimer_cleanups m1).
  assert (Hn3 : (nextTimer m <= nextTimer m3)%positive).
  { rewrite <- Hn2. apply nextTimer_timer_effect. }
  assert (H2 : forall y, In y (timers m2) ->
            In y (timers m) /\ forall t, autoStart m = Some t -> timer_id y <> t).
  { intros z Hz. split; [apply (timers_cleanups_sub m1), Hz|].
    intros t Et. unfold m2, autoStart_cleanup in Hz.
    destruct (timer_cleanup_state m1) as (_ & _ & _ & _ & _ & Ha).
    change (autoStart m1) with (autoStart m) in Ha. rewrite Ha, Et in Hz.
    apply in_clearTimer in Hz. tauto. }
  assert (H3 : forall y, In y (timers m3) ->
            (In y (timers m) /\ forall t, autoStart m = Some t -> timer_id y <> t)
            \/ (nextTimer m <= timer_id y)%positive).
  { intros z Hz. apply timers_timer_effect in Hz.
    destruct Hz as [Hz|[-> _]]; [left; apply H2, Hz|right].
    simpl. rewrite Hn2. lia. }
  assert (H4 : forall y, In y (timers m4) ->
            (In y (timers m) /\ forall t, autoStart m = Some t -> timer_id y <> t)
            \/ (nextTimer m <= timer_id y)%positive).
  { intros z Hz. unfold m4, autoStart_effect in Hz.
    destruct (data (reset_effect m3)) as [rr|]; [|apply H3, Hz].
    destruct (len (signs rr) >? 0); [|apply H3, Hz].
    simpl in Hz. apply in_app_or in Hz.
    destruct Hz as [Hz|[<-|[]]]; [apply H3, Hz|right]. simpl. exact Hn3. }
  assert (Hp4 : isPlaying m4 = false).
  { unfold m4.
    now destruct (autoStart_effect_state (reset_effect m3)) as (_ & _ & -> & _). }
  intros Hy. change (In y (timers (rerender m1 m4))) in Hy.
  destruct (rerender_paused m1 m4 Hp4) as [E|(r & _ & E)]; rewrite E in Hy.
  - apply H4, Hy.
  - apply in_clearTimer in Hy. apply H4, Hy.
Qed.

Lemma load_timers_origin (d : option TranslationResult) (m : Machine) (y : Timer) :
  autoStart_ok m ->
  In y (timers (load d m)) ->
  (In y (timers m) /\ forall t, autoStart m = Some t -> timer_id y <> t)
  \/ (nextTimer m <= timer_id y)%positive.
Proof.
  intros Hao Hy. destruct (prop_changes m d) eqn:E.
  - rewrite (load_eq_changed _ _ E) in Hy.
    now apply (load_changed_timers_origin d).
  - destruct (load_same_state _ _ E) as (El & _). rewrite El in Hy.
    destruct (prop_changes_false _ _ E) as [Hd _].
    left. split; [apply timers_timer_cleanup in Hy; apply Hy|].
    intros t Et. rewrite (Hao Hd) in Et. discriminate.
Qed.

(** C9. Pause and the loading of a result never fail and leave no interval
    behind, so that no tick, whichever interval it is meant for, changes
    the state afterwards; a load also removes the auto-start timer of the
    result it replaces.  Teardown leaves neither an interval nor the
    auto-start timer in the browser.  And a tick changes the state only
    when it belongs to the interval [intervalRef] points to, which was
    created for the current speed and sign sequence, while Playing. *)
Theorem ticks_stop_at_cancellation (m : Machine) (e : Event) :
  consistent m -> cancels e = true ->
  (exists m', step m e = Ok m'
     /\ no_interval (timers m')
     /\ (forall id, step m' (Tick id) = Ok m')
     /\ (forall d t, e = Load d -> autoStart m = Some t ->
                     step m' (Fire t) = Ok m'))
  /\ (no_interval (unmount m)
      /\ forall t y, autoStart m = Some t -> In y (unmount m) ->
                     timer_id y <> t)
  /\ (forall id m', step m (Tick id) = Ok m' -> m' <> m ->
        intervalRef m = Some id /\ isPlaying m = true
        /\ find_timer id m = Some (IntervalTimer id (speed m) (signs_of m))).
Proof.
  intros Hc He. pose proof Hc as [[Ho Hl] ((Hft & Hfr & Hfa) & Hao)].
  split; [|split].
  - assert (Hstep : exists m', step m e = Ok m' /\ no_interval (timers m')).
    { destruct e; try discriminate He.
      - eexists. split; [reflexivity|].
        apply paused_no_interval.
        + apply (step_timers_ok m Pause); [split; assumption|reflexivity].
        + destruct (rerender_state m (pause m)) as (_ & _ & -> & _).
          unfold pause. simpl. destruct (intervalRef m); reflexivity.
      - exists (load d m). split; [reflexivity|]. apply load_no_interval, Ho. }
    destruct Hstep as (m' & Hs & Hn). exists m'. split; [exact Hs|].
    split; [exact Hn|]. split; [intros id; apply step_Tick_idle, Hn|].
    intros d t -> Et. simpl in Hs. injection Hs as <-.
    assert (Hnone : find_timer t (load d m) = None).
    { apply find_timer_absent. intros y Hy Hid.
      apply (load_timers_origin d m y Hao) in Hy. destruct Hy as [[_ Hy]|Hy].
      - now apply (Hy t).
      - apply Hfa in Et. lia. }
    simpl. now rewrite Hnone.
  - split.
    + intros y Hy. unfold unmount, autoStart_cleanup in Hy.
      apply (timer_cleanup_no_interval m Ho).
      destruct (autoStart (timer_cleanup m)); [|exact Hy].
      apply in_clearTimer in Hy. tauto.
    + intros t y Et Hy Hid. unfold unmount, autoStart_cleanup in Hy.
      destruct (timer_cleanup_state m) as (_ & _ & _ & _ & _ & Ha).
      rewrite Ha, Et in Hy. apply in_clearTimer in Hy. tauto.
  - intros id m' Hs Hne. simpl in Hs.
    destruct (find_timer id m) as [[id' ms cap|]|] eqn:Ef;
      try (injection Hs as <-; congruence).
    destruct (find_timer_in _ _ _ Ef) as [Hin Hid]. simpl in Hid. subst id'.
    destruct (Hl _ _ _ Hin) as (-> & -> & Hp).
    split; [eapply Ho, Hin|]. split; [exact Hp|reflexivity].
Qed.

Lemma ticks_stop_at_cancellation_witness :
  exists m', step m_three_playing Pause = Ok m'
    /\ step m' (Tick 2%positive) = Ok m'.
Proof.
  destruct (ticks_stop_at_cancellation m_three_playing Pause
              m_three_playing_consistent eq_refl)
    as ((m' & Hs & _ & Ht & _) & _).
  exists m'. split; [exact Hs|apply Ht].
Defined.

(** C9, as stated for every timer callback, fails for the one-shot timers:
    the auto-start scheduled at mount fires after a later pause and turns
    the machine to Playing again, and the timer of a replay survives the
    loading of another result and starts the playback of that result. *)
Lemma one_shot_fires_after_cancellation :
  (find_timer 1 m_three = Some (PlayTimeout 1 500)
   /\ exists m1 m2,
        run m_three [Play; Pause] = Ok m1
        /\ isPlaying m1 = false
        /\ step m1 (Fire 1) = Ok m2
        /\ isPlaying m2 = true)
  /\ (exists m1 m2 m3,
        step m_three Replay = Ok m1
        /\ find_timer 2 m1 = Some (PlayTimeout 2 300)
        /\ step m1 (Load (result_of trailing_gap)) = Ok m2
        /\ isPlaying m2 = false
        /\ step m2 (Fire 2) = Ok m3
        /\ isPlaying m3 = true
        /\ data m3 = result_of trailing_gap).
Proof.
  split.
  - split; [reflexivity|].
    set (m1 := rerender m_three_playing (pause m_three_playing)).
    exists m1, (rerender (clearTimer 1 m1) (play (clearTimer 1 m1))).
    split; [reflexivity|]. split; [reflexivity|]. split; reflexivity.
  - set (m1 := rerender m_three (replay m_three)).
    set (m2 := load (result_of trailing_gap) m1).
    exists m1, m2, (rerender (clearTimer 2 m2) (play (clearTimer 2 m2))).
    split; [reflexivity|]. split; [reflexivity|]. split; [reflexivity|].
    split; [reflexivity|]. split; [reflexivity|]. split; reflexivity.
Qed.

(** ** The index invariant *)

Lemma index_ok_lower (m : Machine) :
  index_ok m ->
  0 <= currentIndex m < len (signs_of m)
  \/ (len (signs_of m) = 0 /\ currentIndex m = 0).
Proof.
  intros [Hv|[He Hz]].
  - left. now apply visual_range.
  - right. rewrite He. auto.
Qed.

Lemma index_ok_same (m m' : Machine) :
  data m' = data m -> currentIndex m' = currentIndex m ->
  index_ok m -> index_ok m'.
Proof.
  unfold index_ok, signs_of. intros -> ->. auto.
Qed.

Lemma index_ok_zero (m' : Machine) :
  head_ok (signs_of m') -> currentIndex m' = 0 -> index_ok m'.
Proof.
  unfold index_ok. intros [He|Hv] ->; [right|left]; auto.
Qed.

Lemma step_page_inv (m : Machine) (e : Event) :
  page_inv m -> from_page m e = true ->
  exists m', step m e = Ok m' /\ page_inv m'.
Proof.
  intros (Hok & Hidx & Hhead) Hpage.
  assert (Hgoal : exists m', step m e = Ok m'
            /\ index_ok m' /\ head_ok (signs_of m')).
  { pose proof (index_ok_lower m Hidx) as Hrange.
    destruct e.
    - (* Play *) eexists. split; [reflexivity|].
      destruct (rerender_state m (play m)) as (Hd & Hi & _).
      split; [eapply index_ok_same; eauto|].
      unfold signs_of. rewrite Hd. exact Hhead.
    - (* Pause *) eexists. split; [reflexivity|].
      destruct (rerender_state m (pause m)) as (Hd & Hi & _).
      assert (Hd' : data (pause m) = data m)
        by (unfold pause; simpl; destruct (intervalRef m); reflexivity).
      assert (Hi' : currentIndex (pause m) = currentIndex m)
        by (unfold pause; simpl; destruct (intervalRef m); reflexivity).
      split; [apply (index_ok_same m); [now rewrite Hd|now rewrite Hi|exact Hidx]|].
      unfold signs_of. rewrite Hd, Hd'. exact Hhead.
    - (* Next *)
      destruct (next_spec m ltac:(lia)) as (m' & Hs & Hd & _ & Hfound & Hnone).
      exists m'. split; [exact Hs|].
      assert (Hsg : signs_of m' = signs_of m) by (unfold signs_of; now rewrite Hd).
      split; [|now rewrite Hsg].
      destruct (next_visual_dec (signs_of m) (currentIndex m) ltac:(lia))
        as [(j & Hj & Hv & Hmin)|Hno].
      + destruct (Hfound j Hj Hv Hmin) as [Hi _].
        left. now rewrite Hsg, Hi.
      + destruct (Hnone Hno) as (Hi & _).
        eapply index_ok_same; eauto.
    - (* Prev *)
      destruct (prevSign_updater_spec (signs_of m) (currentIndex m) ltac:(lia))
        as (r & Hu & H0 & Hle & Hlt & Hsp & Hvis).
      destruct (step_Prev_ok m r Hu) as (m' & Hs & Hd & Hi & _).
      exists m'. split; [exact Hs|].
      assert (Hsg : signs_of m' = signs_of m) by (unfold signs_of; now rewrite Hd).
      split; [|now rewrite Hsg].
      destruct (Z.eq_dec r 0) as [->|Hne].
      + apply index_ok_zero; [now rewrite Hsg|exact Hi].
      + left. rewrite Hsg, Hi. apply Hvis. lia.
    - (* Replay *) eexists. split; [reflexivity|].
      destruct (rerender_state m (replay m)) as (Hd & Hi & _).
      assert (Hd' : data (replay m) = data m)
        by (unfold replay, pause; simpl; destruct (intervalRef m); reflexivity).
      assert (Hsg : signs_of (rerender m (replay m)) = signs_of m)
        by (unfold signs_of; now rewrite Hd, Hd').
      split; [|now rewrite Hsg].
      apply index_ok_zero; [now rewrite Hsg|]. rewrite Hi. reflexivity.
    - (* Seek *)
      destruct (step_Seek_ok m index) as (m' & Hs & Hi & _ & _ & Hd).
      exists m'. split; [exact Hs|].
      assert (Hsg : signs_of m' = signs_of m) by (unfold signs_of; now rewrite Hd).
      split; [|now rewrite Hsg].
      left. rewrite Hsg, Hi. exact Hpage.
    - (* SetSpeed *) eexists. split; [reflexivity|].
      destruct (rerender_state m (setSpeed ms m)) as (Hd & Hi & _).
      split; [eapply index_ok_same; eauto|].
      unfold signs_of. rewrite Hd. exact Hhead.
    - (* Load *) exists (load d m). split; [reflexivity|].
      destruct (prop_changes m d) eqn:E.
      + destruct (load_state d m E) as (Hd & Hi & _).
        assert (Hh : head_ok (signs_of (load d m))).
        { unfold signs_of. rewrite Hd. apply head_okb_spec. exact Hpage. }
        split; [apply index_ok_zero; assumption|exact Hh].
      + destruct (load_same_state _ _ E) as (_ & Hd & Hi & _).
        split; [exact (index_ok_same m _ Hd Hi Hidx)|].
        unfold signs_of. rewrite Hd. exact Hhead.
    - (* Tick *)
      destruct (find_timer id m) as [[id' ms cap|]|] eqn:Ef.
      + destruct (find_timer_in _ _ _ Ef) as [Hin _].
        destruct Hok as [_ Hl]. destruct (Hl _ _ _ Hin) as (_ & -> & _).
        destruct (tick_spec m id id' ms Ef ltac:(lia))
          as (m' & Hs & Hd & _ & Hfound & Hnone).
        exists m'. split; [exact Hs|].
        assert (Hsg : signs_of m' = signs_of m) by (unfold signs_of; now rewrite Hd).
        split; [|now rewrite Hsg].
        destruct (next_visual_dec (signs_of m) (currentIndex m) ltac:(lia))
          as [(j & Hj & Hv & Hmin)|Hno].
        * destruct (Hfound j Hj Hv Hmin) as [Hi _].
          left. now rewrite Hsg, Hi.
        * destruct (Hnone Hno) as (Hi & _).
          eapply index_ok_same; eauto.
      + exists m. simpl. rewrite Ef. auto.
      + exists m. simpl. rewrite Ef. auto.
    - (* Fire *)
      destruct (find_timer id m) as [[|id' ms]|] eqn:Ef.
      + exists m. simpl. rewrite Ef. auto.
      + simpl. rewrite Ef. eexists. split; [reflexivity|].
        destruct (rerender_state (clearTimer id m) (play (clearTimer id m)))
          as (Hd & Hi & _).
        split; [eapply index_ok_same; eauto|].
        unfold signs_of. rewrite Hd. exact Hhead.
      + exists m. simpl. rewrite Ef. auto. }
  destruct Hgoal as (m' & Hs & Hi & Hh). exists m'. split; [exact Hs|].
  split; [eapply step_timers_ok; eauto|auto].
Qed.

Lemma mount_page_inv (d : option TranslationResult) :
  head_okb (data_signs d) = true -> page_inv (mount d).
Proof.
  intros Hh. split; [apply mount_timers_ok|].
  assert (Hd : data (mount d) = d /\ currentIndex (mount d) = 0).
  { rewrite mount_eq.
    destruct (autoStart_effect_state (initial d)) as (-> & -> & _). auto. }
  destruct Hd as [Hd Hi].
  assert (Hhead : head_ok (signs_of (mount d))).
  { unfold signs_of. rewrite Hd. apply head_okb_spec, Hh. }
  split; [apply index_ok_zero; assumption|exact Hhead].
Qed.

Lemma run_page_inv (es : list Event) (m : Machine) :
  page_inv m -> trace_from_page m es = true ->
  exists m', run m es = Ok m' /\ page_inv m'.
Proof.
  revert m. induction es as [|e es IH]; intros m Hinv Htr; simpl.
  - eauto.
  - simpl in Htr. apply andb_true_iff in Htr. destruct Htr as [Hp Htr].
    destruct (step_page_inv m e Hinv Hp) as (m1 & Hs & Hinv1).
    rewrite Hs in *. simpl. apply IH; assumption.
Qed.

(** C1. Let the component be mounted on a result whose sign sequence is
    empty or begins with a visual sign, and let it go through any sequence
    of commands, timer events and loads as the page produces them: a seek
    is a click on a chip of the timeline (an index of a visual sign), and
    every loaded sequence is again empty or begins with a visual sign.
    Then no transition fails, and after the last one, hence after each,
    [currentIndex] is on a visual sign, or is 0 on an empty sequence. *)
Theorem index_stays_on_visual_sign (d : option TranslationResult) (es : list Event) :
  head_okb (data_signs d) = true ->
  trace_from_page (mount d) es = true ->
  exists m', run (mount d) es = Ok m' /\ index_ok m'.
Proof.
  intros Hd Htr.
  destruct (run_page_inv es (mount d) (mount_page_inv d Hd) Htr)
    as (m' & Hr & _ & Hi & _).
  eauto.
Qed.

Lemma index_stays_on_visual_sign_witness :
  exists m',
    run (mount (result_of three_signs))
        [Fire 1; Tick 2; Prev; Seek 2; Next; Replay; SetSpeed 400; Fire 3;
         Tick 4; Pause; Load (result_of trailing_gap); Fire 5; Tick 6] = Ok m'
    /\ index_ok m'.
Proof.
  apply (index_stays_on_visual_sign (result_of three_signs)); reflexivity.
Defined.

(** C1, as stated, fails: a seek lands on the Space token it is given, and
    a sequence that begins with a Space token is shown from index 0. *)
Lemma index_can_rest_on_space :
  (exists m', step m_three (Seek 1) = Ok m'
     /\ type_is_space (signs_of m') (currentIndex m') = Ok true
     /\ ~ index_ok m')
  /\ (exists m', step m_three (Load (result_of [sign_gap; sign_A])) = Ok m'
        /\ type_is_space (signs_of m') (currentIndex m') = Ok true
        /\ ~ index_ok m').
Proof.
  split; eexists; (split; [reflexivity|]); (split; [reflexivity|]);
    intros [H|[H _]]; discriminate H.
Qed.

(** * Further properties *)

(** ** The rendered timeline *)

Lemma visual_cons_0 (s : SignToken) (sg : list SignToken) :
  visual (s :: sg) 0 = negb (is_space (type s)).
Proof. reflexivity. Qed.

Lemma visual_cons_pos (s : SignToken) (sg : list SignToken) (i : Z) :
  i <> 0 -> visual (s :: sg) i = visual sg (i - 1).
Proof.
  intros Hi. unfold visual, sign_at.
  destruct (Z.ltb_spec i 0) as [Hn|Hp].
  - destruct (Z.ltb_spec (i - 1) 0); [reflexivity|lia].
  - destruct (Z.ltb_spec (i - 1) 0); [lia|].
    replace (Z.to_nat i) with (S (Z.to_nat (i - 1))) by lia. reflexivity.
Qed.

Lemma sign_at_cons_pos (s : SignToken) (sg : list SignToken) (i : Z) :
  0 < i -> sign_at (s :: sg) i = sign_at sg (i - 1).
Proof.
  intros Hi. unfold sign_at.
  destruct (Z.ltb_spec i 0); [lia|]. destruct (Z.ltb_spec (i - 1) 0); [lia|].
  replace (Z.to_nat i) with (S (Z.to_nat (i - 1))) by lia. reflexivity.
Qed.

Lemma timeline_from_handlers (sg : list SignToken) (k cur : Z) (e : Event) :
  In e (flat_map chip_handler (timeline_from k sg cur))
  <-> exists i, e = Seek i /\ visual sg (i - k) = true.
Proof.
  revert k. induction sg as [|s sg IH]; intros k; simpl.
  - split; [tauto|]. intros (i & _ & Hv). unfold visual, sign_at in Hv.
    destruct (i - k <? 0); [discriminate|].
    destruct (Z.to_nat (i - k)); discriminate.
  - rewrite in_app_iff, IH. split.
    + intros [Hh|(i & -> & Hv)].
      * destruct (is_space (type s)) eqn:Es; simpl in Hh; [tauto|].
        destruct Hh as [<-|[]]. exists k. split; [reflexivity|].
        rewrite Z.sub_diag, visual_cons_0, Es. reflexivity.
      * exists i. split; [reflexivity|].
        assert (Hr := visual_range _ _ Hv).
        rewrite visual_cons_pos by lia.
        now replace (i - k - 1) with (i - (k + 1)) by lia.
    + intros (i & -> & Hv). destruct (Z.eq_dec i k) as [->|Hne].
      * left. rewrite Z.sub_diag, visual_cons_0 in Hv.
        apply negb_true_iff in Hv. rewrite Hv. now left.
      * right. exists i. split; [reflexivity|].
        rewrite visual_cons_pos in Hv by lia.
        now replace (i - (k + 1)) with (i - k - 1) by lia.
Qed.

Lemma timeline_from_active (sg : list SignToken) (k cur : Z) :
  List.length (filter is_active (timeline_from k sg cur))
  = if visual sg (cur - k) then 1%nat else 0%nat.
Proof.
  revert k. induction sg as [|s sg IH]; intros k; simpl.
  - unfold visual, sign_at. destruct (cur - k <? 0); [reflexivity|].
    destruct (Z.to_nat (cur - k)); reflexivity.
  - specialize (IH (k + 1)).
    destruct (Z.eq_dec k cur) as [->|Hne].
    + rewrite Z.sub_diag, visual_cons_0, Z.eqb_refl.
      replace (cur - (cur + 1)) with (-1) in IH by lia.
      change (visual sg (-1)) with false in IH.
      destruct (is_space (type s)); simpl; rewrite IH; reflexivity.
    + rewrite visual_cons_pos by lia.
      replace (cur - k - 1) with (cur - (k + 1)) by lia.
      destruct (Z.eqb_spec k cur); [contradiction|].
      destruct (is_space (type s)); simpl; exact IH.
Qed.

Lemma timeline_from_nth (sg : list SignToken) (k cur : Z) (n : nat) :
  nth_error (timeline_from k sg cur) n
  = match nth_error sg n with
    | Some s =>
        Some (if is_space (type s) then SpaceChip
              else SignChip (label s) (k + Z.of_nat n =? cur)
                            (Seek (k + Z.of_nat n)))
    | None => None
    end.
Proof.
  revert k n. induction sg as [|s sg IH]; intros k [|n]; simpl; try reflexivity.
  - now rewrite Z.add_0_r.
  - rewrite IH. replace (k + 1 + Z.of_nat n) with (k + Z.pos (Pos.of_succ_nat n)) by lia.
    reflexivity.
Qed.

Lemma timeline_handlers_visual (m : Machine) (e : Event) :
  In e (flat_map chip_handler (timeline m))
  <-> exists i, e = Seek i /\ visual (signs_of m) i = true.
Proof.
  unfold timeline. rewrite timeline_from_handlers.
  split; intros (i & He & Hv); exists i; (split; [exact He|]).
  - now rewrite Z.sub_0_r in Hv.
  - now rewrite Z.sub_0_r.
Qed.

(** X1. The timeline offers a click handler for index [i] exactly when sign
    [i] exists and is not a Space token, and that handler seeks to [i]. *)
Theorem timeline_offers_the_visual_signs (m : Machine) (e : Event) :
  In e (flat_map chip_handler (timeline m))
  <-> exists i s, e = Seek i /\ sign_at (signs_of m) i = Some s
                 /\ type s <> space.
Proof.
  rewrite timeline_handlers_visual. unfold visual.
  split.
  - intros (i & He & Hv). destruct (sign_at (signs_of m) i) as [s|] eqn:Es;
      [|discriminate]. exists i, s. split; [exact He|]. split; [exact Es|].
    intros Ht. rewrite Ht in Hv. discriminate.
  - intros (i & s & He & Hs & Ht). exists i. split; [exact He|]. rewrite Hs.
    destruct (type s); [reflexivity|reflexivity|contradiction].
Qed.

(** X2. In every state at most one chip of the timeline is highlighted:
    exactly one when [currentIndex] is on a visual sign, and then it is the
    chip at position [currentIndex], carrying the label of the sign shown in
    the player; none when the index is on a Space token or outside the
    sequence. *)
Theorem one_chip_is_active (m : Machine) :
  List.length (filter is_active (timeline m))
  = (if visual (signs_of m) (currentIndex m) then 1%nat else 0%nat)
  /\ (forall n c, nth_error (timeline m) n = Some c -> is_active c = true ->
        Z.of_nat n = currentIndex m
        /\ exists s, currentSign m = Some s
             /\ c = SignChip (label s) true (Seek (currentIndex m))).
Proof.
  split.
  - unfold timeline. rewrite timeline_from_active. now rewrite Z.sub_0_r.
  - intros n c Hn Ha. unfold timeline in Hn. rewrite timeline_from_nth in Hn.
    destruct (nth_error (signs_of m) n) as [s|] eqn:Es; [|discriminate].
    injection Hn as <-. destruct (is_space (type s)); [discriminate|].
    simpl in Ha. simpl. rewrite Ha. apply Z.eqb_eq in Ha.
    split; [exact Ha|]. exists s. split.
    + unfold currentSign, sign_at. rewrite <- Ha.
      destruct (Z.ltb_spec (Z.of_nat n) 0); [lia|]. now rewrite Nat2Z.id.
    + now rewrite Ha.
Qed.

(** X3. A click on any chip that has a handler never fails and makes that
    chip's sign the current one: the player shows it (it is not a Space
    token) and its chip, at its own position, is the highlighted one. *)
Theorem clicked_chip_becomes_current (m : Machine) (e : Event) :
  In e (flat_map chip_handler (timeline m)) ->
  exists i s m',
    e = Seek i /\ step m e = Ok m'
    /\ sign_at (signs_of m) i = Some s /\ type s <> space
    /\ currentSign m' = Some s
    /\ nth_error (timeline m') (Z.to_nat i)
       = Some (SignChip (label s) true (Seek i))
    /\ isPlaying m' = isPlaying m.
Proof.
  intros He. apply timeline_handlers_visual in He.
  destruct He as (i & -> & Hv).
  pose proof (visual_range _ _ Hv) as Hr.
  destruct (sign_at (signs_of m) i) as [s|] eqn:Es;
    [|unfold visual in Hv; rewrite Es in Hv; discriminate].
  assert (Hns : is_space (type s) = false).
  { unfold visual in Hv. rewrite Es in Hv. now apply negb_true_iff in Hv. }
  destruct (step_Seek_ok m i) as (m' & Hs & Hi & Hp & _ & Hd).
  assert (Hsg : signs_of m' = signs_of m) by (unfold signs_of; now rewrite Hd).
  exists i, s, m'. split; [reflexivity|]. split; [exact Hs|].
  split; [exact Es|]. split; [intros Ht; rewrite Ht in Hns; discriminate|].
  split; [unfold currentSign; now rewrite Hsg, Hi|]. split; [|exact Hp].
  unfold timeline. rewrite timeline_from_nth, Hsg, Hi.
  unfold sign_at in Es. destruct (Z.ltb_spec i 0); [lia|]. rewrite Es, Hns.
  rewrite Z.add_0_l, Z2Nat.id by lia. now rewrite Z.eqb_refl.
Qed.

Lemma clicked_chip_becomes_current_witness :
  exists i s m',
    Seek 2 = Seek i /\ step m_three (Seek 2) = Ok m'
    /\ sign_at (signs_of m_three) i = Some s /\ type s <> space
    /\ currentSign m' = Some s
    /\ nth_error (timeline m') (Z.to_nat i)
       = Some (SignChip (label s) true (Seek i))
    /\ isPlaying m' = isPlaying m_three.
Proof.
  apply (clicked_chip_becomes_current m_three (Seek 2)).
  simpl. right. left. reflexivity.
Defined.

(** ** Using the component through the page *)

Lemma user_event_eqb_eq (a b : Event) : user_event_eqb a b = true -> a = b.
Proof.
  destruct a, b; simpl; try discriminate; try reflexivity;
    intros H; apply Z.eqb_eq in H; now subst.
Qed.

Lemma offered_from_page (m : Machine) (e : Event) :
  offered m e = true -> from_page m e = true.
Proof.
  destruct e; simpl; auto. intros H.
  apply existsb_exists in H. destruct H as (x & Hin & Heq).
  apply user_event_eqb_eq in Heq. subst x.
  unfold page_handlers in Hin. destruct (shows_empty_state m); [destruct Hin|].
  apply in_app_or in Hin. destruct Hin as [Hin|Hin].
  - simpl in Hin. unfold play_button in Hin.
    destruct (isPlaying m); simpl in Hin;
      repeat (destruct Hin as [Hin|Hin]; [discriminate|]); destruct Hin.
  - apply in_app_or in Hin. destruct Hin as [Hin|Hin].
    + apply in_map_iff in Hin. destruct Hin as (x & Hx & _). discriminate.
    + apply timeline_handlers_visual in Hin.
      destruct Hin as (i & Hi & Hv). injection Hi as ->. exact Hv.
Qed.

Lemma offered_trace_from_page (es : list Event) (m : Machine) :
  offered_trace m es = true -> trace_from_page m es = true.
Proof.
  revert m. induction es as [|e es IH]; intros m; simpl; [reflexivity|].
  intros H. apply andb_true_iff in H. destruct H as [Ho Hr].
  rewrite (offered_from_page _ _ Ho). simpl.
  destruct (step m e); auto.
Qed.

(** X4. Used through the page, the component never fails and never shows a
    Space token: start from any result whose sequence is empty or begins
    with a visual sign, and let every user event be a handler of the page as
    it is rendered at that moment (buttons, speed menu, timeline chips),
    interleaved at will with timer events and with loads of further such
    results.  Then every transition succeeds, and whenever the player is
    shown it shows a visual sign, with exactly one chip highlighted. *)
Theorem page_never_breaks (d : option TranslationResult) (es : list Event) :
  head_okb (data_signs d) = true ->
  offered_trace (mount d) es = true ->
  exists m', run (mount d) es = Ok m'
    /\ index_ok m'
    /\ (shows_empty_state m' = false ->
        exists s, currentSign m' = Some s /\ type s <> space
          /\ List.length (filter is_active (timeline m')) = 1%nat).
Proof.
  intros Hd Ho. apply offered_trace_from_page in Ho.
  destruct (run_page_inv es (mount d) (mount_page_inv d Hd) Ho)
    as (m' & Hr & _ & Hi & _).
  exists m'. split; [exact Hr|]. split; [exact Hi|].
  intros Hshown.
  assert (Hv : visual (signs_of m') (currentIndex m') = true).
  { destruct Hi as [Hv|[He _]]; [exact Hv|].
    unfold shows_empty_state in Hshown. rewrite He in Hshown.
    destruct (data m'); discriminate. }
  unfold currentSign. pose proof Hv as Hv'. unfold visual in Hv'.
  destruct (sign_at (signs_of m') (currentIndex m')) as [s|]; [|discriminate].
  exists s. split; [reflexivity|]. split.
  - intros Ht. rewrite Ht in Hv'. discriminate.
  - unfold timeline. rewrite timeline_from_active, Z.sub_0_r, Hv. reflexivity.
Qed.

Lemma page_never_breaks_witness :
  exists m',
    run (mount (result_of spelled))
        [Fire 1; Tick 2; Seek 3; Prev; SetSpeed 600; Tick 3; Pause; Next;
         Replay; Load (result_of three_signs); Fire 5; Tick 6; Tick 6] = Ok m'
    /\ index_ok m'
    /\ (shows_empty_state m' = false ->
        exists s, currentSign m' = Some s /\ type s <> space
          /\ List.length (filter is_active (timeline m')) = 1%nat).
Proof.
  apply (page_never_breaks (result_of spelled)); reflexivity.
Defined.

(** ** One interval, and always one while Playing *)

Lemma ids_unique_filter (keep : Timer -> bool) (tbl : list Timer) :
  NoDup (map timer_id tbl) -> NoDup (map timer_id (filter keep tbl)).
Proof.
  induction tbl as [|t tbl IH]; simpl; intros Hnd; [constructor|].
  apply NoDup_cons_iff in Hnd. destruct Hnd as [Hfresh Hrest].
  destruct (keep t); simpl; [|now apply IH].
  apply NoDup_cons_iff. split; [|now apply IH].
  intros Hin. apply Hfresh. apply in_map_iff in Hin.
  destruct Hin as (u & Hu & Hin). apply filter_In in Hin.
  apply in_map_iff. exists u. tauto.
Qed.

Lemma ids_unique_same (m m' : Machine) :
  timers m' = timers m -> ids_unique m -> ids_unique m'.
Proof. unfold ids_unique. now intros ->. Qed.

Lemma ids_unique_clear (id : positive) (m : Machine) :
  ids_unique m -> ids_unique (clearTimer id m).
Proof. unfold ids_unique. simpl. apply ids_unique_filter. Qed.

Lemma ids_unique_add (mk : positive -> Timer) (m : Machine) :
  (forall id, timer_id (mk id) = id) ->
  ids_fresh m -> ids_unique m -> ids_unique (snd (addTimer mk m)).
Proof.
  intros Hmk (Ht & _) Hu. unfold ids_unique in *. simpl.
  rewrite map_app. simpl. rewrite Hmk.
  apply NoDup_app; [exact Hu|constructor; [intros []|constructor]|].
  intros x Hx [<-|[]]. apply in_map_iff in Hx.
  destruct Hx as (t & Hid & Hin). apply Ht in Hin. lia.
Qed.

Lemma ids_unique_timer_cleanup (m : Machine) :
  ids_unique m -> ids_unique (timer_cleanup m).
Proof.
  intros H. unfold timer_cleanup. destruct (intervalRef m); [|assumption].
  now apply ids_unique_clear.
Qed.

Lemma ids_unique_timer_effect (m : Machine) :
  ids_fresh m -> ids_unique m -> ids_unique (timer_effect m).
Proof.
  intros Hf Hu. unfold timer_effect.
  destruct (isPlaying m && (len (signs_of m) >? 0)); [|assumption].
  exact (ids_unique_add
           (fun id => IntervalTimer id (speed m) (signs_of m)) m
           (fun _ => eq_refl) Hf Hu).
Qed.

Lemma ids_unique_rerender (old m : Machine) :
  ids_fresh m -> ids_unique m -> ids_unique (rerender old m).
Proof.
  intros Hf Hu. unfold rerender. destruct (timer_deps_changed old m); [|assumption].
  apply ids_unique_timer_effect;
    [now apply ids_fresh_timer_cleanup|now apply ids_unique_timer_cleanup].
Qed.

Lemma ids_unique_pause (m : Machine) : ids_unique m -> ids_unique (pause m).
Proof.
  intros H. unfold pause. simpl. destruct (intervalRef m) as [r|]; [|exact H].
  apply (ids_unique_clear r m H).
Qed.

Lemma ids_unique_autoStart_cleanup (m : Machine) :
  ids_unique m -> ids_unique (autoStart_cleanup m).
Proof.
  intros H. unfold autoStart_cleanup. destruct (autoStart m) as [t|]; [|exact H].
  apply (ids_unique_clear t m H).
Qed.

Lemma ids_unique_autoStart_effect (m : Machine) :
  ids_fresh m -> ids_unique m -> ids_unique (autoStart_effect m).
Proof.
  intros Hf Hu. unfold autoStart_effect.
  destruct (data m) as [r|]; [|exact Hu].
  destruct (len (signs r) >? 0); [|exact Hu].
  exact (ids_unique_add (fun id => PlayTimeout id 500) m (fun _ => eq_refl) Hf Hu).
Qed.

Lemma ids_unique_load_changed (d : option TranslationResult) (m : Machine) :
  ids_fresh m -> ids_unique m -> ids_unique (load_changed d m).
Proof.
  intros Hf Hu. unfold load_changed.
  set (m2 := autoStart_cleanup (timer_cleanup (set_data d m))).
  assert (Hf2 : ids_fresh m2).
  { apply ids_fresh_autoStart_cleanup, ids_fresh_timer_cleanup.
    apply (ids_fresh_state m); simpl; auto. }
  assert (Hu2 : ids_unique m2).
  { apply ids_unique_autoStart_cleanup, ids_unique_timer_cleanup.
    apply (ids_unique_same m); [reflexivity|exact Hu]. }
  assert (Hf3 : ids_fresh (reset_effect (timer_effect m2))).
  { apply (ids_fresh_state (timer_effect m2)); simpl; auto.
    now apply ids_fresh_timer_effect. }
  assert (Hu3 : ids_unique (reset_effect (timer_effect m2))).
  { apply (ids_unique_same (timer_effect m2)); [reflexivity|].
    now apply ids_unique_timer_effect. }
  apply ids_unique_rerender.
  - now apply ids_fresh_autoStart_effect.
  - now apply ids_unique_autoStart_effect.
Qed.

Lemma ids_unique_load (d : option TranslationResult) (m : Machine) :
  ids_fresh m -> ids_unique m -> ids_unique (load d m).
Proof.
  intros Hf Hu. unfold load. destruct (prop_changes m d).
  - now apply ids_unique_load_changed.
  - apply ids_unique_timer_effect;
      [now apply ids_fresh_timer_cleanup|now apply ids_unique_timer_cleanup].
Qed.

Lemma step_ids_unique (m : Machine) (e : Event) (m' : Machine) :
  ids_fresh m -> ids_unique m -> step m e = Ok m' -> ids_unique m'.
Proof.
  intros Hf Hu Hs. pose proof (step_ids_fresh m e m' Hf Hs) as Hf'.
  destruct e; simpl in Hs.
  - injection Hs as <-. apply ids_unique_rerender; [|exact Hu].
    apply (ids_fresh_state m); simpl; auto.
  - injection Hs as <-.
    apply ids_unique_rerender; [now apply ids_fresh_pause|now apply ids_unique_pause].
  - unfold nextSign in Hs.
    destruct (nextSign_updater _ _) as [[i p]| |]; simpl in Hs; try discriminate.
    injection Hs as <-. apply ids_unique_rerender.
    + apply (ids_fresh_state m); destruct p; simpl; auto.
    + apply (ids_unique_same m); [destruct p; reflexivity|exact Hu].
  - unfold prevSign in Hs.
    destruct (prevSign_updater _ _) as [i| |]; simpl in Hs; try discriminate.
    injection Hs as <-. apply ids_unique_rerender; [|exact Hu].
    apply (ids_fresh_state m); simpl; auto.
  - injection Hs as <-.
    assert (Hfp : ids_fresh (setCurrentIndex 0 (pause m))).
    { apply (ids_fresh_state (pause m)); simpl; auto using ids_fresh_pause. }
    apply ids_unique_rerender; unfold replay.
    + now apply ids_fresh_add.
    + apply ids_unique_add; [reflexivity|exact Hfp|].
      apply (ids_unique_same (pause m)); [reflexivity|now apply ids_unique_pause].
  - injection Hs as <-. apply ids_unique_rerender; [|exact Hu].
    apply (ids_fresh_state m); simpl; auto.
  - injection Hs as <-. apply ids_unique_rerender; [|exact Hu].
    apply (ids_fresh_state m); simpl; auto.
  - injection Hs as <-. now apply ids_unique_load.
  - destruct (find_timer id m) as [[id' ms cap|]|] eqn:Ef;
      try (injection Hs as <-; assumption).
    unfold interval_callback in Hs.
    destruct (tick_updater cap (currentIndex m)) as [[i p]| |];
      simpl in Hs; try discriminate.
    destruct p; simpl in Hs; injection Hs as <-; apply ids_unique_rerender.
    + destruct (intervalRef m) as [r|] eqn:Er.
      * apply (ids_fresh_state (clearTimer r m)); simpl; auto using ids_fresh_clear.
      * apply (ids_fresh_state m); simpl; auto.
    + destruct (intervalRef m) as [r|] eqn:Er; simpl; rewrite ?Er.
      * apply (ids_unique_clear r m Hu).
      * exact Hu.
    + apply (ids_fresh_state m); simpl; auto.
    + exact Hu.
  - destruct (find_timer id m) as [[|id' ms]|] eqn:Ef;
      try (injection Hs as <-; assumption).
    injection Hs as <-. apply ids_unique_rerender.
    + apply (ids_fresh_state (clearTimer id m)); simpl; auto using ids_fresh_clear.
    + apply (ids_unique_clear id m Hu).
Qed.

Lemma unique_timer (m : Machine) (x y : Timer) :
  ids_unique m -> In x (timers m) -> In y (timers m) ->
  timer_id x = timer_id y -> x = y.
Proof.
  unfold ids_unique. induction (timers m) as [|a l IH]; simpl; [tauto|].
  intros Hnd Hx Hy Hid. inversion Hnd as [|? ? Hnin Hnd']; subst.
  destruct Hx as [->|Hx], Hy as [->|Hy]; auto.
  - elim Hnin. rewrite Hid. now apply in_map.
  - elim Hnin. rewrite <- Hid. now apply in_map.
Qed.

Lemma driven_paused (m : Machine) : isPlaying m = false -> driven m.
Proof. intros Hp Hp'. congruence. Qed.

Lemma driven_keep (old m : Machine) :
  driven old ->
  isPlaying m = isPlaying old -> speed m = speed old -> data m = data old ->
  intervalRef m = intervalRef old ->
  (forall id ms cap, In (IntervalTimer id ms cap) (timers old) ->
                     In (IntervalTimer id ms cap) (timers m)) ->
  driven m.
Proof.
  intros Hd Hp Hs Hda Hr Hsub. unfold driven, signs_of in *.
  rewrite Hp, Hs, Hda, Hr. intros H1 H2.
  destruct (Hd H1 H2) as (id & Href & Hin). eauto.
Qed.

Lemma rerender_driven (old m : Machine) :
  (timer_deps_changed old m = false -> driven m) -> driven (rerender old m).
Proof.
  intros H. unfold rerender. destruct (timer_deps_changed old m); [|auto].
  set (c := timer_cleanup m). intros Hp Hl.
  destruct (timer_effect_state c) as (Hd & _ & Hpl & Hsp & _).
  assert (Hsg : signs_of (timer_effect c) = signs_of c)
    by (unfold signs_of; now rewrite Hd).
  rewrite Hpl in Hp. rewrite Hsg in Hl.
  destruct (timer_effect_on c Hp Hl) as [Hr Hin].
  exists (nextTimer c). now rewrite Hsg, Hsp.
Qed.

Lemma step_driven (m : Machine) (e : Event) (m' : Machine) :
  ids_unique m -> driven m -> step m e = Ok m' -> driven m'.
Proof.
  intros Hu Hd Hs. destruct e; simpl in Hs.
  - injection Hs as <-. apply rerender_driven. intros Hdeps.
    apply deps_unchanged in Hdeps. destruct Hdeps as [Hp Hsp].
    apply (driven_keep m); auto.
  - injection Hs as <-. apply rerender_driven. intros _.
    apply driven_paused. unfold pause. simpl. destruct (intervalRef m); reflexivity.
  - unfold nextSign in Hs.
    destruct (nextSign_updater _ _) as [[i p]| |]; simpl in Hs; try discriminate.
    injection Hs as <-. apply rerender_driven. intros _.
    destruct p; [now apply driven_paused|]. apply (driven_keep m); auto.
  - unfold prevSign in Hs.
    destruct (prevSign_updater _ _) as [i| |]; simpl in Hs; try discriminate.
    injection Hs as <-. apply rerender_driven. intros _.
    apply (driven_keep m); auto.
  - injection Hs as <-. apply rerender_driven. intros _.
    apply driven_paused. unfold replay, pause. simpl.
    destruct (intervalRef m); reflexivity.
  - injection Hs as <-. apply rerender_driven. intros _.
    apply (driven_keep m); auto.
  - injection Hs as <-. apply rerender_driven. intros Hdeps.
    apply deps_unchanged in Hdeps. destruct Hdeps as [Hp Hsp].
    apply (driven_keep m); auto.
  - injection Hs as <-. destruct (prop_changes m d) eqn:E.
    + apply driven_paused. now apply load_state.
    + destruct (load_same_state _ _ E) as (_ & Hda & _).
      destruct (prop_changes_false _ _ E) as [Hn _].
      intros _ Hl. unfold signs_of in Hl. rewrite Hda, Hn in Hl.
      cbv in Hl. discriminate.
  - destruct (find_timer id m) as [[id' ms cap|]|] eqn:Ef;
      try (injection Hs as <-; assumption).
    unfold interval_callback in Hs.
    destruct (tick_updater cap (currentIndex m)) as [[i p]| |];
      simpl in Hs; try discriminate.
    destruct p; simpl in Hs; injection Hs as <-; apply rerender_driven; intros _.
    + apply driven_paused. destruct (intervalRef m); reflexivity.
    + apply (driven_keep m); auto.
  - destruct (find_timer id m) as [[|id' ms]|] eqn:Ef;
      try (injection Hs as <-; assumption).
    injection Hs as <-. apply rerender_driven. intros Hdeps.
    apply deps_unchanged in Hdeps. destruct Hdeps as [Hp _]. simpl in Hp.
    apply find_timer_in in Ef. destruct Ef as [Hpt Hid]. simpl in Hid. subst id'.
    intros _ Hl. destruct (Hd (eq_sym Hp) Hl) as (rid & Href & Hin).
    exists rid. split; [exact Href|]. simpl. apply filter_In. split; [exact Hin|].
    apply negb_true_iff, Pos.eqb_neq. simpl. intros <-.
    pose proof (unique_timer m _ _ Hu Hin Hpt eq_refl). discriminate.
Qed.

Lemma mount_sound (d : option TranslationResult) : sound (mount d).
Proof.
  split; [apply mount_consistent|]. split.
  - rewrite mount_eq. apply ids_unique_autoStart_effect.
    + repeat split; simpl; try tauto; discriminate.
    + constructor.
  - apply driven_paused. rewrite mount_eq.
    now destruct (autoStart_effect_state (initial d)) as (_ & _ & -> & _).
Qed.

Lemma step_sound (m : Machine) (e : Event) (m' : Machine) :
  sound m -> step m e = Ok m' -> sound m'.
Proof.
  intros (Hc & Hu & Hd) Hs. split; [eapply step_consistent; eauto|]. split.
  - eapply step_ids_unique; eauto. apply (proj1 (proj2 Hc)).
  - eapply step_driven; eauto.
Qed.

Lemma run_sound (es : list Event) (m m' : Machine) :
  sound m -> run m es = Ok m' -> sound m'.
Proof.
  revert m. induction es as [|e es IH]; intros m Hok Hr; simpl in Hr.
  - now injection Hr as <-.
  - destruct (step m e) as [m1| |] eqn:Es; simpl in Hr; try discriminate.
    eapply IH; [eapply step_sound; eauto|exact Hr].
Qed.

Lemma one_interval (l : list Timer) (r : option positive) :
  (forall id ms cap, In (IntervalTimer id ms cap) l -> r = Some id) ->
  NoDup (map timer_id l) ->
  (List.length (filter is_interval l) <= 1)%nat.
Proof.
  induction l as [|a l IH]; simpl; intros Ho Hnd; [lia|].
  inversion Hnd as [|? ? Hnin Hnd']; subst.
  assert (IHl := IH (fun id ms cap H => Ho id ms cap (or_intror H)) Hnd').
  destruct a as [id ms cap|id ms]; simpl; [|exact IHl].
  assert (Hnone : filter is_interval l = []).
  { destruct (filter is_interval l) as [|b rest] eqn:Ef; [reflexivity|].
    assert (Hb : In b (filter is_interval l)) by (rewrite Ef; now left).
    apply filter_In in Hb. destruct Hb as [Hb Hi].
    destruct b as [id2 ms2 cap2|]; [|discriminate].
    pose proof (Ho id ms cap (or_introl eq_refl)) as H1.
    pose proof (Ho id2 ms2 cap2 (or_intror Hb)) as H2.
    rewrite H1 in H2. injection H2 as <-.
    elim Hnin. simpl. change id with (timer_id (IntervalTimer id ms2 cap2)).
    now apply in_map. }
  rewrite Hnone. simpl. lia.
Qed.

(** X5. Along every run from a mount the playback is driven by one timer and
    by one only: there is never more than one live interval; a live interval
    is the one held in [intervalRef], runs at the selected speed over the
    loaded sequence, and exists only while Playing; and conversely, whenever
    the machine is Playing on a non-empty sequence that interval is live. *)
Theorem playing_means_one_interval
        (d : option TranslationResult) (es : list Event) (m : Machine) :
  run (mount d) es = Ok m ->
  (interval_count m <= 1)%nat
  /\ (forall id ms cap, In (IntervalTimer id ms cap) (timers m) ->
        intervalRef m = Some id /\ ms = speed m /\ cap = signs_of m
        /\ isPlaying m = true)
  /\ (isPlaying m = true -> len (signs_of m) > 0 ->
      exists id, intervalRef m = Some id
        /\ find_timer id m = Some (IntervalTimer id (speed m) (signs_of m))).
Proof.
  intros Hr.
  destruct (run_sound es (mount d) m (mount_sound d) Hr)
    as ([[Ho Hl] Hf] & Hu & Hd).
  split; [|split].
  - apply (one_interval (timers m) (intervalRef m)); [exact Ho|exact Hu].
  - intros id ms cap Hin. split; [eapply Ho; eauto|]. eapply Hl; eauto.
  - intros Hp Hlen. destruct (Hd Hp Hlen) as (id & Href & Hin).
    exists id. split; [exact Href|].
    apply (find_timer_unique m (IntervalTimer id (speed m) (signs_of m)) Hin).
    intros y Hy Hid. eapply unique_timer; eauto.
Qed.

Lemma playing_means_one_interval_witness :
  (interval_count m_spelled_playing <= 1)%nat
  /\ (forall id ms cap,
        In (IntervalTimer id ms cap) (timers m_spelled_playing) ->
        intervalRef m_spelled_playing = Some id
        /\ ms = speed m_spelled_playing /\ cap = signs_of m_spelled_playing
        /\ isPlaying m_spelled_playing = true)
  /\ (isPlaying m_spelled_playing = true ->
      len (signs_of m_spelled_playing) > 0 ->
      exists id, intervalRef m_spelled_playing = Some id
        /\ find_timer id m_spelled_playing
           = Some (IntervalTimer id (speed m_spelled_playing)
                                 (signs_of m_spelled_playing))).
Proof.
  apply (playing_means_one_interval (result_of spelled) [Play]).
  reflexivity.
Defined.

(** ** A playthrough *)

Lemma filter_none {A : Type} (p : A -> bool) (l : list A) :
  (forall x, In x l -> p x = false) -> filter p l = [].
Proof.
  induction l as [|a l IH]; simpl; intros H; [reflexivity|].
  rewrite (H a (or_introl eq_refl)). apply IH. auto.
Qed.

Lemma in_indices (sg : list SignToken) (k : Z) :
  In k (indices sg) <-> 0 <= k < len sg.
Proof.
  unfold indices, len. rewrite in_map_iff. split.
  - intros (n & <- & Hn). apply in_seq in Hn. lia.
  - intros Hk. exists (Z.to_nat k). split; [lia|]. apply in_seq. lia.
Qed.

Lemma visuals_after_nil (sg : list SignToken) (i : Z) :
  (forall k, i < k -> visual sg k = false) -> visuals_after sg i = [].
Proof.
  intros H. apply filter_none. intros k _.
  destruct (Z.ltb_spec i k); [|reflexivity]. simpl. auto.
Qed.

Lemma indices_split (sg : list SignToken) (j : Z) :
  0 <= j < len sg ->
  exists before after,
    indices sg = before ++ j :: after
    /\ (forall k, In k before -> k < j)
    /\ (forall k, In k after -> j < k).
Proof.
  intros Hj. unfold indices, len in *.
  set (n := List.length sg) in *. set (a := Z.to_nat j).
  replace n with (a + S (n - S a))%nat by lia.
  rewrite seq_app, map_app. simpl.
  exists (map Z.of_nat (seq 0 a)), (map Z.of_nat (seq (S a) (n - S a))).
  split; [unfold a; now rewrite Z2Nat.id by lia|]. split.
  - intros k Hk. apply in_map_iff in Hk. destruct Hk as (x & <- & Hx).
    apply in_seq in Hx. lia.
  - intros k Hk. apply in_map_iff in Hk. destruct Hk as (x & <- & Hx).
    apply in_seq in Hx. lia.
Qed.

Lemma visuals_after_next (sg : list SignToken) (i j : Z) :
  i < j -> visual sg j = true ->
  (forall k, i < k < j -> visual sg k = false) ->
  visuals_after sg i = j :: visuals_after sg j.
Proof.
  intros Hij Hv Hmin. pose proof (visual_range _ _ Hv) as Hr.
  destruct (indices_split sg j Hr) as (before & after & E & Hb & Ha).
  unfold visuals_after. rewrite E, !filter_app. simpl.
  rewrite Hv, Z.ltb_irrefl.
  destruct (Z.ltb_spec i j); [|lia]. simpl.
  rewrite (filter_none _ before), (filter_none _ before); simpl.
  - f_equal. apply filter_ext_in. intros k Hk. apply Ha in Hk.
    destruct (Z.ltb_spec i k); [|lia]. destruct (Z.ltb_spec j k); [|lia].
    reflexivity.
  - intros k Hk. apply Hb in Hk. destruct (Z.ltb_spec j k); [lia|reflexivity].
  - intros k Hk. apply Hb in Hk. destruct (Z.ltb_spec i k); [|reflexivity].
    simpl. apply Hmin. lia.
Qed.

Lemma visuals_after_cases (sg : list SignToken) (i : Z) :
  -1 <= i ->
  (visuals_after sg i = [] /\ forall k, i < k -> visual sg k = false)
  \/ (exists j, i < j /\ visual sg j = true
        /\ (forall k, i < k < j -> visual sg k = false)
        /\ visuals_after sg i = j :: visuals_after sg j).
Proof.
  intros Hi. destruct (next_visual_dec sg i Hi) as [(j & Hj & Hv & Hmin)|Hno].
  - right. exists j. repeat split; auto. now apply visuals_after_next.
  - left. split; [now apply visuals_after_nil|exact Hno].
Qed.

Lemma step_Tick_found (m : Machine) (id id' : positive) (ms : Z)
      (cap : list SignToken) (j : Z) :
  find_timer id m = Some (IntervalTimer id' ms cap) ->
  tick_updater cap (currentIndex m) = Ok (j, false) ->
  len (signs_of m) > 0 ->
  step m (Tick id) = Ok (setCurrentIndex j m).
Proof.
  intros Hf Hu Hl. simpl. rewrite Hf. unfold interval_callback. rewrite Hu.
  simpl. f_equal. unfold rerender, timer_deps_changed. simpl.
  rewrite Bool.eqb_reflx, Z.eqb_refl. simpl.
  unfold signs_of in Hl. destruct (data m); [reflexivity|].
  cbv in Hl. discriminate.
Qed.

Lemma last_cons_default (j : Z) (l : list Z) (d : Z) :
  last (j :: l) d = last l j.
Proof.
  revert j d. induction l as [|a l IH]; intros j d; [reflexivity|].
  change (last (j :: a :: l) d) with (last (a :: l) d).
  now rewrite (IH a d), (IH a j).
Qed.

Lemma last_in (l : list Z) (d : Z) : l <> [] -> In (last l d) l.
Proof.
  induction l as [|a l IH]; intros H; [contradiction|].
  destruct l as [|b l]; [now left|]. right. apply IH. discriminate.
Qed.

Lemma last_visual_bound (sg : list SignToken) (i : Z) :
  -1 <= i -> -1 <= last (visuals_after sg i) i.
Proof.
  intros Hi. destruct (visuals_after sg i) as [|j l] eqn:E; [exact Hi|].
  assert (Hin : In (last (j :: l) i) (j :: l)) by (apply last_in; discriminate).
  assert (Hin' : In (last (j :: l) i) (visuals_after sg i))
    by (rewrite E; exact Hin).
  apply filter_In in Hin'. destruct Hin' as [Hin' _].
  apply in_indices in Hin'. lia.
Qed.

Lemma setCurrentIndex_same (m : Machine) : setCurrentIndex (currentIndex m) m = m.
Proof. now destruct m. Qed.

Lemma ticks_trajectory (id : positive) (ms : Z) (cap : list SignToken)
      (vs : list Z) :
  forall m,
    timers_ok m ->
    find_timer id m = Some (IntervalTimer id ms cap) ->
    -1 <= currentIndex m ->
    visuals_after (signs_of m) (currentIndex m) = vs ->
    ticks (List.length vs) id m
    = Ok (vs, setCurrentIndex (last vs (currentIndex m)) m)
    /\ forall k, last vs (currentIndex m) < k -> visual (signs_of m) k = false.
Proof.
  induction vs as [|j vs IH]; intros m Hok Hf Hi Hvs.
  - simpl. rewrite setCurrentIndex_same. split; [reflexivity|].
    destruct (visuals_after_cases (signs_of m) (currentIndex m) Hi)
      as [[_ Hno]|(j & _ & _ & _ & E)]; [exact Hno|congruence].
  - destruct (visuals_after_cases (signs_of m) (currentIndex m) Hi)
      as [[E _]|(j' & Hj & Hv & Hmin & E)]; [congruence|].
    rewrite Hvs in E. injection E as <- Hvs'.
    pose proof (find_timer_in _ _ _ Hf) as [Hin _].
    destruct Hok as [Ho Hl]. destruct (Hl _ _ _ Hin) as (Hms & Hcap & Hp).
    pose proof (visual_range _ _ Hv) as Hr.
    assert (Hu : tick_updater cap (currentIndex m) = Ok (j, false))
      by (rewrite Hcap; now apply tick_updater_found).
    assert (Hs : step m (Tick id) = Ok (setCurrentIndex j m))
      by (eapply step_Tick_found; eauto; lia).
    destruct (IH (setCurrentIndex j m)) as [Ht Hlast].
    + split; [exact Ho|exact Hl].
    + exact Hf.
    + simpl. lia.
    + symmetry. exact Hvs'.
    + rewrite last_cons_default. split; [|exact Hlast].
      change (ticks (List.length (j :: vs)) id m)
        with (m1 <- step m (Tick id) ;;
              r <- ticks (List.length vs) id m1 ;;
              Ok (currentIndex m1 :: fst r, snd r)).
      rewrite Hs. simpl. rewrite Ht. reflexivity.
Qed.

(** X6. A playthrough shows every remaining visual sign once, in order, and
    then stops.  Let interval [id] be live in a machine whose timer table is
    in order.  If the index is at least -1, let [vs] be the indices after
    the current one that hold a visual sign: the first [length vs] ticks
    put the index on the elements of [vs], one after the other, changing
    nothing else; the machine is still Playing on the last of them; the
    next tick leaves the index there, turns the machine to Paused and
    leaves no interval.  If the index is below -1 there is no playthrough:
    the first tick raises. *)
Theorem playthrough_shows_each_sign_once
        (m : Machine) (id : positive) (ms : Z) (cap : list SignToken) :
  timers_ok m ->
  find_timer id m = Some (IntervalTimer id ms cap) ->
  (-1 <= currentIndex m ->
   let vs := visuals_after (signs_of m) (currentIndex m) in
   exists m1 m2,
     ticks (List.length vs) id m = Ok (vs, m1)
     /\ m1 = setCurrentIndex (last vs (currentIndex m)) m
     /\ isPlaying m1 = true
     /\ step m1 (Tick id) = Ok m2
     /\ currentIndex m2 = currentIndex m1
     /\ isPlaying m2 = false
     /\ no_interval (timers m2))
  /\ (currentIndex m < -1 -> step m (Tick id) = TypeError).
Proof.
  intros Hok Hf. split; [|apply (step_Tick_raises m id id ms cap Hf)].
  intros Hi vs.
  destruct (ticks_trajectory id ms cap vs m Hok Hf Hi eq_refl) as [Ht Hlast].
  set (m1 := setCurrentIndex (last vs (currentIndex m)) m) in *.
  pose proof (find_timer_in _ _ _ Hf) as [Hin _].
  pose proof Hok as [Ho Hl]. destruct (Hl _ _ _ Hin) as (Hms & Hcap & Hp).
  assert (Hi1 : -1 <= currentIndex m1) by (apply last_visual_bound, Hi).
  assert (Hu : tick_updater cap (currentIndex m1) = Ok (currentIndex m1, true)).
  { rewrite Hcap. apply tick_updater_none; [exact Hi1|exact Hlast]. }
  destruct (step_Tick_ok m1 id id ms cap _ true Hf Hu)
    as (m2 & Hs & _ & Hi2 & Hp2 & _).
  exists m1, m2. split; [exact Ht|]. split; [reflexivity|]. split; [exact Hp|].
  split; [exact Hs|]. split; [exact Hi2|]. split; [exact Hp2|].
  apply paused_no_interval; [|exact Hp2].
  eapply step_timers_ok; [|exact Hs]. split; [exact Ho|exact Hl].
Qed.

Lemma m_spelled_playing_ok : timers_ok m_spelled_playing.
Proof.
  apply (step_timers_ok (mount (result_of spelled)) Play);
    [apply mount_timers_ok|reflexivity].
Qed.

Lemma playthrough_shows_each_sign_once_witness :
  exists m1 m2,
    ticks 3 2 m_spelled_playing = Ok ([2; 3; 5], m1)
    /\ m1 = setCurrentIndex 5 m_spelled_playing
    /\ isPlaying m1 = true
    /\ step m1 (Tick 2) = Ok m2
    /\ currentIndex m2 = currentIndex m1
    /\ isPlaying m2 = false
    /\ no_interval (timers m2).
Proof.
  apply (proj1 (playthrough_shows_each_sign_once m_spelled_playing 2 1000
                  spelled m_spelled_playing_ok eq_refl)).
  vm_compute. discriminate.
Defined.

(** ** Stepping forth and back *)

Lemma rerender_index_only (m : Machine) (j : Z) :
  len (signs_of m) > 0 ->
  rerender m (setCurrentIndex j m) = setCurrentIndex j m.
Proof.
  intros Hl. unfold rerender, timer_deps_changed. simpl.
  rewrite Bool.eqb_reflx, Z.eqb_refl. simpl.
  unfold signs_of in Hl. destruct (data m); [reflexivity|].
  cbv in Hl. discriminate.
Qed.

Lemma step_Next_found (m : Machine) (j : Z) :
  nextSign_updater (signs_of m) (currentIndex m) = Ok (j, false) ->
  len (signs_of m) > 0 ->
  step m Next = Ok (setCurrentIndex j m).
Proof.
  intros Hu Hl. simpl. unfold nextSign. rewrite Hu. simpl.
  now rewrite rerender_index_only.
Qed.

Lemma step_Prev_found (m : Machine) (r : Z) :
  prevSign_updater (signs_of m) (currentIndex m) = Ok r ->
  len (signs_of m) > 0 ->
  step m Prev = Ok (setCurrentIndex r m).
Proof.
  intros Hu Hl. simpl. unfold prevSign. rewrite Hu. simpl.
  now rewrite rerender_index_only.
Qed.

(** X7. [prev] undoes [next]: from index 0 or from a visual sign, when some
    visual sign follows, [next] moves to the nearest one and [prev] then
    brings the machine back to the very state it started from. *)
Theorem prev_undoes_next (m : Machine) :
  (currentIndex m = 0 \/ visual (signs_of m) (currentIndex m) = true) ->
  (exists k, currentIndex m < k /\ visual (signs_of m) k = true) ->
  exists m1, step m Next = Ok m1
    /\ currentIndex m < currentIndex m1
    /\ visual (signs_of m) (currentIndex m1) = true
    /\ step m1 Prev = Ok m.
Proof.
  intros Hstart (k & Hk & Hvk).
  set (i := currentIndex m) in *. set (sg := signs_of m) in *.
  assert (Hi : 0 <= i).
  { destruct Hstart as [->|Hv]; [lia|]. apply visual_range in Hv. lia. }
  pose proof (visual_range _ _ Hvk) as Hkr.
  destruct (next_visual_dec sg i ltac:(lia)) as [(j & Hj & Hv & Hmin)|Hno];
    [|rewrite Hno in Hvk by exact Hk; discriminate].
  pose proof (visual_range _ _ Hv) as Hjr.
  assert (Hu : nextSign_updater sg i = Ok (j, false))
    by (apply nextSign_updater_found; auto; lia).
  exists (setCurrentIndex j m).
  split; [apply step_Next_found; [exact Hu|fold sg; lia]|].
  split; [exact Hj|]. split; [exact Hv|].
  destruct (prevSign_updater_spec sg j ltac:(lia))
    as (r & Hur & H0 & _ & Hlt & Hsp & Hvis).
  assert (Hr : r = i).
  { destruct (Z.lt_trichotomy r i) as [Hc|[Hc|Hc]]; [|exact Hc|].
    - destruct Hstart as [Hz|Hvi]; [lia|].
      rewrite Hsp in Hvi by lia. discriminate.
    - rewrite Hmin in Hvis by lia. specialize (Hvis ltac:(lia)). discriminate. }
  subst r.
  rewrite (step_Prev_found (setCurrentIndex j m) i);
    [|exact Hur|change (len sg > 0); lia].
  f_equal. exact (setCurrentIndex_same m).
Qed.

Lemma prev_undoes_next_witness :
  exists m1, step m_spelled Next = Ok m1
    /\ currentIndex m_spelled < currentIndex m1
    /\ visual (signs_of m_spelled) (currentIndex m1) = true
    /\ step m1 Prev = Ok m_spelled.
Proof.
  apply (prev_undoes_next m_spelled).
  - left. reflexivity.
  - exists 2. split; reflexivity.
Defined.

(** X8. [next] undoes [prev]: from a visual sign beyond index 0, [prev]
    moves back (to the nearest visual sign before it, or to index 0) and
    [next] then brings the machine back to the very state it started from. *)
Theorem next_undoes_prev (m : Machine) :
  0 < currentIndex m ->
  visual (signs_of m) (currentIndex m) = true ->
  exists m1, step m Prev = Ok m1
    /\ 0 <= currentIndex m1 < currentIndex m
    /\ step m1 Next = Ok m.
Proof.
  intros Hpos Hv.
  set (i := currentIndex m) in *. set (sg := signs_of m) in *.
  pose proof (visual_range _ _ Hv) as Hir.
  destruct (prevSign_updater_spec sg i ltac:(lia))
    as (r & Hur & H0 & _ & Hlt & Hsp & Hvis).
  specialize (Hlt Hpos).
  exists (setCurrentIndex r m).
  split; [apply step_Prev_found; [exact Hur|fold sg; lia]|].
  split; [simpl; lia|].
  assert (Hu : nextSign_updater sg r = Ok (i, false)).
  { apply nextSign_updater_found; auto; try lia. }
  rewrite (step_Next_found (setCurrentIndex r m) i);
    [|exact Hu|change (len sg > 0); lia].
  f_equal. exact (setCurrentIndex_same m).
Qed.

Lemma next_undoes_prev_witness :
  exists m1, step (setCurrentIndex 5 m_spelled) Prev = Ok m1
    /\ 0 <= currentIndex m1 < currentIndex (setCurrentIndex 5 m_spelled)
    /\ step m1 Next = Ok (setCurrentIndex 5 m_spelled).
Proof.
  apply (next_undoes_prev (setCurrentIndex 5 m_spelled)).
  - reflexivity.
  - reflexivity.
Defined.

(** ** Replay *)

Lemma replay_state (m : Machine) :
  data (replay m) = data m /\ currentIndex (replay m) = 0
  /\ isPlaying (replay m) = false /\ speed (replay m) = speed m
  /\ intervalRef (replay m) = None
  /\ timers (replay m) = timers (pause m) ++ [PlayTimeout (nextTimer m) 300].
Proof.
  unfold replay, pause. simpl.
  destruct (intervalRef m) eqn:E; repeat split; exact E.
Qed.

(** X9. Replay never fails.  It leaves the machine Paused at index 0 with no
    interval running and with one new one-shot timer of 300 ms; when that
    timer fires the machine is Playing at index 0, at the speed selected
    before, and on a non-empty sequence the interval that advances it is
    running. *)
Theorem replay_restarts_from_the_first_sign (m : Machine) :
  consistent m ->
  exists m1 m2,
    step m Replay = Ok m1
    /\ currentIndex m1 = 0 /\ isPlaying m1 = false
    /\ no_interval (timers m1)
    /\ find_timer (nextTimer m) m1 = Some (PlayTimeout (nextTimer m) 300)
    /\ step m1 (Fire (nextTimer m)) = Ok m2
    /\ currentIndex m2 = 0 /\ isPlaying m2 = true /\ speed m2 = speed m
    /\ data m2 = data m
    /\ (len (signs_of m) > 0 ->
        exists id, intervalRef m2 = Some id
          /\ In (IntervalTimer id (speed m) (signs_of m)) (timers m2)).
Proof.
  intros [Hok ((Hft & Hfr & Hfa) & _)].
  destruct (replay_state m) as (Hd & Hi & Hp & Hsp & Href & Htm).
  assert (E1 : rerender m (replay m) = replay m).
  { destruct (rerender_paused m (replay m) Hp) as [E|(r & Hr & _)];
      [exact E|congruence]. }
  set (t := nextTimer m) in *.
  assert (Hfind : find_timer t (replay m) = Some (PlayTimeout t 300)).
  { apply (find_timer_unique (replay m) (PlayTimeout t 300)).
    - rewrite Htm. apply in_or_app. right. now left.
    - intros y Hy Hid. rewrite Htm in Hy. apply in_app_or in Hy.
      destruct Hy as [Hy|[<-|[]]]; [|reflexivity].
      apply pause_timers_sub, Hft in Hy. simpl in Hid. fold t in Hy. lia. }
  assert (Hs1 : step m Replay = Ok (replay m)) by (simpl; now rewrite E1).
  assert (Hok1 : timers_ok (replay m))
    by (eapply step_timers_ok; [exact Hok|exact Hs1]).
  destruct (step_Fire_ok (replay m) t 300 Hfind)
    as (m2 & Hs2 & Hp2 & Hi2 & Hd2 & Hsp2).
  exists (replay m), m2.
  split; [exact Hs1|]. split; [exact Hi|]. split; [exact Hp|].
  split; [now apply paused_no_interval|]. split; [exact Hfind|].
  split; [exact Hs2|]. split; [congruence|]. split; [exact Hp2|].
  split; [congruence|]. split; [congruence|].
  intros Hlen. simpl in Hs2. rewrite Hfind in Hs2. injection Hs2 as <-.
  set (c := clearTimer t (replay m)).
  assert (Ech : timer_deps_changed c (play c) = true).
  { unfold timer_deps_changed. simpl. unfold replay, pause. simpl.
    destruct (intervalRef m); reflexivity. }
  unfold rerender. rewrite Ech.
  set (c2 := timer_cleanup (play c)).
  assert (Hc2 : isPlaying c2 = true /\ speed c2 = speed m
                /\ signs_of c2 = signs_of m).
  { unfold c2, signs_of.
    destruct (timer_cleanup_state (play c)) as (-> & _ & -> & -> & _).
    change (data (play c)) with (data (replay m)).
    change (speed (play c)) with (speed (replay m)).
    rewrite Hd, Hsp. auto. }
  destruct Hc2 as (Hpc & Hsc & Hgc).
  destruct (timer_effect_on c2 Hpc) as [Hr Hin]; [now rewrite Hgc|].
  exists (nextTimer c2). split; [exact Hr|]. now rewrite Hsc, Hgc in Hin.
Qed.

Lemma replay_restarts_from_the_first_sign_witness :
  exists m1 m2,
    step m_spelled_playing Replay = Ok m1
    /\ currentIndex m1 = 0 /\ isPlaying m1 = false
    /\ no_interval (timers m1)
    /\ find_timer 3 m1 = Some (PlayTimeout 3 300)
    /\ step m1 (Fire 3) = Ok m2
    /\ currentIndex m2 = 0 /\ isPlaying m2 = true
    /\ speed m2 = speed m_spelled_playing
    /\ data m2 = data m_spelled_playing
    /\ (len (signs_of m_spelled_playing) > 0 ->
        exists id, intervalRef m2 = Some id
          /\ In (IntervalTimer id (speed m_spelled_playing)
                               (signs_of m_spelled_playing)) (timers m2)).
Proof.
  apply (replay_restarts_from_the_first_sign m_spelled_playing).
  apply (step_consistent (mount (result_of spelled)) Play);
    [apply mount_consistent|reflexivity].
Defined.

(** ** The speed menu *)

Lemma step_speed (m : Machine) (e : Event) (m' : Machine) :
  step m e = Ok m' ->
  speed m' = match e with SetSpeed ms => ms | _ => speed m end.
Proof.
  intros Hs. destruct e; simpl in Hs.
  - injection Hs as <-. now destruct (rerender_state m (play m)) as (_ & _ & _ & -> & _).
  - injection Hs as <-.
    destruct (rerender_state m (pause m)) as (_ & _ & _ & -> & _).
    unfold pause. simpl. destruct (intervalRef m); reflexivity.
  - unfold nextSign in Hs.
    destruct (nextSign_updater _ _) as [[i p]| |]; simpl in Hs; try discriminate.
    injection Hs as <-.
    match goal with |- context [rerender ?a ?b] =>
      destruct (rerender_state a b) as (_ & _ & _ & -> & _) end.
    destruct p; reflexivity.
  - unfold prevSign in Hs.
    destruct (prevSign_updater _ _) as [i| |]; simpl in Hs; try discriminate.
    injection Hs as <-.
    now destruct (rerender_state m (setCurrentIndex i m)) as (_ & _ & _ & -> & _).
  - injection Hs as <-.
    destruct (rerender_state m (replay m)) as (_ & _ & _ & -> & _).
    apply replay_state.
  - injection Hs as <-.
    now destruct (rerender_state m (goToSign index m)) as (_ & _ & _ & -> & _).
  - injection Hs as <-.
    now destruct (rerender_state m (setSpeed ms m)) as (_ & _ & _ & -> & _).
  - injection Hs as <-. apply load_data_speed.
  - destruct (find_timer id m) as [[id' ms cap|]|] eqn:Ef;
      try (injection Hs as <-; reflexivity).
    unfold interval_callback in Hs.
    destruct (tick_updater cap (currentIndex m)) as [[i p]| |];
      simpl in Hs; try discriminate.
    destruct p; simpl in Hs; injection Hs as <-;
      match goal with |- context [rerender ?a ?b] =>
        destruct (rerender_state a b) as (_ & _ & _ & -> & _) end.
    + destruct (intervalRef m); reflexivity.
    + reflexivity.
  - destruct (find_timer id m) as [[|id' ms]|] eqn:Ef;
      try (injection Hs as <-; reflexivity).
    injection Hs as <-.
    now destruct (rerender_state (clearTimer id m) (play (clearTimer id m)))
      as (_ & _ & _ & -> & _).
Qed.

Lemma run_speed_menu (es : list Event) (m m' : Machine) :
  forallb from_menu es = true -> In (speed m) speed_menu ->
  run m es = Ok m' -> In (speed m') speed_menu.
Proof.
  revert m. induction es as [|e es IH]; intros m Hes Hm Hr; simpl in *.
  - now injection Hr as <-.
  - apply andb_true_iff in Hes. destruct Hes as [He Hes].
    destruct (step m e) as [m1| |] eqn:Es; simpl in Hr; try discriminate.
    apply (IH m1); auto. rewrite (step_speed _ _ _ Es).
    destruct e; auto.
    change (existsb (Z.eqb ms) speed_menu = true) in He.
    apply existsb_exists in He.
    destruct He as (x & Hx & Heq). apply Z.eqb_eq in Heq. now subst.
Qed.

(** X10. As long as every speed change comes from the speed menu, the speed
    is one of its four values, 2000, 1000, 600 or 400 ms, at every point of
    every run from a mount, and so is the period of every live interval: no
    interval ever runs with a zero or negative period. *)
Theorem speed_is_a_menu_value
        (d : option TranslationResult) (es : list Event) (m : Machine) :
  forallb from_menu es = true ->
  run (mount d) es = Ok m ->
  In (speed m) speed_menu
  /\ 400 <= speed m <= 2000
  /\ forall id ms cap, In (IntervalTimer id ms cap) (timers m) ->
                       In ms speed_menu /\ 0 < ms.
Proof.
  intros Hes Hr.
  assert (Hm : In (speed m) speed_menu).
  { apply (run_speed_menu es (mount d)); auto. rewrite mount_eq.
    destruct (autoStart_effect_state (initial d)) as (_ & _ & _ & -> & _).
    simpl. auto. }
  assert (Hb : forall x, In x speed_menu -> 400 <= x <= 2000).
  { intros x Hx. simpl in Hx. lia. }
  split; [exact Hm|]. split; [apply Hb, Hm|].
  intros id ms cap Hin.
  pose proof (run_timers_ok es (mount d) m (mount_timers_ok d) Hr) as [_ Hl].
  destruct (Hl _ _ _ Hin) as (-> & _). split; [exact Hm|]. apply Hb in Hm. lia.
Qed.

Lemma speed_is_a_menu_value_witness :
  exists m,
    run (mount (result_of spelled)) [SetSpeed 600; Play; Tick 2; SetSpeed 400]
    = Ok m
    /\ In (speed m) speed_menu
    /\ 400 <= speed m <= 2000
    /\ forall id ms cap, In (IntervalTimer id ms cap) (timers m) ->
                         In ms speed_menu /\ 0 < ms.
Proof.
  eexists. split; [reflexivity|].
  apply (speed_is_a_menu_value (result_of spelled)
           [SetSpeed 600; Play; Tick 2; SetSpeed 400]); reflexivity.
Defined.

(** ** [next] and the tick against the list of visual signs *)

(** X11. From any index not below -1, [next] never fails and keeps data
    and speed.  If a visual sign follows the index, the new index is the
    first of them and [isPlaying] is unchanged.  If none follows, the index
    is unchanged, and the machine is turned to Paused only when the index is
    at or beyond the last one: before the last index, with only Space tokens
    after it, [isPlaying] stays as it was. *)
Theorem next_goes_to_the_first_visual_sign_after (m : Machine) :
  -1 <= currentIndex m ->
  exists m', step m Next = Ok m'
    /\ data m' = data m /\ speed m' = speed m
    /\ match visuals_after (signs_of m) (currentIndex m) with
       | j :: _ => currentIndex m' = j /\ isPlaying m' = isPlaying m
       | [] => currentIndex m' = currentIndex m
               /\ isPlaying m'
                  = isPlaying m && (currentIndex m <? len (signs_of m) - 1)
       end.
Proof.
  intros Hi.
  destruct (next_spec m Hi) as (m' & Hs & Hd & Hsp & Hfound & Hnone).
  exists m'. split; [exact Hs|]. split; [exact Hd|]. split; [exact Hsp|].
  destruct (visuals_after_cases (signs_of m) (currentIndex m) Hi)
    as [[-> Hno]|(j & Hj & Hv & Hmin & ->)].
  - destruct (Hnone Hno) as (Hidx & Hend & Hmid). split; [exact Hidx|].
    destruct (Z.ltb_spec (currentIndex m) (len (signs_of m) - 1)).
    + rewrite andb_true_r. apply Hmid. lia.
    + rewrite andb_false_r. apply Hend. lia.
  - now apply Hfound.
Qed.

Lemma next_goes_to_the_first_visual_sign_after_witness :
  exists m', step m_spelled_playing Next = Ok m'
    /\ currentIndex m' = 2 /\ isPlaying m' = true.
Proof.
  destruct (next_goes_to_the_first_visual_sign_after m_spelled_playing)
    as (m' & Hs & _ & _ & Hi & Hp).
  - vm_compute. discriminate.
  - exists m'. split; [exact Hs|]. split; [exact Hi|exact Hp].
Defined.

(** X12. A tick of a live interval, from any index not below -1, never
    fails and keeps data and speed.  If a visual sign of the sequence the
    interval was created for follows the index, the new index is the first
    of them and [isPlaying] is unchanged; if none follows, the index is
    unchanged and the machine is turned to Paused. *)
Theorem tick_goes_to_the_first_visual_sign_after
        (m : Machine) (id id' : positive) (ms : Z) (cap : list SignToken) :
  find_timer id m = Some (IntervalTimer id' ms cap) ->
  -1 <= currentIndex m ->
  exists m', step m (Tick id) = Ok m'
    /\ data m' = data m /\ speed m' = speed m
    /\ match visuals_after cap (currentIndex m) with
       | j :: _ => currentIndex m' = j /\ isPlaying m' = isPlaying m
       | [] => currentIndex m' = currentIndex m /\ isPlaying m' = false
       end.
Proof.
  intros Hf Hi.
  destruct (visuals_after_cases cap (currentIndex m) Hi)
    as [[-> Hno]|(j & Hj & Hv & Hmin & ->)].
  - pose proof (tick_updater_none cap (currentIndex m) Hi Hno) as Hu.
    destruct (step_Tick_ok m id id' ms cap _ true Hf Hu)
      as (m' & Hs & Hd & Hidx & Hp & Hsp).
    exists m'. auto.
  - pose proof (tick_updater_found cap (currentIndex m) j Hi Hj Hv Hmin) as Hu.
    destruct (step_Tick_ok m id id' ms cap j false Hf Hu)
      as (m' & Hs & Hd & Hidx & Hp & Hsp).
    exists m'. auto.
Qed.

Lemma tick_goes_to_the_first_visual_sign_after_witness :
  exists m', step m_spelled_playing (Tick 2) = Ok m'
    /\ currentIndex m' = 2 /\ isPlaying m' = true.
Proof.
  destruct (tick_goes_to_the_first_visual_sign_after
              m_spelled_playing 2 2 1000 spelled)
    as (m' & Hs & _ & _ & Hi & Hp).
  - reflexivity.
  - vm_compute. discriminate.
  - exists m'. split; [exact Hs|]. split; [exact Hi|exact Hp].
Defined.

(** X13. A tick of the running interval and the command [next] have the
    same outcome in every situation but one.  Below index -1 both raise.
    From an index that is at least -1 and is at or beyond the last one, or
    that some visual sign follows, both succeed and lead to the same index,
    [isPlaying], data and speed.  In the one remaining situation, an index
    of at least -1 before the last one with only Space tokens after it,
    both succeed and keep the index, but [next] leaves [isPlaying] as it is
    while the tick sets it to false. *)
Theorem tick_and_next_agree_unless_spaces_trail
        (m : Machine) (id id' : positive) (ms : Z) :
  find_timer id m = Some (IntervalTimer id' ms (signs_of m)) ->
  (currentIndex m < -1 ->
   step m Next = TypeError /\ step m (Tick id) = TypeError)
  /\ (-1 <= currentIndex m ->
      (len (signs_of m) - 1 <= currentIndex m
       \/ exists j, currentIndex m < j /\ visual (signs_of m) j = true) ->
      exists m1 m2, step m Next = Ok m1 /\ step m (Tick id) = Ok m2
        /\ currentIndex m1 = currentIndex m2 /\ isPlaying m1 = isPlaying m2
        /\ data m1 = data m2 /\ speed m1 = speed m2)
  /\ (-1 <= currentIndex m < len (signs_of m) - 1 ->
      (forall k, currentIndex m < k -> visual (signs_of m) k = false) ->
      exists m1 m2, step m Next = Ok m1 /\ step m (Tick id) = Ok m2
        /\ currentIndex m1 = currentIndex m
        /\ currentIndex m2 = currentIndex m
        /\ isPlaying m1 = isPlaying m /\ isPlaying m2 = false).
Proof.
  intros Hf. split; [|split].
  - intros Hlow. split; [now apply step_Next_raises|].
    now apply (step_Tick_raises m id id' ms (signs_of m)).
  - intros Hp Hcase.
    destruct (next_spec m Hp) as (m1 & Hs1 & Hd1 & Hsp1 & Hfound1 & Hnone1).
    destruct (tick_spec m id id' ms Hf Hp)
      as (m2 & Hs2 & Hd2 & Hsp2 & Hfound2 & Hnone2).
    exists m1, m2. split; [exact Hs1|]. split; [exact Hs2|].
    assert (Hpair : currentIndex m1 = currentIndex m2
                    /\ isPlaying m1 = isPlaying m2).
    { destruct (next_visual_dec (signs_of m) (currentIndex m) Hp)
        as [(j & Hj & Hv & Hmin)|Hnone].
      - destruct (Hfound1 j Hj Hv Hmin) as [-> ->].
        destruct (Hfound2 j Hj Hv Hmin) as [-> ->]. auto.
      - destruct Hcase as [Hend|(j & Hj & Hv)].
        + destruct (Hnone1 Hnone) as (-> & Hp1 & _).
          destruct (Hnone2 Hnone) as (-> & ->). auto.
        + rewrite Hnone in Hv by assumption. discriminate. }
    destruct Hpair as [Hi Hpl]. repeat split; congruence.
  - intros [Hp Hlt] Hnone.
    destruct (next_spec m Hp) as (m1 & Hs1 & _ & _ & _ & Hnone1).
    destruct (tick_spec m id id' ms Hf Hp) as (m2 & Hs2 & _ & _ & _ & Hnone2).
    destruct (Hnone1 Hnone) as (Hi1 & _ & Hp1).
    destruct (Hnone2 Hnone) as (Hi2 & Hp2).
    exists m1, m2. split; [exact Hs1|]. split; [exact Hs2|].
    split; [exact Hi1|]. split; [exact Hi2|]. split; [exact (Hp1 Hlt)|exact Hp2].
Qed.

Lemma tick_and_next_agree_unless_spaces_trail_witness :
  (exists m1 m2,
     step m_spelled_playing Next = Ok m1
     /\ step m_spelled_playing (Tick 2) = Ok m2
     /\ currentIndex m1 = currentIndex m2 /\ isPlaying m1 = isPlaying m2
     /\ data m1 = data m2 /\ speed m1 = speed m2)
  /\ (exists m1 m2,
        step m_trailing_playing Next = Ok m1
        /\ step m_trailing_playing (Tick 2) = Ok m2
        /\ currentIndex m1 = 0 /\ currentIndex m2 = 0
        /\ isPlaying m1 = true /\ isPlaying m2 = false).
Proof.
  split.
  - destruct (tick_and_next_agree_unless_spaces_trail m_spelled_playing
                2 2 1000 eq_refl) as (_ & Hagree & _).
    apply Hagree.
    + vm_compute. discriminate.
    + right. exists 2. split; reflexivity.
  - destruct (tick_and_next_agree_unless_spaces_trail m_trailing_playing
                2 2 1000 eq_refl) as (_ & _ & Hpart).
    apply Hpart.
    + vm_compute. split; [discriminate|reflexivity].
    + exact trailing_gap_no_visual_after_0.
Defined.

(** ** When a command raises *)

(** X14. The only failure of the component is the [TypeError] of reading
    [.type] of an undefined element, and it occurs exactly out of range:
    [next], and a tick of a live interval, raise exactly when the index is
    below -1; [prev] raises exactly when the index is above 1 and above the
    length of the sequence; play, pause, replay, seek, setSpeed, a load and
    the firing of a one-shot timer never raise; and where a transition does
    not raise it succeeds. *)
Theorem raises_exactly_out_of_range (m : Machine) :
  (step m Next = TypeError <-> currentIndex m < -1)
  /\ (step m Prev = TypeError
      <-> 1 < currentIndex m /\ len (signs_of m) < currentIndex m)
  /\ (forall id id' ms cap,
        find_timer id m = Some (IntervalTimer id' ms cap) ->
        (step m (Tick id) = TypeError <-> currentIndex m < -1))
  /\ (forall e, step m e = TypeError ->
        e = Next \/ e = Prev \/ exists id, e = Tick id)
  /\ (forall e, step m e <> TypeError -> exists m', step m e = Ok m').
Proof.
  split; [|split; [|split; [|split]]].
  - split; [|apply step_Next_raises]. intros Hs.
    destruct (Z.lt_ge_cases (currentIndex m) (-1)) as [Hc|Hc]; [exact Hc|].
    destruct (next_spec m Hc) as (m' & Hs' & _). congruence.
  - split; [|intros [H1 H2]; now apply step_Prev_raises]. intros Hs.
    destruct (Z.le_gt_cases (currentIndex m) (len (signs_of m))) as [Hc|Hc].
    + destruct (prevSign_updater_spec _ _ Hc) as (r & Hu & _).
      destruct (step_Prev_ok m r Hu) as (m' & Hs' & _). congruence.
    + split; [|exact Hc].
      destruct (Z.le_gt_cases (currentIndex m) 1) as [Hc1|Hc1]; [|exact Hc1].
      exfalso. simpl in Hs. unfold prevSign, prevSign_updater in Hs.
      destruct (Z.leb_spec (currentIndex m) 0); [discriminate|].
      replace (currentIndex m) with 1 in Hs by lia. discriminate.
  - intros id id' ms cap Hf. split; [|now apply (step_Tick_raises m id id' ms cap)].
    intros Hs.
    destruct (Z.lt_ge_cases (currentIndex m) (-1)) as [Hc|Hc]; [exact Hc|].
    destruct (next_visual_dec cap (currentIndex m) Hc)
      as [(j & Hj & Hv & Hmin)|Hno].
    + pose proof (tick_updater_found cap _ j Hc Hj Hv Hmin) as Hu.
      destruct (step_Tick_ok m id id' ms cap j false Hf Hu) as (m' & Hs' & _).
      congruence.
    + pose proof (tick_updater_none cap _ Hc Hno) as Hu.
      destruct (step_Tick_ok m id id' ms cap _ true Hf Hu) as (m' & Hs' & _).
      congruence.
  - intros e Hs. destruct e; simpl in Hs; try discriminate; eauto.
    destruct (find_timer id m) as [[|]|]; discriminate.
  - intros e Hs. pose proof (step_fuel m e) as Hf.
    destruct (step m e) as [m'| |]; [eauto|contradiction|contradiction].
Qed.

(** ** From a load to the end of the slideshow *)

Lemma load_autostart_pending (m : Machine) (rr : TranslationResult) :
  ids_fresh m -> 0 < len (signs rr) ->
  exists t, autoStart (load (Some rr) m) = Some t
    /\ find_timer t (load (Some rr) m) = Some (PlayTimeout t 500).
Proof.
  intros Hfresh Hrr.
  rewrite (load_eq_changed _ _ (prop_changes_result m rr)). set (d := Some rr).
  set (m1 := set_data d m).
  set (m2 := autoStart_cleanup (timer_cleanup m1)).
  set (m3 := timer_effect m2).
  set (m4 := autoStart_effect (reset_effect m3)).
  assert (Hf3 : ids_fresh m3).
  { apply ids_fresh_timer_effect, ids_fresh_autoStart_cleanup,
      ids_fresh_timer_cleanup.
    apply (ids_fresh_state m); simpl; auto. }
  assert (Hd3 : data (reset_effect m3) = d).
  { change (data m3 = d). unfold m3.
    destruct (timer_effect_state m2) as (-> & _). unfold m2.
    destruct (autoStart_cleanup_state (timer_cleanup m1)) as (-> & _).
    now destruct (timer_cleanup_state m1) as (-> & _). }
  assert (Hp4 : isPlaying m4 = false).
  { unfold m4.
    now destruct (autoStart_effect_state (reset_effect m3)) as (_ & _ & -> & _). }
  assert (Hcases : load_changed d m = m4
           \/ exists r, intervalRef m4 = Some r
                        /\ load_changed d m = clearTimer r m4)
    by (apply (rerender_paused m1 m4 Hp4)).
  assert (E4 : m4 = set_autoStart (Some (nextTimer m3))
            (snd (addTimer (fun id => PlayTimeout id 500) (reset_effect m3)))).
  { unfold m4, autoStart_effect. rewrite Hd3. unfold d.
    rewrite Z.gtb_ltb. destruct (Z.ltb_spec 0 (len (signs rr))); [reflexivity|lia]. }
  set (t := nextTimer m3) in *.
  assert (Hin4 : In (PlayTimeout t 500) (timers m4)).
  { rewrite E4. simpl. apply in_or_app. right. now left. }
  assert (Hu4 : forall y, In y (timers m4) -> timer_id y = t ->
                y = PlayTimeout t 500).
  { intros y Hy Hid. rewrite E4 in Hy. simpl in Hy.
    apply in_app_or in Hy. destruct Hy as [Hy|[<-|[]]]; [|reflexivity].
    destruct Hf3 as (Ht & _). apply Ht in Hy. fold t in Hy. lia. }
  assert (Hr4 : forall r, intervalRef m4 = Some r -> r <> t).
  { intros r Er. rewrite E4 in Er. simpl in Er.
    destruct Hf3 as (_ & Hr & _). apply Hr in Er. fold t in Er. lia. }
  exists t. split.
  - destruct Hcases as [->|(r & _ & ->)]; rewrite E4; reflexivity.
  - destruct Hcases as [->|(r & Er & ->)].
    + apply (find_timer_unique m4 (PlayTimeout t 500)); auto.
    + apply (find_timer_unique (clearTimer r m4) (PlayTimeout t 500)).
      * apply in_clearTimer. split; [exact Hin4|]. simpl.
        intros <-. now apply (Hr4 t).
      * intros y Hy. apply in_clearTimer in Hy. apply Hu4. tauto.
Qed.

(** X15. A loaded result is played through.  Load into any machine reached
    from a mount a result with at least one sign: the load schedules the
    auto-start; when it fires the machine is Playing at index 0 with its
    interval running; the ticks of that interval then put the index on each
    visual sign after index 0, once and in order; and one more tick leaves
    the index on the last of them, Paused, with no interval left. *)
Theorem loaded_result_plays_through (m : Machine) (rr : TranslationResult) :
  sound m -> 0 < len (signs rr) ->
  let vs := visuals_after (signs rr) 0 in
  exists t m1 m2 id m3 m4,
    step m (Load (Some rr)) = Ok m1
    /\ autoStart m1 = Some t
    /\ step m1 (Fire t) = Ok m2
    /\ currentIndex m2 = 0 /\ isPlaying m2 = true
    /\ intervalRef m2 = Some id
    /\ ticks (List.length vs) id m2 = Ok (vs, m3)
    /\ isPlaying m3 = true
    /\ step m3 (Tick id) = Ok m4
    /\ currentIndex m4 = last vs 0
    /\ isPlaying m4 = false
    /\ no_interval (timers m4).
Proof.
  intros Hsound Hlen vs.
  set (m1 := load (Some rr) m).
  assert (Hs1 : step m (Load (Some rr)) = Ok m1) by reflexivity.
  pose proof (step_sound _ _ _ Hsound Hs1) as Hsound1.
  destruct (load_state (Some rr) m (prop_changes_result m rr))
    as (Hd1 & Hi1 & Hp1 & _).
  destruct (load_autostart_pending m rr) as (t & Ha & Hfind);
    [apply Hsound|exact Hlen|].
  destruct (step_Fire_ok m1 t 500 Hfind) as (m2 & Hs2 & Hp2 & Hi2 & Hd2 & _).
  pose proof (step_sound _ _ _ Hsound1 Hs2) as ((Hok2 & _) & Hu2 & Hdr2).
  assert (Hsg2 : signs_of m2 = signs rr).
  { unfold signs_of. rewrite Hd2. unfold m1. now rewrite Hd1. }
  destruct (Hdr2 Hp2) as (id & Href & Hin); [rewrite Hsg2; lia|].
  assert (Hf2 : find_timer id m2
                = Some (IntervalTimer id (speed m2) (signs_of m2))).
  { apply (find_timer_unique m2 _ Hin).
    intros y Hy Hid. eapply unique_timer; eauto. }
  assert (Hidx2 : currentIndex m2 = 0) by (rewrite Hi2; exact Hi1).
  destruct (ticks_trajectory id (speed m2) (signs_of m2) vs m2 Hok2 Hf2)
    as [Ht Hlast].
  { rewrite Hidx2. lia. }
  { rewrite Hsg2, Hidx2. reflexivity. }
  rewrite Hidx2 in Ht, Hlast.
  set (m3 := setCurrentIndex (last vs 0) m2) in *.
  assert (Hb : -1 <= last vs 0) by (apply last_visual_bound; lia).
  assert (Hu : tick_updater (signs_of m2) (currentIndex m3)
               = Ok (currentIndex m3, true))
    by (apply tick_updater_none; [exact Hb|exact Hlast]).
  destruct (step_Tick_ok m3 id id (speed m2) (signs_of m2) _ true Hf2 Hu)
    as (m4 & Hs4 & _ & Hi4 & Hp4 & _).
  exists t, m1, m2, id, m3, m4.
  split; [exact Hs1|]. split; [exact Ha|]. split; [exact Hs2|].
  split; [exact Hidx2|]. split; [exact Hp2|]. split; [exact Href|].
  split; [exact Ht|]. split; [exact Hp2|]. split; [exact Hs4|].
  split; [exact Hi4|]. split; [exact Hp4|].
  apply paused_no_interval; [|exact Hp4].
  eapply step_timers_ok; [|exact Hs4].
  destruct Hok2 as [Ho Hl]. split; [exact Ho|exact Hl].
Qed.

Lemma loaded_result_plays_through_witness :
  exists t m1 m2 id m3 m4,
    step m_three_playing (Load (result_of spelled)) = Ok m1
    /\ autoStart m1 = Some t
    /\ step m1 (Fire t) = Ok m2
    /\ currentIndex m2 = 0 /\ isPlaying m2 = true
    /\ intervalRef m2 = Some id
    /\ ticks 3 id m2 = Ok ([2; 3; 5], m3)
    /\ isPlaying m3 = true
    /\ step m3 (Tick id) = Ok m4
    /\ currentIndex m4 = 5
    /\ isPlaying m4 = false
    /\ no_interval (timers m4).
Proof.
  apply (loaded_result_plays_through m_three_playing
           (mkResult "" [] spelled 4)).
  - apply (run_sound [Play] (mount (result_of three_signs)));
      [apply mount_sound|reflexivity].
  - reflexivity.
Defined.

(** ** The play button *)

(** X16. The middle button always performs the action its title names, and
    it toggles: a click never fails, flips [isPlaying], keeps index, speed
    and data, and turns the title into the other one; after a second click
    [isPlaying] is back where it was.  On a machine reached from a mount, a
    click that starts the playback of a non-empty sequence leaves its
    interval running, and a click that pauses leaves none. *)
Theorem play_button_toggles
        (d : option TranslationResult) (es : list Event) (m : Machine) :
  run (mount d) es = Ok m ->
  exists m1 m2,
    step m (snd (play_button m)) = Ok m1
    /\ isPlaying m1 = negb (isPlaying m)
    /\ currentIndex m1 = currentIndex m /\ speed m1 = speed m
    /\ data m1 = data m
    /\ fst (play_button m) = (if isPlaying m then "Pause" else "Play")%string
    /\ fst (play_button m1) = (if isPlaying m then "Play" else "Pause")%string
    /\ (isPlaying m1 = true -> len (signs_of m) > 0 ->
        exists id, intervalRef m1 = Some id
          /\ In (IntervalTimer id (speed m) (signs_of m)) (timers m1))
    /\ (isPlaying m1 = false -> no_interval (timers m1))
    /\ step m1 (snd (play_button m1)) = Ok m2
    /\ isPlaying m2 = isPlaying m
    /\ currentIndex m2 = currentIndex m.
Proof.
  intros Hr. pose proof (run_sound es _ _ (mount_sound d) Hr) as Hsound.
  assert (Hclick : forall x, sound x ->
            exists x1, step x (snd (play_button x)) = Ok x1
              /\ isPlaying x1 = negb (isPlaying x)
              /\ currentIndex x1 = currentIndex x /\ speed x1 = speed x
              /\ data x1 = data x /\ sound x1).
  { intros x Hx. unfold play_button.
    destruct (isPlaying x) eqn:Ep; simpl snd;
      (eexists; split; [reflexivity|]).
    - assert (Hs : step x Pause = Ok (rerender x (pause x))) by reflexivity.
      destruct (rerender_state x (pause x)) as (-> & -> & -> & -> & _).
      split; [|split; [|split; [|split]]];
        try (unfold pause; simpl; destruct (intervalRef x); reflexivity).
      eapply step_sound; eauto.
    - assert (Hs : step x Play = Ok (rerender x (play x))) by reflexivity.
      destruct (rerender_state x (play x)) as (-> & -> & -> & -> & _).
      split; [|split; [|split; [|split]]]; try reflexivity.
      eapply step_sound; eauto. }
  destruct (Hclick m Hsound) as (m1 & Hs1 & Hp1 & Hi1 & Hsp1 & Hd1 & Hsound1).
  destruct (Hclick m1 Hsound1) as (m2 & Hs2 & Hp2 & Hi2 & _).
  exists m1, m2. split; [exact Hs1|]. split; [exact Hp1|].
  split; [exact Hi1|]. split; [exact Hsp1|]. split; [exact Hd1|].
  split; [unfold play_button; destruct (isPlaying m); reflexivity|].
  split; [unfold play_button; rewrite Hp1; destruct (isPlaying m); reflexivity|].
  split.
  { intros Hp Hl. destruct Hsound1 as (_ & _ & Hdr).
    assert (Hsg : signs_of m1 = signs_of m) by (unfold signs_of; now rewrite Hd1).
    rewrite <- Hsg, <- Hsp1. apply Hdr; [exact Hp|now rewrite Hsg]. }
  split.
  { intros Hp. apply paused_no_interval; [apply Hsound1|exact Hp]. }
  split; [exact Hs2|]. split; [|congruence].
  rewrite Hp2, Hp1. apply negb_involutive.
Qed.

Lemma play_button_toggles_witness :
  exists m1 m2,
    step m_spelled (snd (play_button m_spelled)) = Ok m1
    /\ isPlaying m1 = true
    /\ step m1 (snd (play_button m1)) = Ok m2
    /\ isPlaying m2 = false.
Proof.
  destruct (play_button_toggles (result_of spelled) [] m_spelled eq_refl)
    as (m1 & m2 & Hs1 & Hp1 & _ & _ & _ & _ & _ & _ & _ & Hs2 & Hp2 & _).
  exists m1, m2. split; [exact Hs1|]. split; [exact Hp1|].
  split; [exact Hs2|exact Hp2].
Defined.

(** ** The player and the timeline *)

(** X17. The player and the timeline never disagree: in every state, if a
    chip is highlighted then its sign is the current sign, which is not a
    Space; the first line under the image is the chip's text; the second
    line is the sign's [original] word, for a letter inside double quotes
    after the text [Spelling: ]; and an image, when one is shown, is the
    image of that sign: its address is the server address followed by the
    sign's non-empty [image_url], and its alternative text names the chip's
    text. *)
Theorem player_shows_the_active_chip (m : Machine) (n : nat) (c : Chip) :
  nth_error (timeline m) n = Some c -> is_active c = true ->
  exists s,
    currentSign m = Some s
    /\ c = SignChip (label s) true (Seek (currentIndex m))
    /\ type s <> space
    /\ (type s = letter ->
        player_caption m
        = Some (label s,
                String.append "Spelling: "
                  (String.append dquote (String.append (original s) dquote))))
    /\ (type s = word -> player_caption m = Some (label s, original s))
    /\ forall img, player_image m = Some img ->
         exists url, image_url s = Some url /\ url <> ""%string
           /\ src img = String.append API_URL url
           /\ alt img = String.append "ISL sign for " (label s).
Proof.
  intros Hn Ha. unfold timeline in Hn. rewrite timeline_from_nth in Hn.
  destruct (nth_error (signs_of m) n) as [s|] eqn:Es; [|discriminate].
  injection Hn as <-. destruct (is_space (type s)) eqn:Esp; [discriminate|].
  simpl in Ha. simpl. rewrite Ha. apply Z.eqb_eq in Ha.
  assert (Hc : currentSign m = Some s).
  { unfold currentSign, sign_at. rewrite <- Ha.
    destruct (Z.ltb_spec (Z.of_nat n) 0); [lia|]. now rewrite Nat2Z.id. }
  unfold player_caption, player_image. rewrite Hc.
  exists s. split; [reflexivity|]. split; [now rewrite Ha|].
  split; [intros E; rewrite E in Esp; discriminate|].
  split; [now intros ->|]. split; [now intros ->|].
  intros img Himg.
  destruct (image_url s) as [url|]; [|discriminate].
  destruct (String.eqb_spec url ""); [discriminate|].
  injection Himg as <-. exists url. repeat split. assumption.
Qed.

Lemma player_shows_the_active_chip_witness :
  exists s,
    currentSign m_three_letter = Some s
    /\ label s = "B"%string /\ original s = "b"%string
    /\ player_caption m_three_letter
       = Some ("B"%string,
               String.append "Spelling: "
                 (String.append dquote (String.append "b" dquote)))
    /\ forall img, player_image m_three_letter = Some img ->
         src img = String.append API_URL "/img/B.png"
         /\ alt img = "ISL sign for B"%string.
Proof.
  destruct (player_shows_the_active_chip m_three_letter 2
              (SignChip "B" true (Seek 2)) eq_refl eq_refl)
    as (s & Hs & _ & _ & Hletter & _ & Himg).
  exists s. split; [exact Hs|].
  vm_compute in Hs. injection Hs as Hs. rewrite <- Hs in Hletter, Himg |- *.
  split; [reflexivity|]. split; [reflexivity|].
  split; [exact (Hletter eq_refl)|].
  intros img Hi. destruct (Himg img Hi) as (url & Hu & _ & Hsrc & Halt).
  simpl in Hu. injection Hu as Hu. rewrite <- Hu in Hsrc.
  split; [exact Hsrc|exact Halt].
Defined.
